(** * enfl: loading a configuration struct from flags, environment and .env files

    A shallow embedding of [enfl.go] (the variant that registers command-line
    flags) and the properties of its field-resolution and coercion engine.

    Conventions of the embedding.
    - Go strings are byte strings ([string]); the helpers of package
      [strings] are modelled on ASCII input (a byte above 127 is neither
      white space nor a letter).
    - Go errors built with [fmt.Errorf] are their message text.
    - [int] and [uint] are 64 bits wide.
    - Floating point, durations and [strconv.Quote] are not interpreted: they
      are the members of the class [Runtime]. *)

From Stdlib Require Import ZArith String Ascii DecimalString DecimalPos.
From stdpp Require Import base strings list gmap.

Open Scope Z_scope.

Set Warnings "-register-all".

(** ** Results of fallible calls *)

Inductive result (E A : Type) : Type :=
  | Ok (a : A)
  | Err (e : E).
Arguments Ok {E A} a.
Arguments Err {E A} e.

(** ** Package strings (ASCII) *)

Module Strings.

Definition isSpace (c : ascii) : bool :=
  let n := nat_of_ascii c in
  ((n =? 32) || ((9 <=? n) && (n <=? 13)))%nat.

Definition isUpper (c : ascii) : bool :=
  let n := nat_of_ascii c in ((65 <=? n) && (n <=? 90))%nat.

Definition isLower (c : ascii) : bool :=
  let n := nat_of_ascii c in ((97 <=? n) && (n <=? 122))%nat.

Definition toLowerChar (c : ascii) : ascii :=
  if isUpper c then ascii_of_nat (nat_of_ascii c + 32) else c.

Definition toUpperChar (c : ascii) : ascii :=
  if isLower c then ascii_of_nat (nat_of_ascii c - 32) else c.

Fixpoint mapChars (f : ascii → ascii) (s : string) : string :=
  match s with
  | EmptyString => EmptyString
  | String c s' => String (f c) (mapChars f s')
  end.

Definition ToLower : string → string := mapChars toLowerChar.
Definition ToUpper : string → string := mapChars toUpperChar.

Fixpoint trimLeft (s : string) : string :=
  match s with
  | EmptyString => EmptyString
  | String c s' => if isSpace c then trimLeft s' else s
  end.

(** The trimmed tail is empty exactly when the tail is all white space. *)
Fixpoint trimRight (s : string) : string :=
  match s with
  | EmptyString => EmptyString
  | String c s' =>
      match trimRight s' with
      | EmptyString => if isSpace c then EmptyString else String c EmptyString
      | r => String c r
      end
  end.

Definition TrimSpace (s : string) : string := trimRight (trimLeft s).

Definition HasPrefix (s pre : string) : bool := String.prefix pre s.

Fixpoint ContainsChar (s : string) (c : ascii) : bool :=
  match s with
  | EmptyString => false
  | String d s' => if Ascii.eqb d c then true else ContainsChar s' c
  end.

(** [strings.Split(s, sep)] for a separator of one byte. *)
Fixpoint Split (s : string) (sep : ascii) : list string :=
  match s with
  | EmptyString => [EmptyString]
  | String c s' =>
      if Ascii.eqb c sep then EmptyString :: Split s' sep
      else match Split s' sep with
           | x :: xs => String c x :: xs
           | [] => [String c EmptyString]
           end
  end.

(** [strings.SplitN(s, sep, 2)] for a separator of one byte: cut at the
    first separator, or the whole string alone when there is none. *)
Fixpoint SplitN2 (s : string) (sep : ascii) : list string :=
  match s with
  | EmptyString => [EmptyString]
  | String c s' =>
      if Ascii.eqb c sep then [EmptyString; s']
      else match SplitN2 s' sep with
           | x :: xs => String c x :: xs
           | [] => [String c EmptyString]
           end
  end.

(** [strings.ReplaceAll(s, old, new)] for a non-empty [old]: matches are
    taken left to right and do not overlap; [skip] counts the bytes of the
    current match still to drop. *)
Fixpoint replaceFrom (old new : string) (skip : nat) (s : string) : string :=
  match s with
  | EmptyString => EmptyString
  | String c s' =>
      match skip with
      | S k => replaceFrom old new k s'
      | O =>
          if String.prefix old s
          then new +:+ replaceFrom old new (String.length old - 1) s'
          else String c (replaceFrom old new 0 s')
      end
  end.

Definition ReplaceAll (s old new : string) : string := replaceFrom old new 0 s.

Fixpoint Contains (s sub : string) : bool :=
  String.prefix sub s
  || match s with
     | EmptyString => false
     | String _ s' => Contains s' sub
     end.

Definition first (s : string) : option ascii := String.get 0 s.
Definition last (s : string) : option ascii := String.get (String.length s - 1) s.

End Strings.

(** ** Package strconv, base 10 *)

Module Strconv.

Inductive NumErr := ErrSyntax | ErrRange.

Definition IntSize : Z := 64.

Definition digit (c : ascii) : option Z :=
  let n := nat_of_ascii c in
  if ((48 <=? n) && (n <=? 57))%nat then Some (Z.of_nat n - 48) else None.

(** The loop of [ParseUint]: [n] is the value read so far; Go reports a
    range error as soon as [n*10 + d] leaves [0 .. maxVal]. *)
Fixpoint parseDigits (maxVal : Z) (s : string) (n : Z) : result NumErr Z :=
  match s with
  | EmptyString => Ok n
  | String c s' =>
      match digit c with
      | None => Err ErrSyntax
      | Some d =>
          let n1 := n * 10 + d in
          if maxVal <? n1 then Err ErrRange else parseDigits maxVal s' n1
      end
  end.

Definition ParseUint (s : string) (bitSize : Z) : result NumErr Z :=
  match s with
  | EmptyString => Err ErrSyntax
  | _ => parseDigits (2 ^ bitSize - 1) s 0
  end.

Definition ParseInt (s : string) (bitSize : Z) : result NumErr Z :=
  match s with
  | EmptyString => Err ErrSyntax
  | String c s' =>
      let neg := Ascii.eqb c "-" in
      let digits := if Ascii.eqb c "+" || neg then s' else s in
      match ParseUint digits bitSize with
      | Err ErrSyntax => Err ErrSyntax
      | Err ErrRange => Err ErrRange
      | Ok un =>
          let cutoff := 2 ^ (bitSize - 1) in
          if negb neg && (cutoff <=? un) then Err ErrRange
          else if neg && (cutoff <? un) then Err ErrRange
          else Ok (if neg then - un else un)
      end
  end.

Definition Atoi (s : string) : result NumErr Z := ParseInt s IntSize.

Definition ParseBool (s : string) : result NumErr bool :=
  if bool_decide (s ∈ ["1"; "t"; "T"; "TRUE"; "true"; "True"]) then Ok true
  else if bool_decide (s ∈ ["0"; "f"; "F"; "FALSE"; "false"; "False"]) then Ok false
  else Err ErrSyntax.

Definition Itoa (n : Z) : string := NilZero.string_of_int (Z.to_int n).

Definition FormatBool (b : bool) : string := if b then "true" else "false".

Definition NumErr_text (e : NumErr) : string :=
  match e with
  | ErrSyntax => "invalid syntax"
  | ErrRange => "value out of range"
  end.

End Strconv.

(** ** What the embedding does not interpret *)

(** [float64] values with [strconv.ParseFloat(s, 64)], the conversion to
    [float32] and back, [strconv.FormatFloat(f, 'g', -1, 64)];
    [time.ParseDuration] (nanoseconds, or the error text) and
    [time.Duration.String]; [strconv.Quote]. *)
Class Runtime := {
  float64 : Type;
  float64_zero : float64;
  float32_round : float64 → float64;
  ParseFloat : string → result Strconv.NumErr float64;
  FormatFloat : float64 → string;
  ParseDuration : string → result string Z;
  Duration_String : Z → string;
  Quote : string → string;
}.

(** The text of a [*strconv.NumError]. *)
Definition NumError `{Runtime} (func num : string) (e : Strconv.NumErr) : string :=
  "strconv." +:+ func +:+ ": parsing " +:+ Quote num +:+ ": " +:+ Strconv.NumErr_text e.

(** ** Package reflect: kinds, types and values *)

Module Reflect.

(** The kinds of [reflect.Kind] other than [Slice], which is the kind of
    the types [SliceOf]. *)
Inductive Kind :=
  | Bool | Int | Int8 | Int16 | Int32 | Int64
  | Uint | Uint8 | Uint16 | Uint32 | Uint64 | Uintptr
  | Float32 | Float64 | Complex64 | Complex128
  | Array | Chan | Func | Interface | Map | Pointer
  | String | Struct | UnsafePointer.

Definition Kind_String (k : Kind) : string :=
  match k with
  | Bool => "bool" | Int => "int" | Int8 => "int8" | Int16 => "int16"
  | Int32 => "int32" | Int64 => "int64"
  | Uint => "uint" | Uint8 => "uint8" | Uint16 => "uint16"
  | Uint32 => "uint32" | Uint64 => "uint64" | Uintptr => "uintptr"
  | Float32 => "float32" | Float64 => "float64"
  | Complex64 => "complex64" | Complex128 => "complex128"
  | Array => "array" | Chan => "chan" | Func => "func"
  | Interface => "interface" | Map => "map" | Pointer => "ptr"
  | String => "string" | Struct => "struct" | UnsafePointer => "unsafe.Pointer"
  end.

(** A Go type as far as the loader looks into it: [Duration] is
    [time.Duration] (kind [Int64]); [Named k] is any other type of kind
    [k]; as the type of a field, [Named Struct] is [time.Time], the one
    struct type the walker does not enter. *)
Inductive type :=
  | Named (k : Kind)
  | Duration
  | SliceOf (elem : type).

Definition type_Kind_String (T : type) : string :=
  match T with
  | Named k => Kind_String k
  | Duration => "int64"
  | SliceOf _ => "slice"
  end.

(** The width in bits of the integer kinds. *)
Definition Bits (k : Kind) : Z :=
  match k with
  | Int8 | Uint8 => 8
  | Int16 | Uint16 => 16
  | Int32 | Uint32 => 32
  | _ => 64
  end.

End Reflect.

Import Reflect(type, Named, Duration, SliceOf).

Section Model.

Context `{RT : Runtime}.

(** The content of a settable [reflect.Value]. [VNilSlice] is the zero
    value of a slice type; [VOpaque] is a value of a kind the loader never
    assigns (struct, map, pointer, ...). *)
Inductive Value :=
  | VBool (b : bool)
  | VInt (n : Z)
  | VUint (n : Z)
  | VFloat (f : float64)
  | VString (s : string)
  | VNilSlice
  | VSlice (elems : list Value)
  | VOpaque.

(** [reflect.Zero]: what [reflect.MakeSlice] fills a new slice with. *)
Definition zero (T : type) : Value :=
  match T with
  | Named Reflect.Bool => VBool false
  | Named (Reflect.Int | Reflect.Int8 | Reflect.Int16 | Reflect.Int32 | Reflect.Int64)
  | Duration => VInt 0
  | Named (Reflect.Uint | Reflect.Uint8 | Reflect.Uint16 | Reflect.Uint32
          | Reflect.Uint64 | Reflect.Uintptr) => VUint 0
  | Named (Reflect.Float32 | Reflect.Float64) => VFloat float64_zero
  | Named Reflect.String => VString EmptyString
  | SliceOf _ => VNilSlice
  | Named _ => VOpaque
  end.

(** [len] of a slice value. *)
Definition len (v : Value) : nat :=
  match v with
  | VSlice elems => length elems
  | _ => 0%nat
  end.

(** [reflect.Value.SetInt] and [SetUint] store the 64-bit argument
    converted to the width of the field: the high bits are dropped. *)
Definition SetInt (k : Reflect.Kind) (x : Z) : Value :=
  let w := Reflect.Bits k in
  VInt ((x + 2 ^ (w - 1)) mod 2 ^ w - 2 ^ (w - 1)).

Definition SetUint (k : Reflect.Kind) (x : Z) : Value :=
  VUint (x mod 2 ^ Reflect.Bits k).

Definition SetFloat (k : Reflect.Kind) (x : float64) : Value :=
  match k with
  | Reflect.Float32 => VFloat (float32_round x)
  | _ => VFloat x
  end.

(** ** Struct fields and the configuration struct *)

Definition error := string.

(** [Tag] holds the key/value pairs of the struct tag in the order they
    are written; [Exported] is what [CanSet] answers for the field of an
    addressable struct. *)
Record StructField := {
  Name : string;
  Tag : list (string * string);
  Exported : bool;
}.

Fixpoint Tag_Get (tag : list (string * string)) (key : string) : string :=
  match tag with
  | [] => EmptyString
  | (k, v) :: rest => if decide (k = key) then v else Tag_Get rest key
  end.

(** The fields of a struct value in declaration order: a leaf with its
    type and content, or a nested struct (any struct type but
    [time.Time]). *)
Inductive Struct :=
  | SNil
  | SField (fieldType : StructField) (T : type) (field : Value) (rest : Struct)
  | SNested (fieldType : StructField) (sub : Struct) (rest : Struct).

(** The argument of [Load]. *)
Inductive Config :=
  | PtrToStruct (s : Struct)
  | NotPtrToStruct.

(** ** Package flag *)

Inductive FlagValue :=
  | FString (s : string)
  | FInt (n : Z)
  | FInt64 (n : Z)
  | FUint (n : Z)
  | FUint64 (n : Z)
  | FFloat64 (f : float64)
  | FBool (b : bool)
  | FDuration (d : Z).

Definition FlagValue_String (v : FlagValue) : string :=
  match v with
  | FString s => s
  | FInt n | FInt64 n | FUint n | FUint64 n => Strconv.Itoa n
  | FFloat64 f => FormatFloat f
  | FBool b => Strconv.FormatBool b
  | FDuration d => Duration_String d
  end.

(** A [*flag.FlagSet]: the flags defined so far with their current value
    (the usage text is left out, nothing reads it back); whether the set
    is [flag.CommandLine]; whether it has been parsed; and the settings
    its command line holds, as the pairs of a flag name and the value the
    argument parses to. *)
Record FlagSet := {
  formal : gmap string FlagValue;
  isCommandLine : bool;
  parsed : bool;
  args : list (string * FlagValue);
}.

Definition FlagSet_Lookup (f : FlagSet) (name : string) : option FlagValue :=
  formal f !! name.

Inductive outcome :=
  | Nil
  | Error (e : error)
  | Panic (msg : string)
  | Exit.

(** [FlagSet.Var], reached only for a name that is not yet defined. The
    flag package also prints the message to the output of the flag set
    before it panics; that write is not kept, and no statement below is
    about the diagnostic stream of a run that panics. *)
Definition Var (f : FlagSet) (name : string) (v : FlagValue) : FlagSet * outcome :=
  if Strings.HasPrefix name "-"
  then (f, Panic ("flag " +:+ Quote name +:+ " begins with -"))
  else if Strings.ContainsChar name "="
  then (f, Panic ("flag " +:+ Quote name +:+ " contains ="))
  else ({| formal := <[name := v]> (formal f); isCommandLine := isCommandLine f;
           parsed := parsed f; args := args f |}, Nil).

(** [flag.Parse] on [flag.CommandLine]: every setting assigns its flag; a
    flag that is not defined ends the process ([None]). What the flag
    package prints before it exits (the error and the usage of every flag)
    is not kept, and no statement below is about the diagnostic stream of a
    run that exits. The settings are the values the arguments parse to: an
    argument whose value does not parse, and -h, are outside the
    embedding. *)
Fixpoint parseArgs (m : gmap string FlagValue) (a : list (string * FlagValue))
    : option (gmap string FlagValue) :=
  match a with
  | [] => Some m
  | (name, v) :: rest =>
      match m !! name with
      | Some _ => parseArgs (<[name := v]> m) rest
      | None => None
      end
  end.

Definition Parse (f : FlagSet) : option FlagSet :=
  match parseArgs (formal f) (args f) with
  | Some m => Some {| formal := m; isCommandLine := isCommandLine f;
                      parsed := true; args := [] |}
  | None => None
  end.

(** ** The loader *)

Record Loader := {
  envPrefix : string;
  flagSet : FlagSet;
  failOnError : bool;
  envFiles : list string;
  autoLoadEnv : bool;
}.

Definition Option := Loader → Loader.

Definition WithFlagSet (fs : FlagSet) : Option := λ l,
  {| envPrefix := envPrefix l; flagSet := fs; failOnError := failOnError l;
     envFiles := envFiles l; autoLoadEnv := autoLoadEnv l |}.

Definition WithEnvPrefix (prefix : string) : Option := λ l,
  {| envPrefix := prefix; flagSet := flagSet l; failOnError := failOnError l;
     envFiles := envFiles l; autoLoadEnv := autoLoadEnv l |}.

Definition WithFailOnError (b : bool) : Option := λ l,
  {| envPrefix := envPrefix l; flagSet := flagSet l; failOnError := b;
     envFiles := envFiles l; autoLoadEnv := autoLoadEnv l |}.

Definition WithEnvFiles (files : list string) : Option := λ l,
  {| envPrefix := envPrefix l; flagSet := flagSet l; failOnError := failOnError l;
     envFiles := files; autoLoadEnv := autoLoadEnv l |}.

Definition WithAutoLoadEnv (b : bool) : Option := λ l,
  {| envPrefix := envPrefix l; flagSet := flagSet l; failOnError := failOnError l;
     envFiles := envFiles l; autoLoadEnv := b |}.

(** [NewLoader]; [CommandLine] is the state of [flag.CommandLine]. *)
Definition NewLoader (CommandLine : FlagSet) (opts : list Option) : Loader :=
  foldl (λ l opt, opt l)
    {| envPrefix := EmptyString; flagSet := CommandLine; failOnError := true;
       envFiles := []; autoLoadEnv := true |}
    opts.

(** ** Naming conventions *)

(** The loop of [toSnakeCase]; [i] is the index of the first byte of [s]. *)
Fixpoint snakeFrom (i : nat) (s : string) : string :=
  match s with
  | EmptyString => EmptyString
  | String r s' =>
      let rest := String r (snakeFrom (S i) s') in
      if (0 <? i)%nat && Strings.isUpper r then String "_" rest else rest
  end.

Definition toSnakeCase (s : string) : string := Strings.ToLower (snakeFrom 0 s).

Definition toKebabCase (s : string) : string :=
  Strings.ReplaceAll (toSnakeCase s) "_" "-".

Definition getNestedPrefix (field : StructField) (currentPrefix : string) : string :=
  let prefixTag := Tag_Get (Tag field) "prefix" in
  if decide (prefixTag ≠ EmptyString) then currentPrefix +:+ prefixTag
  else currentPrefix +:+ toSnakeCase (Name field) +:+ "_".

Definition getFlagName (field : StructField) : string :=
  let flagTag := Tag_Get (Tag field) "flag" in
  if decide (flagTag ≠ EmptyString)
  then Strings.TrimSpace (hd EmptyString (Strings.Split flagTag ","))
  else toKebabCase (Name field).

Definition getFlagValue (l : Loader) (name : string) : string :=
  match FlagSet_Lookup (flagSet l) name with
  | Some f => FlagValue_String f
  | None => EmptyString
  end.

(** ** The process: files, environment and standard error *)

(** [files] maps the path of a readable text file to its lines (the tokens
    of [bufio.Scanner], which is taken not to fail); any other path does
    not exist. [stderr] lists what was written, oldest first. *)
Record World := {
  files : gmap string (list string);
  environ : gmap string string;
  stderr : list string;
}.

Definition nl : string := String "010"%char EmptyString.

(** [os.Getenv] and [os.LookupEnv]; the empty name is never set. *)
Definition LookupEnv (env : gmap string string) (key : string) : option string :=
  if decide (key = EmptyString) then None else env !! key.

Definition Getenv (env : gmap string string) (key : string) : string :=
  default EmptyString (LookupEnv env key).

(** [os.Setenv] refuses (and the loader ignores it) an empty key, a key with
    [=] or a NUL byte, and a value with a NUL byte. *)
Definition Setenv_ok (key value : string) : bool :=
  negb (bool_decide (key = EmptyString) || Strings.ContainsChar key "="
        || Strings.ContainsChar key "000" || Strings.ContainsChar value "000").

Definition Setenv (env : gmap string string) (key value : string) : gmap string string :=
  if Setenv_ok key value then <[key := value]> env else env.

Definition Fprint_stderr (w : World) (text : string) : World :=
  {| files := files w; environ := environ w; stderr := stderr w ++ [text] |}.

Definition with_environ (w : World) (env : gmap string string) : World :=
  {| files := files w; environ := env; stderr := stderr w |}.

(** ** getEnvKey *)

(** The prefixing that [getEnvKey] writes out at each of its three exits. *)
Definition withPrefixes (l : Loader) (prefix name : string) : string :=
  let name := if decide (prefix ≠ EmptyString) then prefix +:+ name else name in
  if decide (envPrefix l ≠ EmptyString) then envPrefix l +:+ name else name.

(** The loop over the names of the env tag. *)
Fixpoint firstSetName (l : Loader) (env : gmap string string) (prefix : string)
    (envNames : list string) : option string :=
  match envNames with
  | [] => None
  | name :: rest =>
      let name := withPrefixes l prefix (Strings.TrimSpace name) in
      if decide (Getenv env name ≠ EmptyString) then Some name
      else firstSetName l env prefix rest
  end.

Definition getEnvKey (l : Loader) (env : gmap string string) (field : StructField)
    (prefix : string) : string :=
  let envTag := Tag_Get (Tag field) "env" in
  if decide (envTag ≠ EmptyString) then
    let envNames := Strings.Split envTag "," in
    match firstSetName l env prefix envNames with
    | Some name => name
    | None => withPrefixes l prefix (Strings.TrimSpace (hd EmptyString envNames))
    end
  else Strings.ToUpper (withPrefixes l prefix (toSnakeCase (Name field))).

(** ** Coercion: setFieldValue and setSliceValue *)

(** [fmt.Sprintf] of [fieldName] and [i] in brackets, the name of element [i]. *)
Definition elemName (fieldName : string) (i : nat) : string :=
  fieldName +:+ "[" +:+ Strconv.Itoa (Z.of_nat i) +:+ "]".

(** The loop of [setSliceValue] over [parts], from index [i]: each element
    of the new slice is set in place. *)
Fixpoint setElems (setElem : Value → string → string → Value * option error)
    (fieldName : string) (parts : list string) (i : nat) (slice : list Value)
    : result error (list Value) :=
  match parts with
  | [] => Ok slice
  | part :: rest =>
      let part := Strings.TrimSpace part in
      let elem := default VOpaque (slice !! i) in
      match setElem elem part (elemName fieldName i) with
      | (elem', None) => setElems setElem fieldName rest (S i) (<[i := elem']> slice)
      | (_, Some err) => Err err
      end
  end.

(** [setSliceValue] for a slice of [elem], given [setFieldValue] at [elem]. *)
Definition setSliceValueWith (setElem : Value → string → string → Value * option error)
    (elem : type) (field : Value) (value fieldName : string) : Value * option error :=
  if decide (value = EmptyString) then (field, None)
  else
    let parts := Strings.Split value "," in
    let slice := replicate (length parts) (zero elem) in
    match setElems setElem fieldName parts 0 slice with
    | Ok slice' => (VSlice slice', None)
    | Err err => (field, Some err)
    end.

(** [setFieldValue]: the content of the field afterwards, and the error. *)
Fixpoint setFieldValue (T : type) (field : Value) (value fieldName : string)
    : Value * option error :=
  match T with
  | Named Reflect.String => (VString value, None)
  | Duration =>
      match ParseDuration value with
      | Err err => (field, Some ("invalid duration for " +:+ fieldName +:+ ": " +:+ err))
      | Ok duration => (SetInt Reflect.Int64 duration, None)
      end
  | Named ((Reflect.Int | Reflect.Int8 | Reflect.Int16 | Reflect.Int32
           | Reflect.Int64) as k) =>
      match Strconv.ParseInt value 64 with
      | Err err => (field, Some ("invalid integer for " +:+ fieldName +:+ ": "
                                 +:+ NumError "ParseInt" value err))
      | Ok intVal => (SetInt k intVal, None)
      end
  | Named ((Reflect.Uint | Reflect.Uint8 | Reflect.Uint16 | Reflect.Uint32
           | Reflect.Uint64) as k) =>
      match Strconv.ParseUint value 64 with
      | Err err => (field, Some ("invalid unsigned integer for " +:+ fieldName +:+ ": "
                                 +:+ NumError "ParseUint" value err))
      | Ok uintVal => (SetUint k uintVal, None)
      end
  | Named ((Reflect.Float32 | Reflect.Float64) as k) =>
      match ParseFloat value with
      | Err err => (field, Some ("invalid float for " +:+ fieldName +:+ ": "
                                 +:+ NumError "ParseFloat" value err))
      | Ok floatVal => (SetFloat k floatVal, None)
      end
  | Named Reflect.Bool =>
      match Strconv.ParseBool value with
      | Err err => (field, Some ("invalid boolean for " +:+ fieldName +:+ ": "
                                 +:+ NumError "ParseBool" value err))
      | Ok boolVal => (VBool boolVal, None)
      end
  | SliceOf elem => setSliceValueWith (setFieldValue elem) elem field value fieldName
  | Named k =>
      (field, Some ("unsupported field type " +:+ Reflect.Kind_String k
                    +:+ " for " +:+ fieldName))
  end.

Definition setSliceValue (elem : type) (field : Value) (value fieldName : string)
    : Value * option error :=
  setSliceValueWith (setFieldValue elem) elem field value fieldName.

(** ** Registering the flags *)

Definition with_flagSet (l : Loader) (f : FlagSet) : Loader :=
  {| envPrefix := envPrefix l; flagSet := f; failOnError := failOnError l;
     envFiles := envFiles l; autoLoadEnv := autoLoadEnv l |}.

(** The value of a parse whose error is dropped. *)
Definition orDefault {E A : Type} (d : A) (r : result E A) : A :=
  match r with
  | Ok a => a
  | Err _ => d
  end.

(** [registerFieldFlag]: the loader (its flag set) afterwards and the
    outcome. The usage text of [getFlagUsage] goes to the flag only. *)
Definition registerFieldFlag (l : Loader) (T : type) (fieldType : StructField)
    (prefix : string) : Loader * outcome :=
  let flagName := getFlagName fieldType in
  if decide (flagName = EmptyString) then (l, Nil)
  else match FlagSet_Lookup (flagSet l) flagName with
  | Some _ => (l, Nil)
  | None =>
      let defaultValue := Tag_Get (Tag fieldType) "default" in
      let define (v : FlagValue) :=
        let '(f, o) := Var (flagSet l) flagName v in (with_flagSet l f, o) in
      match T with
      | Named Reflect.String => define (FString defaultValue)
      | Named Reflect.Int =>
          define (FInt (if decide (defaultValue ≠ EmptyString)
                        then orDefault 0 (Strconv.Atoi defaultValue) else 0))
      | Duration =>
          define (FDuration (if decide (defaultValue ≠ EmptyString)
                             then orDefault 0 (ParseDuration defaultValue) else 0))
      | Named Reflect.Int64 =>
          define (FInt64 (if decide (defaultValue ≠ EmptyString)
                          then orDefault 0 (Strconv.ParseInt defaultValue 64) else 0))
      | Named Reflect.Uint =>
          define (FUint (if decide (defaultValue ≠ EmptyString)
                         then orDefault 0 (Strconv.ParseUint defaultValue 64) else 0))
      | Named Reflect.Uint64 =>
          define (FUint64 (if decide (defaultValue ≠ EmptyString)
                           then orDefault 0 (Strconv.ParseUint defaultValue 64) else 0))
      | Named Reflect.Float64 =>
          define (FFloat64 (if decide (defaultValue ≠ EmptyString)
                            then orDefault float64_zero (ParseFloat defaultValue)
                            else float64_zero))
      | Named Reflect.Bool =>
          define (FBool (if decide (defaultValue ≠ EmptyString)
                         then orDefault false (Strconv.ParseBool defaultValue) else false))
      | SliceOf _ => define (FString defaultValue)
      | Named _ =>
          (l, Error ("unsupported flag type " +:+ Reflect.type_Kind_String T
                     +:+ " for field " +:+ Name fieldType))
      end
  end.

Fixpoint registerFlags (l : Loader) (v : Struct) (prefix : string) : Loader * outcome :=
  match v with
  | SNil => (l, Nil)
  | SField fieldType T _ rest =>
      if negb (Exported fieldType) then registerFlags l rest prefix
      else match registerFieldFlag l T fieldType prefix with
           | (l', Nil) => registerFlags l' rest prefix
           | (l', err) => (l', err)
           end
  | SNested fieldType sub rest =>
      if negb (Exported fieldType) then registerFlags l rest prefix
      else
        let nestedPrefix := getNestedPrefix fieldType prefix in
        match registerFlags l sub nestedPrefix with
        | (l', Nil) => registerFlags l' rest prefix
        | (l', err) => (l', err)
        end
  end.

(** ** Resolving and assigning one field *)

(** The first part of [processField], up to the required check: the raw
    value and whether a tier supplied one. *)
Definition resolve (l : Loader) (env : gmap string string) (fieldType : StructField)
    (prefix : string) : string * bool :=
  let envKey := getEnvKey l env fieldType prefix in
  let flagName := getFlagName fieldType in
  let defaultValue := Tag_Get (Tag fieldType) "default" in
  let '(value, found) :=
    if decide (flagName ≠ EmptyString) then
      let flagValue := getFlagValue l flagName in
      if decide (flagValue ≠ EmptyString) then (flagValue, true)
      else (EmptyString, false)
    else (EmptyString, false) in
  let '(value, found) :=
    if negb found && bool_decide (envKey ≠ EmptyString) then
      let envValue := Getenv env envKey in
      if decide (envValue ≠ EmptyString) then (envValue, true) else (value, found)
    else (value, found) in
  if negb found && bool_decide (defaultValue ≠ EmptyString) then (defaultValue, true)
  else (value, found).

Definition processField (l : Loader) (env : gmap string string) (T : type)
    (field : Value) (fieldType : StructField) (prefix : string) : Value * option error :=
  let required := bool_decide (Tag_Get (Tag fieldType) "required" = "true") in
  let '(value, found) := resolve l env fieldType prefix in
  if required && negb found
  then (field, Some ("required field " +:+ Name fieldType +:+ " not set"))
  else if found then setFieldValue T field value (Name fieldType)
  else (field, None).

(** ** Walking the struct *)

Fixpoint processStruct (l : Loader) (w : World) (v : Struct) (prefix : string)
    : Struct * World * option error :=
  match v with
  | SNil => (SNil, w, None)
  | SField fieldType T field rest =>
      if negb (Exported fieldType) then
        let '(rest', w', err) := processStruct l w rest prefix in
        (SField fieldType T field rest', w', err)
      else
        match processField l (environ w) T field fieldType prefix with
        | (field', Some err) =>
            if failOnError l then (SField fieldType T field' rest, w, Some err)
            else
              let w1 := Fprint_stderr w ("config warning: " +:+ err +:+ nl) in
              let '(rest', w', e) := processStruct l w1 rest prefix in
              (SField fieldType T field' rest', w', e)
        | (field', None) =>
            let '(rest', w', e) := processStruct l w rest prefix in
            (SField fieldType T field' rest', w', e)
        end
  | SNested fieldType sub rest =>
      if negb (Exported fieldType) then
        let '(rest', w', err) := processStruct l w rest prefix in
        (SNested fieldType sub rest', w', err)
      else
        let nestedPrefix := getNestedPrefix fieldType prefix in
        match processStruct l w sub nestedPrefix with
        | (sub', w1, Some err) => (SNested fieldType sub' rest, w1, Some err)
        | (sub', w1, None) =>
            let '(rest', w', e) := processStruct l w1 rest prefix in
            (SNested fieldType sub' rest', w', e)
        end
  end.

(** ** Loading .env files *)

Definition dquote : ascii := "034"%char.
Definition squote : ascii := "039"%char.
Definition backslash : string := String "092"%char EmptyString.

Definition quotedBy (q : ascii) (value : string) : bool :=
  (2 <=? String.length value)%nat
  && bool_decide (Strings.first value = Some q)
  && bool_decide (Strings.last value = Some q).

Definition unquoteValue (value : string) : string :=
  if quotedBy dquote value then
    let value := String.substring 1 (String.length value - 2) value in
    let value := Strings.ReplaceAll value (backslash +:+ String dquote EmptyString)
                   (String dquote EmptyString) in
    let value := Strings.ReplaceAll value (backslash +:+ backslash) backslash in
    let value := Strings.ReplaceAll value (backslash +:+ "n") nl in
    let value := Strings.ReplaceAll value (backslash +:+ "r") (String "013"%char EmptyString) in
    let value := Strings.ReplaceAll value (backslash +:+ "t") (String "009"%char EmptyString) in
    value
  else if quotedBy squote value then
    String.substring 1 (String.length value - 2) value
  else value.

(** What one scanned line asks for. *)
Inductive Line :=
  | Skip
  | Invalid (line : string)
  | Assign (key value : string).

(** The body of the scanning loop of [loadEnvFile] up to [os.LookupEnv]. *)
Definition parseLine (text : string) : Line :=
  let line := Strings.TrimSpace text in
  if bool_decide (line = EmptyString) || Strings.HasPrefix line "#" then Skip
  else match Strings.SplitN2 line "=" with
       | [k; v] =>
           let key := Strings.TrimSpace k in
           let value := Strings.TrimSpace v in
           if bool_decide (key = EmptyString) || bool_decide (value = EmptyString)
           then Skip
           else Assign key (unquoteValue value)
       | _ => Invalid line
       end.

(** The scanning loop; [lineNum] lines have been read before [lines]. *)
Fixpoint scanLines (env : gmap string string) (lines : list string) (lineNum : nat)
    : gmap string string * option error :=
  match lines with
  | [] => (env, None)
  | text :: rest =>
      let lineNum := S lineNum in
      match parseLine text with
      | Skip => scanLines env rest lineNum
      | Invalid line =>
          (env, Some ("invalid format at line " +:+ Strconv.Itoa (Z.of_nat lineNum)
                      +:+ ": " +:+ line))
      | Assign key value =>
          match LookupEnv env key with
          | Some _ => scanLines env rest lineNum
          | None => scanLines (Setenv env key value) rest lineNum
          end
      end
  end.

(** [loadEnvFile] on a file the scanner reads to its end: the lines of a
    file are those [bufio.Scanner] delivers. The error of the scanner
    itself (a line of 64 KiB or more, a failing read), which the source
    returns after the loop, is outside the embedding; the statements below
    that conclude a successful load from the lines alone are not made. *)
Definition loadEnvFile (w : World) (filename : string) : World * option error :=
  match files w !! filename with
  | None =>
      (w, Some ("failed to open " +:+ filename +:+ ": open " +:+ filename
                +:+ ": no such file or directory"))
  | Some lines =>
      let '(env, err) := scanLines (environ w) lines 0 in
      (with_environ w env, err)
  end.

Definition commonEnvFiles : list string :=
  [".env"; ".env.local"; ".env.development"; ".env.production"].

(** The local [filesToLoad] of [loadEnvFiles]. *)
Definition filesToLoad (l : Loader) (w : World) : list string :=
  if autoLoadEnv l
  then envFiles l ++ filter (λ file, is_Some (files w !! file)) commonEnvFiles
  else envFiles l.

Fixpoint loadEach (w : World) (toLoad : list string) : World * option error :=
  match toLoad with
  | [] => (w, None)
  | file :: rest =>
      match loadEnvFile w file with
      | (w', Some err) => (w', Some ("failed to load " +:+ file +:+ ": " +:+ err))
      | (w', None) => loadEach w' rest
      end
  end.

Definition loadEnvFiles (l : Loader) (w : World) : World * option error :=
  loadEach w (filesToLoad l w).

(** ** Load *)

Definition Load (l : Loader) (w : World) (config : Config)
    : Loader * World * Config * outcome :=
  match config with
  | NotPtrToStruct => (l, w, config, Error "config must be a pointer to a struct")
  | PtrToStruct v =>
      let '(w1, err) := loadEnvFiles l w in
      match err, failOnError l with
      | Some e, true => (l, w1, config, Error ("failed to load .env files: " +:+ e))
      | _, _ =>
          let w2 := match err with
                    | Some e => Fprint_stderr w1
                        ("config warning: failed to load .env files: " +:+ e +:+ nl)
                    | None => w1
                    end in
          match registerFlags l v EmptyString with
          | (l1, Error e) => (l1, w2, config, Error ("failed to register flags: " +:+ e))
          | (l1, Nil) =>
              let f := flagSet l1 in
              match (if isCommandLine f && negb (parsed f) then Parse f else Some f) with
              | None => (l1, w2, config, Exit)
              | Some f' =>
                  let l2 := with_flagSet l1 f' in
                  let '(v', w3, e) := processStruct l2 w2 v EmptyString in
                  (l2, w3, PtrToStruct v',
                   match e with Some e => Error e | None => Nil end)
              end
          | (l1, stop) => (l1, w2, config, stop)
          end
      end
  end.

(** The package-level [Load]: a loader with the default options. *)
Definition Load_default (CommandLine : FlagSet) (w : World) (config : Config)
    : Loader * World * Config * outcome :=
  Load (NewLoader CommandLine []) w config.

(** ** Vocabulary of the statements *)

(** The kinds [setFieldValue] converts with [strconv.ParseInt]. *)
Definition signedKinds : list Reflect.Kind :=
  [Reflect.Int; Reflect.Int8; Reflect.Int16; Reflect.Int32; Reflect.Int64].

(** The names [getEnvKey] tries for a field with an env tag, in the order
    of the tag: global prefix, accumulated prefix and the trimmed name. *)
Definition envCandidates (l : Loader) (field : StructField) (prefix : string)
    : list string :=
  map (λ name, envPrefix l +:+ prefix +:+ Strings.TrimSpace name)
      (Strings.Split (Tag_Get (Tag field) "env") ",").

(** The flag tier of [processField] supplies nothing. *)
Definition flagTierEmpty (l : Loader) (field : StructField) : Prop :=
  getFlagName field = EmptyString ∨ getFlagValue l (getFlagName field) = EmptyString.

(** The lines of a file give [key] the value [value]: some line assigns it,
    and every line before that one is skipped or assigns another key. *)
Inductive defines (key value : string) : list string → Prop :=
  | defines_here text rest :
      parseLine text = Assign key value → defines key value (text :: rest)
  | defines_after_skip text rest :
      parseLine text = Skip → defines key value rest → defines key value (text :: rest)
  | defines_after_other text rest k v :
      parseLine text = Assign k v → k ≠ key → defines key value rest →
      defines key value (text :: rest).

(** The leaf [fieldType], of type [T] and content [field], is a field the
    walker reaches in the struct [v] walked under [prefix], and [q] is the
    accumulated prefix there. *)
Inductive leafAt (fieldType : StructField) (T : type) (field : Value) (q : string)
    : string → Struct → Prop :=
  | leafAt_here prefix rest :
      Exported fieldType = true → q = prefix →
      leafAt fieldType T field q prefix (SField fieldType T field rest)
  | leafAt_after_field prefix fieldType' T' field' rest :
      leafAt fieldType T field q prefix rest →
      leafAt fieldType T field q prefix (SField fieldType' T' field' rest)
  | leafAt_after_nested prefix fieldType' sub rest :
      leafAt fieldType T field q prefix rest →
      leafAt fieldType T field q prefix (SNested fieldType' sub rest)
  | leafAt_inside prefix fieldType' sub rest :
      Exported fieldType' = true →
      leafAt fieldType T field q (getNestedPrefix fieldType' prefix) sub →
      leafAt fieldType T field q prefix (SNested fieldType' sub rest).

(** The whole walk without a policy: every settable leaf replaced by what
    [processField] leaves in it, and the errors of the leaves in the order
    of the walk. *)
Fixpoint walk (l : Loader) (env : gmap string string) (v : Struct) (prefix : string)
    : Struct * list error :=
  match v with
  | SNil => (SNil, [])
  | SField fieldType T field rest =>
      let '(rest', errs) := walk l env rest prefix in
      if negb (Exported fieldType) then (SField fieldType T field rest', errs)
      else
        let '(field', e) := processField l env T field fieldType prefix in
        (SField fieldType T field' rest',
         match e with Some err => err :: errs | None => errs end)
  | SNested fieldType sub rest =>
      let '(rest', errs) := walk l env rest prefix in
      if negb (Exported fieldType) then (SNested fieldType sub rest', errs)
      else
        let '(sub', errs1) := walk l env sub (getNestedPrefix fieldType prefix) in
        (SNested fieldType sub' rest', errs1 ++ errs)
  end.

(** The line [processStruct] writes for an error. *)
Definition warning (err : error) : string := "config warning: " +:+ err +:+ nl.

Definition Fprint_all (w : World) (texts : list string) : World :=
  {| files := files w; environ := environ w; stderr := stderr w ++ texts |}.

(** [Load] ended before it walked the struct. *)
Definition stoppedBeforeWalk (o : outcome) : Prop :=
  o = Exit ∨ (∃ msg, o = Panic msg)
  ∨ (∃ e, o = Error ("failed to load .env files: " +:+ e))
  ∨ (∃ e, o = Error ("failed to register flags: " +:+ e)).

(** ** getFlagUsage *)

(** The usage text [registerFieldFlag] hands to the flag package. *)
Definition getFlagUsage (field : StructField) : string :=
  let usage := Tag_Get (Tag field) "usage" in
  if decide (usage ≠ EmptyString) then usage
  else
    let desc := Tag_Get (Tag field) "description" in
    if decide (desc ≠ EmptyString) then desc
    else
      let envKey := Tag_Get (Tag field) "env" in
      let envKey := if decide (envKey = EmptyString) then toSnakeCase (Name field)
                    else envKey in
      let usage := Name field +:+ " (env: " +:+ Strings.ToUpper envKey +:+ ")" in
      let defaultVal := Tag_Get (Tag field) "default" in
      let usage := if decide (defaultVal ≠ EmptyString)
                   then usage +:+ " (default: " +:+ defaultVal +:+ ")" else usage in
      if decide (Tag_Get (Tag field) "required" = "true")
      then usage +:+ " [required]" else usage.

(** ** More vocabulary *)

(** The content [v] is a value of the Go type [T]: integers lie in the
    range of their width, a slice holds values of its element type. *)
Fixpoint hasType (T : type) (v : Value) : Prop :=
  match T with
  | SliceOf elem =>
      match v with
      | VNilSlice => True
      | VSlice elems => Forall (hasType elem) elems
      | _ => False
      end
  | Duration =>
      match v with
      | VInt n => - 2 ^ 63 ≤ n < 2 ^ 63
      | _ => False
      end
  | Named Reflect.Bool => match v with VBool _ => True | _ => False end
  | Named ((Reflect.Int | Reflect.Int8 | Reflect.Int16 | Reflect.Int32
           | Reflect.Int64) as k) =>
      match v with
      | VInt n => - 2 ^ (Reflect.Bits k - 1) ≤ n < 2 ^ (Reflect.Bits k - 1)
      | _ => False
      end
  | Named ((Reflect.Uint | Reflect.Uint8 | Reflect.Uint16 | Reflect.Uint32
           | Reflect.Uint64 | Reflect.Uintptr) as k) =>
      match v with
      | VUint n => 0 ≤ n < 2 ^ Reflect.Bits k
      | _ => False
      end
  | Named (Reflect.Float32 | Reflect.Float64) =>
      match v with VFloat _ => True | _ => False end
  | Named Reflect.String => match v with VString _ => True | _ => False end
  | Named _ => v = VOpaque
  end.

(** Every leaf of the struct holds a value of its type. *)
Fixpoint wellTyped (v : Struct) : Prop :=
  match v with
  | SNil => True
  | SField _ T field rest => hasType T field ∧ wellTyped rest
  | SNested _ sub rest => wellTyped sub ∧ wellTyped rest
  end.

(** No field of the struct itself is settable (what its nested structs
    hold does not matter: the walker does not enter them). *)
Fixpoint allUnexported (v : Struct) : Prop :=
  match v with
  | SNil => True
  | SField fieldType _ _ rest => Exported fieldType = false ∧ allUnexported rest
  | SNested fieldType _ rest => Exported fieldType = false ∧ allUnexported rest
  end.

(** The line is one [loadEnvFile] accepts: blank, a comment, or key=value. *)
Definition wellFormedLine (text : string) : Prop :=
  ∀ line, parseLine text ≠ Invalid line.

(** The file exists and every line of it is accepted. *)
Definition loadable (w : World) (file : string) : Prop :=
  ∃ lines, files w !! file = Some lines ∧ Forall wellFormedLine lines.

(** The kinds converted with [strconv.ParseUint], and the kinds whose
    conversion the embedding interprets and that reject the empty text. *)
Definition unsignedKinds : list Reflect.Kind :=
  [Reflect.Uint; Reflect.Uint8; Reflect.Uint16; Reflect.Uint32; Reflect.Uint64].

Definition strictKinds : list Reflect.Kind :=
  signedKinds ++ unsignedKinds ++ [Reflect.Bool].

(** The number a string of decimal digits stands for, read after [acc]. *)
Fixpoint digitsValue (d : Decimal.uint) (acc : Z) : Z :=
  match d with
  | Decimal.Nil => acc
  | Decimal.D0 d => digitsValue d (acc * 10 + 0)
  | Decimal.D1 d => digitsValue d (acc * 10 + 1)
  | Decimal.D2 d => digitsValue d (acc * 10 + 2)
  | Decimal.D3 d => digitsValue d (acc * 10 + 3)
  | Decimal.D4 d => digitsValue d (acc * 10 + 4)
  | Decimal.D5 d => digitsValue d (acc * 10 + 5)
  | Decimal.D6 d => digitsValue d (acc * 10 + 6)
  | Decimal.D7 d => digitsValue d (acc * 10 + 7)
  | Decimal.D8 d => digitsValue d (acc * 10 + 8)
  | Decimal.D9 d => digitsValue d (acc * 10 + 9)
  end.

End Model.

(** ** A runtime for closed evaluations *)

(** Enough of a runtime to run the model on configurations that hold no
    float and no duration: no string parses as either, and [Quote] wraps its
    argument in double quotes, as [strconv.Quote] does for printable ASCII
    without a quote or a backslash. The closed lemmas below are evaluated
    against it; the theorems hold for every runtime. *)
#[export] Instance plain_runtime : Runtime := {|
  float64 := unit;
  float64_zero := tt;
  float32_round := λ f, f;
  ParseFloat := λ _, Err Strconv.ErrSyntax;
  FormatFloat := λ _, "0";
  ParseDuration := λ s, Err ("time: invalid duration " +:+ String dquote s +:+ String dquote EmptyString);
  Duration_String := λ _, "0s";
  Quote := λ s, String dquote s +:+ String dquote EmptyString;
|}.


(** ** Inputs of the closed lemmas *)

Module Ex.

(** [flag.CommandLine] of a process started without arguments, and a fresh
    flag set of the host. *)
Definition commandLine : FlagSet :=
  {| formal := ∅; isCommandLine := true; parsed := false; args := [] |}.

Definition hostFlags : FlagSet :=
  {| formal := ∅; isCommandLine := false; parsed := false; args := [] |}.

Definition world (env : list (string * string)) (fs : list (string * list string))
    : World :=
  {| files := list_to_map fs; environ := list_to_map env; stderr := [] |}.

(** A port of type int with env PORT, flag port and default 8080, and the
    same field without a default. *)
Definition port : StructField :=
  {| Name := "Port";
     Tag := [("env", "PORT"); ("flag", "port"); ("default", "8080")];
     Exported := true |}.

Definition portNoDefault : StructField :=
  {| Name := "Port"; Tag := [("env", "PORT"); ("flag", "port")]; Exported := true |}.

Definition portConfig (sf : StructField) : Config :=
  PtrToStruct (SField sf (Named Reflect.Int) (VInt 0) SNil).


(** A level of type int8. *)
Definition level : StructField :=
  {| Name := "Level"; Tag := [("env", "LEVEL")]; Exported := true |}.

Definition levelConfig : Config :=
  PtrToStruct (SField level (Named Reflect.Int8) (VInt 0) SNil).

(** A nested struct Database with prefix DB_ and a required string Name. *)
Definition database : StructField :=
  {| Name := "Database"; Tag := [("prefix", "DB_")]; Exported := true |}.

Definition dbName : StructField :=
  {| Name := "Name"; Tag := [("env", "NAME"); ("required", "true")]; Exported := true |}.

Definition dbStruct : Struct :=
  SNested database (SField dbName (Named Reflect.String) (VString EmptyString) SNil) SNil.

(** Two sibling structs, each with a string Host; the second without a
    prefix tag. *)
Definition server : StructField :=
  {| Name := "Server"; Tag := [("prefix", "SERVER_")]; Exported := true |}.

Definition store : StructField :=
  {| Name := "Store"; Tag := []; Exported := true |}.

Definition serverHost : StructField :=
  {| Name := "Host"; Tag := [("env", "HOST"); ("default", "localhost")]; Exported := true |}.

Definition storeHost : StructField :=
  {| Name := "Host"; Tag := [("env", "HOST")]; Exported := true |}.

Definition hostsStruct : Struct :=
  SNested server (SField serverHost (Named Reflect.String) (VString EmptyString) SNil)
    (SNested store (SField storeHost (Named Reflect.String) (VString EmptyString) SNil)
       SNil).



(** Two env files: the conventional one and one the caller lists. *)
Definition envFilesOnDisk : list (string * list string) :=
  [(".env", ["A=file"; "# comment"; "B = 'b c' "; "C=3"]);
   ("app.env", ["D=4"])].

End Ex.

(** ** Further inputs *)

Module Ex2.



End Ex2.

(** * Properties *)

Section Properties.

Context `{RT : Runtime}.

(** ** Integer conversion *)

Lemma Bits_pos k : 0 < 2 ^ (Reflect.Bits k - 1) ∧ 2 ^ Reflect.Bits k = 2 * 2 ^ (Reflect.Bits k - 1).
Proof. destruct k; simpl; lia. Qed.

(** Reducing [x] into the signed range of half-width [h]. *)
Lemma wrap_signed h x :
  0 < h →
  let m := (x + h) mod (2 * h) - h in
  - h ≤ m < h ∧ (m - x) mod (2 * h) = 0 ∧ (- h ≤ x < h → m = x).
Proof.
  intros Hh m. subst m.
  pose proof (Z.mod_pos_bound (x + h) (2 * h) ltac:(lia)) as Hb.
  split; [lia|]. split.
  - pose proof (Z.div_mod (x + h) (2 * h) ltac:(lia)) as Hd.
    replace ((x + h) mod (2 * h) - h - x) with ((- ((x + h) / (2 * h))) * (2 * h)) by lia.
    apply Z.mod_mul. lia.
  - intros Hx. rewrite Z.mod_small by lia. lia.
Qed.

Lemma SetInt_spec k x :
  ∃ m, SetInt k x = VInt m
       ∧ - 2 ^ (Reflect.Bits k - 1) ≤ m < 2 ^ (Reflect.Bits k - 1)
       ∧ (m - x) mod 2 ^ Reflect.Bits k = 0
       ∧ (- 2 ^ (Reflect.Bits k - 1) ≤ x < 2 ^ (Reflect.Bits k - 1) → m = x).
Proof.
  destruct (Bits_pos k) as [Hpos Heq].
  eexists. split; [reflexivity|]. rewrite Heq.
  exact (wrap_signed (2 ^ (Reflect.Bits k - 1)) x Hpos).
Qed.

Lemma setFieldValue_signed k field value fieldName :
  k ∈ signedKinds →
  setFieldValue (Named k) field value fieldName =
    match Strconv.ParseInt value 64 with
    | Ok intVal => (SetInt k intVal, None)
    | Err err => (field, Some ("invalid integer for " +:+ fieldName +:+ ": "
                               +:+ NumError "ParseInt" value err))
    end.
Proof.
  unfold signedKinds. rewrite !elem_of_cons, elem_of_nil.
  intros [-> | [-> | [-> | [-> | [-> | []]]]]]; reflexivity.
Qed.


(** ** Sequences *)

(** The loop over the parts, started at index [i] on a slice whose elements
    from [i] on are still [z]: it succeeds exactly when every part converts,
    and then holds the converted elements; it fails with the error of a part. *)
Lemma setElems_spec setElem fieldName z parts : ∀ i slice,
  (∀ j, (i ≤ j < i + length parts)%nat → slice !! j = Some z) →
  match setElems setElem fieldName parts i slice with
  | Ok slice' =>
      length slice' = length slice
      ∧ (∀ j, (j < i)%nat → slice' !! j = slice !! j)
      ∧ ∀ k part, parts !! k = Some part →
          ∃ e', setElem z (Strings.TrimSpace part) (elemName fieldName (i + k)%nat) = (e', None)
                ∧ slice' !! (i + k)%nat = Some e'
  | Err err =>
      ∃ k part e0, parts !! k = Some part
        ∧ setElem z (Strings.TrimSpace part) (elemName fieldName (i + k)%nat) = (e0, Some err)
  end.
Proof.
  induction parts as [|part rest IH]; intros i slice Hz; simpl.
  - repeat split; auto. intros k p Hk. rewrite lookup_nil in Hk. discriminate.
  - assert (Hi : slice !! i = Some z) by (apply Hz; simpl; lia).
    rewrite Hi. simpl.
    destruct (setElem z (Strings.TrimSpace part) (elemName fieldName i))
      as [e' [err|]] eqn:Hset.
    + exists 0%nat, part, e'. rewrite Nat.add_0_r. auto.
    + specialize (IH (S i) (<[i := e']> slice)).
      destruct (setElems setElem fieldName rest (S i) (<[i := e']> slice)) as [slice'|err].
      * destruct IH as (Hlen & Hlow & Hall).
        { intros j Hj. rewrite list_lookup_insert_ne by lia. apply Hz. simpl. lia. }
        rewrite length_insert in Hlen. split; [exact Hlen|]. split.
        { intros j Hj. rewrite Hlow by lia. apply list_lookup_insert_ne. lia. }
        intros [|k] p Hk; simpl in Hk.
        { injection Hk as <-. exists e'. rewrite Nat.add_0_r. split; [exact Hset|].
          rewrite Hlow by lia. apply list_lookup_insert_eq.
          apply lookup_lt_Some in Hi. exact Hi. }
        { destruct (Hall k p Hk) as (e'' & He & Hl). exists e''.
          replace (i + S k)%nat with (S i + k)%nat by lia. auto. }
      * destruct IH as (k & p & e0 & Hk & He).
        { intros j Hj. rewrite list_lookup_insert_ne by lia. apply Hz. simpl. lia. }
        exists (S k), p, e0. replace (i + S k)%nat with (S i + k)%nat by lia. auto.
Qed.

(** On an error the field comes back as it was, whatever its type. *)
Lemma setFieldValue_error_keeps T field value fieldName field' err :
  setFieldValue T field value fieldName = (field', Some err) → field' = field.
Proof.
  destruct T as [k | | elem]; simpl.
  - destruct k; simpl;
      repeat match goal with
             | |- context [match ?r with Ok _ => _ | Err _ => _ end] => destruct r
             end; congruence.
  - destruct (ParseDuration value); congruence.
  - unfold setSliceValueWith. case_decide; [congruence|].
    destruct (setElems _ _ _ _ _); congruence.
Qed.

(** Whether a conversion fails does not depend on what the field held. *)
Lemma setFieldValue_error_indep T f1 f2 value fieldName :
  (setFieldValue T f1 value fieldName).2 = (setFieldValue T f2 value fieldName).2.
Proof.
  destruct T as [k | | elem]; simpl.
  - destruct k; simpl;
      repeat match goal with
             | |- context [match ?r with Ok _ => _ | Err _ => _ end] => destruct r
             end; reflexivity.
  - destruct (ParseDuration value); reflexivity.
  - unfold setSliceValueWith. case_decide; [reflexivity|].
    destruct (setElems _ _ _ _ _); reflexivity.
Qed.

Lemma replicate_zero_lookup (z : Value) n j : (0 ≤ j < 0 + n)%nat → replicate n z !! j = Some z.
Proof. intros Hj. apply lookup_replicate_2. lia. Qed.

(** [setSliceValue] on a non-empty text: all the parts convert and the field
    becomes the slice of the converted elements, or one part fails and the
    field is as before. *)
Lemma setSliceValue_spec elem field value fieldName :
  value ≠ EmptyString →
  let parts := Strings.Split value "," in
  (∃ elems, setFieldValue (SliceOf elem) field value fieldName = (VSlice elems, None)
      ∧ length elems = length parts
      ∧ ∀ k part, parts !! k = Some part →
          ∃ e', setFieldValue elem (zero elem) (Strings.TrimSpace part)
                  (elemName fieldName k) = (e', None)
                ∧ elems !! k = Some e')
  ∨ (∃ err k part e0, setFieldValue (SliceOf elem) field value fieldName = (field, Some err)
      ∧ parts !! k = Some part
      ∧ setFieldValue elem (zero elem) (Strings.TrimSpace part)
          (elemName fieldName k) = (e0, Some err)).
Proof.
  intros Hne parts. simpl. unfold setSliceValueWith.
  case_decide; [contradiction|]. fold parts.
  pose proof (setElems_spec (setFieldValue elem) fieldName (zero elem) parts 0
                (replicate (length parts) (zero elem))
                (replicate_zero_lookup _ _)) as Hspec.
  destruct (setElems _ _ _ _ _) as [slice'|err].
  - left. exists slice'. destruct Hspec as (Hlen & _ & Hall).
    rewrite length_replicate in Hlen. auto.
  - right. destruct Hspec as (k & part & e0 & Hk & He). exists err, k, part, e0. auto.
Qed.

(** C5. Coercing a raw string into a sequence field is atomic: when the
    conversion reports an error the field holds what it held before; on a
    non-empty text, the failure of any one element makes the whole
    conversion fail; and a conversion that succeeds on a non-empty text
    assigns a slice with one converted element per part, never fewer. *)
Theorem C5_sequence_coercion_atomic elem field value fieldName :
  (∀ field' err,
      setFieldValue (SliceOf elem) field value fieldName = (field', Some err) →
      field' = field)
  ∧ (∀ k part old,
      value ≠ EmptyString →
      Strings.Split value "," !! k = Some part →
      (setFieldValue elem old (Strings.TrimSpace part) (elemName fieldName k)).2 ≠ None →
      ∃ err, setFieldValue (SliceOf elem) field value fieldName = (field, Some err))
  ∧ (∀ field',
      value ≠ EmptyString →
      setFieldValue (SliceOf elem) field value fieldName = (field', None) →
      ∃ elems, field' = VSlice elems
        ∧ length elems = length (Strings.Split value ",")
        ∧ ∀ k part, Strings.Split value "," !! k = Some part →
            ∃ e', setFieldValue elem (zero elem) (Strings.TrimSpace part)
                    (elemName fieldName k) = (e', None)
                  ∧ elems !! k = Some e').
Proof.
  split; [|split].
  - intros field' err. apply setFieldValue_error_keeps.
  - intros k part old Hne Hk Hfail.
    destruct (setSliceValue_spec elem field value fieldName Hne)
      as [(elems & _ & _ & Hall) | (err & _ & _ & _ & Herr & _)].
    + destruct (Hall k part Hk) as (e' & He & _).
      rewrite (setFieldValue_error_indep elem old (zero elem)), He in Hfail.
      contradiction.
    + exists err. exact Herr.
  - intros field' Hne Hok.
    destruct (setSliceValue_spec elem field value fieldName Hne)
      as [(elems & Heq & Hlen & Hall) | (err & _ & _ & _ & Herr & _)].
    + rewrite Heq in Hok. injection Hok as <-. exists elems. auto.
    + rewrite Herr in Hok. discriminate.
Qed.

(** C6 (amended). The text 1,2,3 coerced into a sequence of int gives the
    sequence 1, 2, 3 whatever the field held (the parts are split on the
    comma, trimmed and converted one by one). The empty text is no error
    and assigns nothing, for every element type: the field keeps the
    content it had, and so it is the empty sequence afterwards exactly when
    it was empty before, as a field at its zero value is, and as the fresh
    elements of a sequence of sequences are. *)
Theorem C6_sequence_roundtrip field fieldName :
  setSliceValue (Named Reflect.Int) field "1,2,3" fieldName
    = (VSlice [VInt 1; VInt 2; VInt 3], None)
  ∧ setFieldValue (SliceOf (Named Reflect.Int)) field "1,2,3" fieldName
    = (VSlice [VInt 1; VInt 2; VInt 3], None)
  ∧ setFieldValue (SliceOf (Named Reflect.Int)) field " 1 , 2 ,3 " fieldName
    = (VSlice [VInt 1; VInt 2; VInt 3], None)
  ∧ (∀ elem, setSliceValue elem field EmptyString fieldName = (field, None)
             ∧ setFieldValue (SliceOf elem) field EmptyString fieldName = (field, None))
  ∧ (∀ elem, len (setFieldValue (SliceOf elem) field EmptyString fieldName).1 = 0%nat
             ↔ len field = 0%nat)
  ∧ (∀ elem, setSliceValue elem (zero (SliceOf elem)) EmptyString fieldName
             = (VNilSlice, None)
             ∧ len VNilSlice = 0%nat)
  ∧ setFieldValue (SliceOf (SliceOf (Named Reflect.Int))) field "1,,3" fieldName
    = (VSlice [VSlice [VInt 1]; VNilSlice; VSlice [VInt 3]], None).
Proof.
  assert (Hempty : ∀ elem,
            setFieldValue (SliceOf elem) field EmptyString fieldName = (field, None)).
  { intros elem. destruct elem; reflexivity. }
  split; [reflexivity|]. split; [reflexivity|]. split; [reflexivity|].
  split; [intros elem; split; [reflexivity | apply Hempty]|].
  split; [intros elem; rewrite Hempty; reflexivity|].
  split; [intros elem; split; reflexivity | reflexivity].
Qed.


(** ** Environment names *)

Lemma withPrefixes_eq l prefix name :
  withPrefixes l prefix name = envPrefix l +:+ prefix +:+ name.
Proof.
  unfold withPrefixes.
  destruct (decide (prefix ≠ EmptyString)) as [|Hp];
    destruct (decide (envPrefix l ≠ EmptyString)) as [|He]; try reflexivity.
  - apply dec_stable in He. rewrite He. reflexivity.
  - apply dec_stable in Hp. rewrite Hp. reflexivity.
  - apply dec_stable in Hp. apply dec_stable in He. rewrite Hp, He. reflexivity.
Qed.

Lemma firstSetName_spec l env prefix names :
  let full := λ raw, envPrefix l +:+ prefix +:+ Strings.TrimSpace raw in
  match firstSetName l env prefix names with
  | Some name =>
      ∃ i, map full names !! i = Some name
        ∧ Getenv env name ≠ EmptyString
        ∧ ∀ j name', (j < i)%nat → map full names !! j = Some name' →
            Getenv env name' = EmptyString
  | None => ∀ name, name ∈ map full names → Getenv env name = EmptyString
  end.
Proof.
  intros full. induction names as [|raw rest IH]; simpl.
  - intros name Hin. inversion Hin.
  - rewrite withPrefixes_eq. fold (full raw).
    destruct (decide (Getenv env (full raw) ≠ EmptyString)) as [Hset|Hunset].
    + exists 0%nat. repeat split; auto. intros j name' Hj. lia.
    + apply dec_stable in Hunset.
      destruct (firstSetName l env prefix rest) as [name|].
      * destruct IH as (i & Hi & Hne & Hfirst). exists (S i). repeat split; auto.
        intros [|j] name' Hj Hl; simpl in Hl.
        { injection Hl as <-. exact Hunset. }
        { apply (Hfirst j); [lia | exact Hl]. }
      * intros name Hin. apply elem_of_cons in Hin as [-> | Hin]; auto.
Qed.

Lemma Getenv_empty_key env : Getenv env EmptyString = EmptyString.
Proof. reflexivity. Qed.

Lemma resolve_env_tier l env sf prefix :
  flagTierEmpty l sf →
  Getenv env (getEnvKey l env sf prefix) ≠ EmptyString →
  resolve l env sf prefix = (Getenv env (getEnvKey l env sf prefix), true).
Proof.
  intros Hflag Henv. unfold resolve.
  assert (Hkey : getEnvKey l env sf prefix ≠ EmptyString).
  { intros Heq. apply Henv. rewrite Heq. reflexivity. }
  assert (Hfl : (if decide (getFlagName sf ≠ EmptyString)
                 then if decide (getFlagValue l (getFlagName sf) ≠ EmptyString)
                      then (getFlagValue l (getFlagName sf), true)
                      else (EmptyString, false)
                 else (EmptyString, false)) = (EmptyString, false)).
  { destruct Hflag as [Hn | Hv].
    - rewrite Hn. reflexivity.
    - rewrite Hv. case_decide; reflexivity. }
  rewrite Hfl. simpl.
  rewrite (bool_decide_eq_true_2 _ Hkey).
  rewrite (decide_True _ _ Henv). reflexivity.
Qed.

Lemma resolve_default_tier l env sf prefix :
  flagTierEmpty l sf →
  Getenv env (getEnvKey l env sf prefix) = EmptyString →
  resolve l env sf prefix
  = (Tag_Get (Tag sf) "default",
     bool_decide (Tag_Get (Tag sf) "default" ≠ EmptyString)).
Proof.
  intros Hflag Henv. unfold resolve.
  assert (Hfl : (if decide (getFlagName sf ≠ EmptyString)
                 then if decide (getFlagValue l (getFlagName sf) ≠ EmptyString)
                      then (getFlagValue l (getFlagName sf), true)
                      else (EmptyString, false)
                 else (EmptyString, false)) = (EmptyString, false)).
  { destruct Hflag as [Hn | Hv].
    - rewrite Hn. reflexivity.
    - rewrite Hv. case_decide; reflexivity. }
  rewrite Hfl. simpl. rewrite Henv.
  destruct (bool_decide (getEnvKey l env sf prefix ≠ EmptyString)); simpl;
    destruct (bool_decide_reflect (Tag_Get (Tag sf) "default" ≠ EmptyString)) as [|Hd];
    try reflexivity;
    apply dec_stable in Hd; rewrite Hd; reflexivity.
Qed.

Lemma Split_cons s sep : ∃ x xs, Strings.Split s sep = x :: xs.
Proof.
  induction s as [|c s IH]; simpl; [eauto|].
  destruct (Ascii.eqb c sep); [eauto|].
  destruct IH as (x & xs & ->). eauto.
Qed.

(** ** Env files *)

Lemma LookupEnv_Some env key v : LookupEnv env key = Some v → key ≠ EmptyString ∧ env !! key = Some v.
Proof. unfold LookupEnv. case_decide; [discriminate | auto]. Qed.

Lemma LookupEnv_Setenv_other env k v key :
  k ≠ key → LookupEnv (Setenv env k v) key = LookupEnv env key.
Proof.
  intros Hne. unfold Setenv, LookupEnv.
  destruct (Setenv_ok k v); [|reflexivity].
  case_decide; [reflexivity|]. apply lookup_insert_ne. exact Hne.
Qed.

Lemma LookupEnv_Setenv_same env key v :
  Setenv_ok key v = true → LookupEnv (Setenv env key v) key = Some v.
Proof.
  intros Hok. unfold Setenv, LookupEnv. rewrite Hok.
  unfold Setenv_ok in Hok.
  case_decide as Hk.
  - subst key. discriminate.
  - apply lookup_insert_eq.
Qed.

(** Scanning never changes a key that is already set. *)
Lemma scanLines_keeps lines : ∀ env lineNum key v,
  LookupEnv env key = Some v →
  LookupEnv (scanLines env lines lineNum).1 key = Some v.
Proof.
  induction lines as [|text rest IH]; intros env lineNum key v Hset; simpl; [exact Hset|].
  destruct (parseLine text) as [|line|k val]; simpl; auto.
  destruct (LookupEnv env k) eqn:Hk; auto.
  apply IH. rewrite LookupEnv_Setenv_other; [exact Hset|].
  intros ->. congruence.
Qed.

Lemma loadEnvFile_keeps w filename key v :
  LookupEnv (environ w) key = Some v →
  LookupEnv (environ (loadEnvFile w filename).1) key = Some v.
Proof.
  intros Hset. unfold loadEnvFile.
  destruct (files w !! filename) as [lines|]; [|exact Hset].
  pose proof (scanLines_keeps lines (environ w) 0%nat key v Hset) as Hk.
  destruct (scanLines (environ w) lines 0) as [env err]. exact Hk.
Qed.

Lemma loadEach_keeps toLoad : ∀ w key v,
  LookupEnv (environ w) key = Some v →
  LookupEnv (environ (loadEach w toLoad).1) key = Some v.
Proof.
  induction toLoad as [|file rest IH]; intros w key v Hset; simpl; [exact Hset|].
  pose proof (loadEnvFile_keeps w file key v Hset) as Hk.
  destruct (loadEnvFile w file) as [w' [err|]]; simpl in *; auto.
Qed.

(** A key that is not set gets the value the lines give it. *)
Lemma scanLines_adopts key value lines :
  defines key value lines →
  Setenv_ok key value = true →
  ∀ env lineNum, LookupEnv env key = None →
    LookupEnv (scanLines env lines lineNum).1 key = Some value.
Proof.
  intros Hdef Hok. induction Hdef as [text rest Hp | text rest Hp _ IH | text rest k v Hp Hne _ IH];
    intros env lineNum Hunset; simpl; rewrite Hp.
  - rewrite Hunset. apply scanLines_keeps. apply LookupEnv_Setenv_same. exact Hok.
  - apply IH. exact Hunset.
  - destruct (LookupEnv env k); apply IH; [exact Hunset|].
    rewrite LookupEnv_Setenv_other by exact Hne. exact Hunset.
Qed.

(** C7. Loading .env files writes a key into the environment only when the
    key is not set there: a key that is set keeps its value whatever the
    files hold, in whatever order they are loaded and whether or not the
    load fails; a key that is not set takes the value a file gives it. *)
Theorem C7_env_file_never_overrides w key :
  (∀ l v,
      LookupEnv (environ w) key = Some v →
      LookupEnv (environ (loadEnvFiles l w).1) key = Some v)
  ∧ (∀ filename v,
      LookupEnv (environ w) key = Some v →
      LookupEnv (environ (loadEnvFile w filename).1) key = Some v)
  ∧ (∀ filename lines value,
      LookupEnv (environ w) key = None →
      files w !! filename = Some lines →
      defines key value lines →
      Setenv_ok key value = true →
      LookupEnv (environ (loadEnvFile w filename).1) key = Some value).
Proof.
  split; [|split].
  - intros l v Hset. unfold loadEnvFiles. apply loadEach_keeps. exact Hset.
  - intros filename v Hset. apply loadEnvFile_keeps. exact Hset.
  - intros filename lines value Hunset Hfile Hdef Hok.
    unfold loadEnvFile. rewrite Hfile.
    pose proof (scanLines_adopts key value lines Hdef Hok (environ w) 0%nat Hunset) as Hk.
    destruct (scanLines (environ w) lines 0) as [env err]. exact Hk.
Qed.

Lemma loadEnvFile_files w filename : files (loadEnvFile w filename).1 = files w.
Proof.
  unfold loadEnvFile. destruct (files w !! filename) as [lines|]; [|reflexivity].
  destruct (scanLines (environ w) lines 0) as [env err]. reflexivity.
Qed.

(** What loading a file does to the environment depends on the environment
    and on that file alone. *)
Lemma loadEnvFile_agree w1 w2 filename :
  environ w1 = environ w2 →
  files w1 !! filename = files w2 !! filename →
  environ (loadEnvFile w1 filename).1 = environ (loadEnvFile w2 filename).1
  ∧ (loadEnvFile w1 filename).2 = (loadEnvFile w2 filename).2.
Proof.
  intros Henv Hfile. unfold loadEnvFile. rewrite Hfile, Henv.
  destruct (files w2 !! filename) as [lines|]; [|split; [exact Henv | reflexivity]].
  destruct (scanLines (environ w2) lines 0) as [env err]. split; reflexivity.
Qed.

Lemma loadEach_agree toLoad : ∀ w1 w2,
  environ w1 = environ w2 →
  (∀ file, file ∈ toLoad → files w1 !! file = files w2 !! file) →
  environ (loadEach w1 toLoad).1 = environ (loadEach w2 toLoad).1
  ∧ (loadEach w1 toLoad).2 = (loadEach w2 toLoad).2.
Proof.
  induction toLoad as [|file rest IH]; intros w1 w2 Henv Hfiles; simpl; [auto|].
  destruct (loadEnvFile_agree w1 w2 file Henv (Hfiles file (list_elem_of_here _ _)))
    as [Henv' Herr].
  pose proof (loadEnvFile_files w1 file) as Hf1.
  pose proof (loadEnvFile_files w2 file) as Hf2.
  destruct (loadEnvFile w1 file) as [w1' e1], (loadEnvFile w2 file) as [w2' e2].
  simpl in *. subst e2. destruct e1 as [err|]; [auto|].
  apply IH; [exact Henv'|].
  intros f Hin. rewrite Hf1, Hf2. apply Hfiles. apply list_elem_of_further. exact Hin.
Qed.

(** C9 (amended). The explicit list of env files replaces an earlier
    explicit list, not the auto-discovery: a loader built with the explicit
    list alone still has auto-discovery on and loads the listed files
    followed by the conventional files that exist; only with auto-discovery
    switched off are the listed files the only ones loaded, and then no
    other file on disk has any effect on the load. *)
Theorem C9_explicit_env_files CommandLine listed w :
  filesToLoad (NewLoader CommandLine [WithEnvFiles listed]) w
    = listed ++ filter (λ file, is_Some (files w !! file)) commonEnvFiles
  ∧ filesToLoad (NewLoader CommandLine [WithEnvFiles listed; WithAutoLoadEnv false]) w
    = listed
  ∧ filesToLoad (NewLoader CommandLine [WithAutoLoadEnv false; WithEnvFiles listed]) w
    = listed
  ∧ (∀ l, filesToLoad (WithEnvFiles listed l) w
          = if autoLoadEnv l
            then listed ++ filter (λ file, is_Some (files w !! file)) commonEnvFiles
            else listed)
  ∧ (∀ l, loadEnvFiles l w = loadEach w (filesToLoad l w))
  ∧ (∀ w',
        environ w' = environ w →
        (∀ file, file ∈ listed → files w' !! file = files w !! file) →
        environ (loadEnvFiles
                   (NewLoader CommandLine [WithEnvFiles listed; WithAutoLoadEnv false]) w').1
        = environ (loadEnvFiles
                     (NewLoader CommandLine [WithEnvFiles listed; WithAutoLoadEnv false]) w).1
        ∧ (loadEnvFiles
             (NewLoader CommandLine [WithEnvFiles listed; WithAutoLoadEnv false]) w').2
          = (loadEnvFiles
               (NewLoader CommandLine [WithEnvFiles listed; WithAutoLoadEnv false]) w).2).
Proof.
  repeat (split; [reflexivity|]).
  intros w' Henv Hfiles. apply (loadEach_agree listed w' w Henv Hfiles).
Qed.

(** ** The walk *)

Lemma Fprint_all_nil w : Fprint_all w [] = w.
Proof. destruct w. unfold Fprint_all. simpl. rewrite app_nil_r. reflexivity. Qed.

Lemma Fprint_all_app w a b : Fprint_all (Fprint_all w a) b = Fprint_all w (a ++ b).
Proof. unfold Fprint_all. simpl. rewrite app_assoc. reflexivity. Qed.

Lemma Fprint_stderr_all w text : Fprint_stderr w text = Fprint_all w [text].
Proof. reflexivity. Qed.

(** Under continue-on-error the walker returns nil, assigns every settable
    leaf and writes one warning per failing leaf, in order. *)
Lemma processStruct_continue l v : ∀ w prefix,
  failOnError l = false →
  processStruct l w v prefix =
    ((walk l (environ w) v prefix).1,
     Fprint_all w (warning <$> (walk l (environ w) v prefix).2), None).
Proof.
  induction v as [|sf T field rest IHrest | sf sub IHsub rest IHrest];
    intros w prefix Hpol; simpl.
  - rewrite Fprint_all_nil. reflexivity.
  - destruct (Exported sf); simpl.
    + destruct (processField l (environ w) T field sf prefix) as [field' [err|]].
      * rewrite Hpol. rewrite IHrest by exact Hpol. simpl.
        destruct (walk l (environ w) rest prefix) as [rest' errs]. simpl.
        rewrite Fprint_stderr_all, Fprint_all_app. reflexivity.
      * rewrite IHrest by exact Hpol.
        destruct (walk l (environ w) rest prefix) as [rest' errs]. reflexivity.
    + rewrite IHrest by exact Hpol.
      destruct (walk l (environ w) rest prefix) as [rest' errs]. reflexivity.
  - destruct (Exported sf); simpl.
    + rewrite IHsub by exact Hpol. rewrite IHrest by exact Hpol. simpl.
      destruct (walk l (environ w) rest prefix) as [rest' errs].
      destruct (walk l (environ w) sub (getNestedPrefix sf prefix)) as [sub' errs1].
      simpl. rewrite Fprint_all_app, fmap_app. reflexivity.
    + rewrite IHrest by exact Hpol.
      destruct (walk l (environ w) rest prefix) as [rest' errs]. reflexivity.
Qed.

(** Under fail-on-error the walker returns the first error of the walk and
    writes nothing. *)
Lemma processStruct_failfast l v : ∀ w prefix,
  failOnError l = true →
  ∃ v', processStruct l w v prefix = (v', w, head (walk l (environ w) v prefix).2).
Proof.
  induction v as [|sf T field rest IHrest | sf sub IHsub rest IHrest];
    intros w prefix Hpol; simpl.
  - eauto.
  - destruct (IHrest w prefix Hpol) as [rest' Hrest]. rewrite Hrest.
    destruct (walk l (environ w) rest prefix) as [rest'' errs].
    destruct (Exported sf); simpl; [|eauto].
    destruct (processField l (environ w) T field sf prefix) as [field' [err|]].
    + rewrite Hpol. eauto.
    + eauto.
  - destruct (IHrest w prefix Hpol) as [rest' Hrest].
    destruct (IHsub w (getNestedPrefix sf prefix) Hpol) as [sub' Hsub].
    destruct (walk l (environ w) rest prefix) as [rest'' errs].
    destruct (walk l (environ w) sub (getNestedPrefix sf prefix)) as [sub'' errs1].
    destruct (Exported sf); simpl.
    + rewrite Hsub. simpl in *. destruct errs1 as [|e1 errs1]; simpl.
      * rewrite Hrest. eauto.
      * eauto.
    + rewrite Hrest. eauto.
Qed.

(** Every leaf the walker reaches is handed to [processField]: its content
    afterwards is what [processField] leaves, and its error, if any, is
    among the errors of the walk. *)
Lemma walk_leafAt l env sf T field q : ∀ prefix v,
  leafAt sf T field q prefix v →
  leafAt sf T (processField l env T field sf q).1 q prefix (walk l env v prefix).1
  ∧ ∀ err, (processField l env T field sf q).2 = Some err →
           err ∈ (walk l env v prefix).2.
Proof.
  intros prefix v Hleaf.
  induction Hleaf as [prefix rest Hexp -> | prefix sf' T' field' rest _ IH
                     | prefix sf' sub rest _ IH | prefix sf' sub rest Hexp _ IH]; simpl.
  - destruct (walk l env rest prefix) as [rest' errs]. rewrite Hexp. simpl.
    destruct (processField l env T field sf prefix) as [field' e]. simpl. split.
    + apply leafAt_here; auto.
    + intros err ->. apply list_elem_of_here.
  - destruct IH as [IH1 IH2].
    destruct (walk l env rest prefix) as [rest' errs].
    destruct (Exported sf'); simpl.
    + destruct (processField l env T' field' sf' prefix) as [f' e]. simpl. split.
      * apply leafAt_after_field. exact IH1.
      * intros err Herr. destruct e; [apply list_elem_of_further|]; auto.
    + split; [apply leafAt_after_field; exact IH1 | exact IH2].
  - destruct IH as [IH1 IH2].
    destruct (walk l env rest prefix) as [rest' errs].
    destruct (Exported sf'); simpl.
    + destruct (walk l env sub (getNestedPrefix sf' prefix)) as [sub' errs1]. simpl. split.
      * apply leafAt_after_nested. exact IH1.
      * intros err Herr. apply elem_of_app. right. auto.
    + split; [apply leafAt_after_nested; exact IH1 | exact IH2].
  - destruct IH as [IH1 IH2].
    destruct (walk l env rest prefix) as [rest' errs].
    rewrite Hexp. simpl.
    destruct (walk l env sub (getNestedPrefix sf' prefix)) as [sub' errs1]. simpl. split.
    + apply leafAt_inside; auto.
    + intros err Herr. apply elem_of_app. left. auto.
Qed.

(** ** Load *)

Lemma with_flagSet_id l : with_flagSet l (flagSet l) = l.
Proof. destruct l. reflexivity. Qed.

Lemma registerFieldFlag_loader l T sf prefix :
  ∃ f, (registerFieldFlag l T sf prefix).1 = with_flagSet l f.
Proof.
  unfold registerFieldFlag.
  case_decide; [exists (flagSet l); symmetry; apply with_flagSet_id|].
  destruct (FlagSet_Lookup (flagSet l) (getFlagName sf));
    [exists (flagSet l); symmetry; apply with_flagSet_id|].
  destruct T as [k | | elem]; [destruct k| |];
    try (exists (flagSet l); symmetry; apply with_flagSet_id);
    match goal with
    | |- context [Var ?f ?n ?v] => destruct (Var f n v) as [f' o']; exists f'; reflexivity
    end.
Qed.

Lemma registerFlags_loader v : ∀ l prefix,
  ∃ f, (registerFlags l v prefix).1 = with_flagSet l f.
Proof.
  induction v as [|sf T field rest IHrest | sf sub IHsub rest IHrest];
    intros l prefix; simpl.
  - exists (flagSet l). symmetry. apply with_flagSet_id.
  - destruct (Exported sf); simpl; [|apply IHrest].
    destruct (registerFieldFlag_loader l T sf prefix) as [f Hf].
    destruct (registerFieldFlag l T sf prefix) as [l1 o]. simpl in Hf. subst l1.
    destruct o; try (exists f; reflexivity).
    destruct (IHrest (with_flagSet l f) prefix) as [f' Hf']. exists f'. exact Hf'.
  - destruct (Exported sf); simpl; [|apply IHrest].
    destruct (IHsub l (getNestedPrefix sf prefix)) as [f Hf].
    destruct (registerFlags l sub (getNestedPrefix sf prefix)) as [l1 o].
    simpl in Hf. subst l1.
    destruct o; try (exists f; reflexivity).
    destruct (IHrest (with_flagSet l f) prefix) as [f' Hf']. exists f'. exact Hf'.
Qed.

(** [Load] on a pointer to a struct either ends before the walk, leaving
    the struct alone, or returns what the walk returns. *)
Lemma Load_inv l w v l' w' c' o :
  Load l w (PtrToStruct v) = (l', w', c', o) →
  (stoppedBeforeWalk o ∧ c' = PtrToStruct v)
  ∨ (∃ w2 v' e,
        processStruct l' w2 v EmptyString = (v', w', e)
        ∧ c' = PtrToStruct v'
        ∧ o = match e with Some err => Error err | None => Nil end
        ∧ failOnError l' = failOnError l).
Proof.
  unfold Load, stoppedBeforeWalk.
  destruct (loadEnvFiles l w) as [w1 err].
  destruct (registerFlags_loader v l EmptyString) as [f Hf].
  destruct (registerFlags l v EmptyString) as [l1 o1]. simpl in Hf. subst l1.
  set (w2 := match err with
             | Some e => Fprint_stderr w1 _
             | None => w1
             end).
  assert (Hwalk :
    match o1 with
    | Error e => (with_flagSet l f, w2, PtrToStruct v,
                  Error ("failed to register flags: " +:+ e))
    | Nil =>
        match (if isCommandLine (flagSet (with_flagSet l f))
                  && negb (parsed (flagSet (with_flagSet l f)))
               then Parse (flagSet (with_flagSet l f))
               else Some (flagSet (with_flagSet l f))) with
        | None => (with_flagSet l f, w2, PtrToStruct v, Exit)
        | Some f' =>
            let '(v', w3, e) :=
              processStruct (with_flagSet (with_flagSet l f) f') w2 v EmptyString in
            (with_flagSet (with_flagSet l f) f', w3, PtrToStruct v',
             match e with Some e => Error e | None => Nil end)
        end
    | stop => (with_flagSet l f, w2, PtrToStruct v, stop)
    end = (l', w', c', o) →
    (o = Exit ∨ (∃ msg, o = Panic msg)
     ∨ (∃ e, o = Error ("failed to load .env files: " +:+ e))
     ∨ (∃ e, o = Error ("failed to register flags: " +:+ e))) ∧ c' = PtrToStruct v
    ∨ (∃ w2 v' e,
          processStruct l' w2 v EmptyString = (v', w', e)
          ∧ c' = PtrToStruct v'
          ∧ o = match e with Some err => Error err | None => Nil end
          ∧ failOnError l' = failOnError l)).
  { destruct o1 as [|e|msg|].
    - match goal with
      | |- context [if ?c then Parse ?g else Some ?h] =>
          destruct (if c then Parse g else Some h) as [f'|]
      end.
      + destruct (processStruct _ w2 v EmptyString) as [[v' w3] e] eqn:Hp.
        intros [= <- <- <- <-]. right. exists w2, v', e. auto.
      + intros [= <- <- <- <-]. left. auto.
    - intros [= <- <- <- <-]. left. split; [|reflexivity]. right. right. right. eauto.
    - intros [= <- <- <- <-]. left. split; [|reflexivity]. right. left. eauto.
    - intros [= <- <- <- <-]. left. auto. }
  destruct err as [e|]; [destruct (failOnError l) eqn:Hpol|]; try exact Hwalk.
  intros [= <- <- <- <-]. left. split; [|reflexivity]. right. right. left. eauto.
Qed.

Lemma processStruct_environ l v : ∀ w prefix,
  environ (processStruct l w v prefix).1.2 = environ w.
Proof.
  induction v as [|sf T field rest IHrest | sf sub IHsub rest IHrest];
    intros w prefix; simpl; [reflexivity| |].
  - destruct (Exported sf); simpl.
    + destruct (processField l (environ w) T field sf prefix) as [field' [err|]].
      * destruct (failOnError l); [reflexivity|].
        specialize (IHrest (Fprint_stderr w ("config warning: " +:+ err +:+ nl)) prefix).
        destruct (processStruct l _ rest prefix) as [[rest' w'] e]. exact IHrest.
      * specialize (IHrest w prefix).
        destruct (processStruct l w rest prefix) as [[rest' w'] e]. exact IHrest.
    + specialize (IHrest w prefix).
      destruct (processStruct l w rest prefix) as [[rest' w'] e]. exact IHrest.
  - destruct (Exported sf); simpl.
    + specialize (IHsub w (getNestedPrefix sf prefix)).
      destruct (processStruct l w sub (getNestedPrefix sf prefix)) as [[sub' w1] [err|]];
        [exact IHsub|].
      specialize (IHrest w1 prefix).
      destruct (processStruct l w1 rest prefix) as [[rest' w'] e].
      simpl in *. congruence.
    + specialize (IHrest w prefix).
      destruct (processStruct l w rest prefix) as [[rest' w'] e]. exact IHrest.
Qed.

Lemma stoppedBeforeWalk_not_Nil : ¬ stoppedBeforeWalk Nil.
Proof. intros [H | [[m H] | [[e H] | [e H]]]]; discriminate. Qed.

Lemma processField_required_missing l env T field sf q x :
  Tag_Get (Tag sf) "required" = "true" →
  resolve l env sf q = (x, false) →
  processField l env T field sf q
    = (field, Some ("required field " +:+ Name sf +:+ " not set")).
Proof.
  intros Hreq Hres. unfold processField. rewrite Hres, Hreq. reflexivity.
Qed.

(** Under continue-on-error a [Load] that gets as far as the walk returns
    nil, whatever the fields report. *)
Lemma Load_continue_returns_nil l w v l' w' c' o :
  failOnError l = false →
  Load l w (PtrToStruct v) = (l', w', c', o) →
  o = Nil ∨ stoppedBeforeWalk o.
Proof.
  intros Hpol HLoad.
  destruct (Load_inv l w v l' w' c' o HLoad)
    as [[Hstop _] | (w2 & v' & e & Hwalk & _ & Ho & Hpol')]; [right; exact Hstop|].
  left. rewrite <- Hpol' in Hpol.
  rewrite (processStruct_continue l' v w2 EmptyString Hpol) in Hwalk.
  injection Hwalk as _ _ <-. exact Ho.
Qed.

(** C2 (amended). For a required leaf the walker reaches and whose
    resolution chain (flag, environment, default) yields nothing,
    [processField] reports the error required field NAME not set, where
    NAME is the bare identifier of the field, without any prefix, and
    leaves the field as it is. Under fail-on-error [Load] does not return
    nil; it returns that error when it is the first of the walk, unless it
    ended before the walk. Under continue-on-error [Load] returns nil unless
    it ended before the walk, and whenever it returns nil the diagnostic
    stream holds the warning line with the same message and the field is
    unchanged in the struct. *)
Theorem C2_required_field_missing l w v l' w' c' o sf T field q x :
  Load l w (PtrToStruct v) = (l', w', c', o) →
  leafAt sf T field q EmptyString v →
  Tag_Get (Tag sf) "required" = "true" →
  resolve l' (environ w') sf q = (x, false) →
  processField l' (environ w') T field sf q
    = (field, Some ("required field " +:+ Name sf +:+ " not set"))
  ∧ (failOnError l = true →
       o ≠ Nil
       ∧ (head (walk l' (environ w') v EmptyString).2
            = Some ("required field " +:+ Name sf +:+ " not set") →
          o = Error ("required field " +:+ Name sf +:+ " not set")
          ∨ stoppedBeforeWalk o))
  ∧ (failOnError l = false →
       (o = Nil ∨ stoppedBeforeWalk o)
       ∧ (o = Nil →
          warning ("required field " +:+ Name sf +:+ " not set") ∈ stderr w'
          ∧ ∃ v', c' = PtrToStruct v' ∧ leafAt sf T field q EmptyString v')).
Proof.
  intros HLoad Hleaf Hreq Hres.
  pose proof (processField_required_missing l' (environ w') T field sf q x Hreq Hres)
    as Hfield.
  destruct (walk_leafAt l' (environ w') sf T field q EmptyString v Hleaf)
    as [Hkept Herrs].
  rewrite Hfield in Hkept, Herrs. simpl in Hkept.
  specialize (Herrs _ eq_refl).
  split; [exact Hfield|].
  destruct (Load_inv l w v l' w' c' o HLoad)
    as [[Hstop Hc] | (w2 & v' & e & Hwalk & Hc & Ho & Hpol)].
  - split.
    + intros _. split.
      * intros ->. exact (stoppedBeforeWalk_not_Nil Hstop).
      * intros _. right. exact Hstop.
    + intros _. split; [right; exact Hstop|].
      intros ->. destruct (stoppedBeforeWalk_not_Nil Hstop).
  - pose proof (processStruct_environ l' v w2 EmptyString) as Henv.
    rewrite Hwalk in Henv. simpl in Henv. split.
    + intros Hfast. rewrite <- Hpol in Hfast.
      destruct (processStruct_failfast l' v w2 EmptyString Hfast) as [v'' Hff].
      rewrite Hwalk in Hff. injection Hff as _ Hw He.
      rewrite <- Henv in He. subst e o. split.
      * destruct (walk l' (environ w') v EmptyString).2 as [|e0 errs];
          [inversion Herrs | discriminate].
      * intros ->. left. reflexivity.
    + intros Hcont.
      split; [exact (Load_continue_returns_nil l w v l' w' c' o Hcont HLoad)|].
      intros _. rewrite <- Hpol in Hcont.
      rewrite (processStruct_continue l' v w2 EmptyString Hcont) in Hwalk.
      injection Hwalk as <- <- <-. simpl in *. split.
      * apply elem_of_app. right. apply list_elem_of_fmap. eauto.
      * exists (walk l' (environ w2) v EmptyString).1. auto.
Qed.

(** ** Flags *)

Lemma Var_defines f name v f' :
  Var f name v = (f', Nil) → FlagSet_Lookup f' name = Some v.
Proof.
  unfold Var. destruct (Strings.HasPrefix name "-"); [discriminate|].
  destruct (Strings.ContainsChar name "="); [discriminate|].
  intros [= <-]. apply lookup_insert_eq.
Qed.

Lemma registerFieldFlag_skips l T sf prefix :
  is_Some (FlagSet_Lookup (flagSet l) (getFlagName sf)) →
  registerFieldFlag l T sf prefix = (l, Nil).
Proof.
  intros [v Hv]. unfold registerFieldFlag. rewrite Hv.
  case_decide; reflexivity.
Qed.

Lemma registerFieldFlag_defines l T sf prefix l1 :
  getFlagName sf ≠ EmptyString →
  registerFieldFlag l T sf prefix = (l1, Nil) →
  is_Some (FlagSet_Lookup (flagSet l1) (getFlagName sf)).
Proof.
  intros Hname. unfold registerFieldFlag. rewrite (decide_False _ _ Hname).
  destruct (FlagSet_Lookup (flagSet l) (getFlagName sf)) as [v|] eqn:Hl.
  - intros [= <-]. rewrite Hl. eauto.
  - destruct T as [k | | elem]; [destruct k| |]; try discriminate;
      match goal with
      | |- context [Var ?f ?n ?v] =>
          destruct (Var f n v) as [f' o'] eqn:HVar; intros [= <- ->];
          simpl; rewrite (Var_defines _ _ _ _ HVar); eauto
      end.
Qed.

Lemma registerFieldFlag_envPrefix g l T sf prefix :
  registerFieldFlag (WithEnvPrefix g l) T sf prefix
  = (WithEnvPrefix g (registerFieldFlag l T sf prefix).1,
     (registerFieldFlag l T sf prefix).2).
Proof.
  unfold registerFieldFlag. simpl.
  case_decide; [reflexivity|].
  destruct (FlagSet_Lookup (flagSet l) (getFlagName sf)); [reflexivity|].
  destruct T as [k | | elem]; [destruct k| |]; try reflexivity;
    match goal with
    | |- context [Var ?f ?n ?v] => destruct (Var f n v) as [f' o']; reflexivity
    end.
Qed.

Lemma resolve_flag_tier l env sf q :
  getFlagName sf ≠ EmptyString →
  getFlagValue l (getFlagName sf) ≠ EmptyString →
  resolve l env sf q = (getFlagValue l (getFlagName sf), true).
Proof.
  intros Hname Hvalue. unfold resolve.
  rewrite (decide_True _ _ Hname), (decide_True _ _ Hvalue). reflexivity.
Qed.


(** C10. The name of a field's flag comes from the field alone: the first
    element of its flag tag, trimmed, or its identifier in kebab case;
    neither the accumulated prefix nor the global prefix enters the
    registration. A name that is already defined is skipped without an
    error, so of two fields with the same flag name the second adds
    nothing to the flag set, and whenever that flag has a non-empty value
    both fields resolve to it, whatever their prefixes. *)
Theorem C10_flag_names_shared l T1 T2 f1 f2 :
  (∀ p q, registerFieldFlag l T1 f1 p = registerFieldFlag l T1 f1 q)
  ∧ (∀ g p, registerFieldFlag (WithEnvPrefix g l) T1 f1 p
            = (WithEnvPrefix g (registerFieldFlag l T1 f1 p).1,
               (registerFieldFlag l T1 f1 p).2))
  ∧ getFlagName f1
    = (if decide (Tag_Get (Tag f1) "flag" ≠ EmptyString)
       then Strings.TrimSpace (hd EmptyString (Strings.Split (Tag_Get (Tag f1) "flag") ","))
       else toKebabCase (Name f1))
  ∧ (∀ p, is_Some (FlagSet_Lookup (flagSet l) (getFlagName f1)) →
          registerFieldFlag l T1 f1 p = (l, Nil))
  ∧ (∀ p1 p2 l1,
        getFlagName f1 ≠ EmptyString →
        getFlagName f2 = getFlagName f1 →
        registerFieldFlag l T1 f1 p1 = (l1, Nil) →
        registerFieldFlag l1 T2 f2 p2 = (l1, Nil))
  ∧ (∀ l' env q1 q2,
        getFlagName f1 ≠ EmptyString →
        getFlagName f2 = getFlagName f1 →
        getFlagValue l' (getFlagName f1) ≠ EmptyString →
        resolve l' env f1 q1 = (getFlagValue l' (getFlagName f1), true)
        ∧ resolve l' env f2 q2 = (getFlagValue l' (getFlagName f1), true)).
Proof.
  split; [reflexivity|]. split; [intros; apply registerFieldFlag_envPrefix|].
  split; [reflexivity|]. split; [intros; apply registerFieldFlag_skips; assumption|].
  split.
  - intros p1 p2 l1 Hname Hsame Hreg.
    apply registerFieldFlag_skips. rewrite Hsame.
    exact (registerFieldFlag_defines l T1 f1 p1 l1 Hname Hreg).
  - intros l' env q1 q2 Hname Hsame Hvalue. split.
    + apply resolve_flag_tier; assumption.
    + rewrite <- Hsame in *. apply resolve_flag_tier; assumption.
Qed.

Lemma Itoa_nonempty n : Strconv.Itoa n ≠ EmptyString.
Proof.
  unfold Strconv.Itoa. destruct (Z.to_int n) as [d|d]; simpl; [|discriminate].
  destruct d; discriminate.
Qed.

(** Once the loader has registered the flag of an integer or boolean
    field, the flag tier always supplies a value, the text of the flag's
    default, and neither the environment nor the default tier is looked at. *)
Lemma registered_flag_shadows_environment l T sf prefix l1 :
  T ∈ [Named Reflect.Int; Named Reflect.Int64; Named Reflect.Uint;
       Named Reflect.Uint64; Named Reflect.Bool] →
  getFlagName sf ≠ EmptyString →
  FlagSet_Lookup (flagSet l) (getFlagName sf) = None →
  registerFieldFlag l T sf prefix = (l1, Nil) →
  getFlagValue l1 (getFlagName sf) ≠ EmptyString
  ∧ ∀ env q, resolve l1 env sf q = (getFlagValue l1 (getFlagName sf), true).
Proof.
  intros HT Hname Hfresh Hreg.
  assert (Hvalue : getFlagValue l1 (getFlagName sf) ≠ EmptyString).
  { revert Hreg. unfold registerFieldFlag.
    rewrite (decide_False _ _ Hname), Hfresh.
    rewrite !elem_of_cons, elem_of_nil in HT.
    destruct HT as [-> | [-> | [-> | [-> | [-> | []]]]]];
      match goal with
      | |- context [Var ?f ?n ?v] =>
          destruct (Var f n v) as [f' o'] eqn:HVar; intros [= <- ->];
          unfold getFlagValue; simpl; rewrite (Var_defines _ _ _ _ HVar); simpl
      end; try apply Itoa_nonempty.
    match goal with |- Strconv.FormatBool ?b ≠ _ => destruct b; discriminate end. }
  split; [exact Hvalue|].
  intros env q. apply resolve_flag_tier; assumption.
Qed.

(** * Further properties of the code *)

(** ** Coercion keeps values in their type *)

Lemma zero_hasType T : hasType T (zero T).
Proof.
  destruct T as [k | | elem]; simpl; [destruct k; simpl; try lia; auto | lia | auto].
Qed.

Lemma SetInt_hasType k x :
  k ∈ signedKinds → hasType (Named k) (SetInt k x).
Proof.
  intros Hk. destruct (SetInt_spec k x) as (m & -> & Hm & _).
  unfold signedKinds in Hk. rewrite !elem_of_cons, elem_of_nil in Hk.
  destruct Hk as [-> | [-> | [-> | [-> | [-> | []]]]]]; exact Hm.
Qed.

Lemma SetUint_range k x : 0 ≤ x mod 2 ^ Reflect.Bits k < 2 ^ Reflect.Bits k.
Proof. apply Z.mod_pos_bound. destruct k; simpl; lia. Qed.

Lemma setFieldValue_hasType T : ∀ field value fieldName,
  hasType T field →
  hasType T (setFieldValue T field value fieldName).1.
Proof.
  induction T as [k | | elem IH]; intros field value fieldName Hty.
  - destruct k; simpl;
      repeat match goal with
             | |- context [match ?r with Ok _ => _ | Err _ => _ end] => destruct r
             end; simpl; auto;
      match goal with
      | |- context [?x `mod` ?m] =>
          pose proof (Z.mod_pos_bound x m ltac:(lia)); lia
      end.
  - simpl. destruct (ParseDuration value); simpl; [|exact Hty].
    apply (SetInt_hasType Reflect.Int64). unfold signedKinds.
    rewrite !elem_of_cons; tauto.
  - destruct (decide (value = EmptyString)) as [-> | Hne]; [exact Hty|].
    destruct (setSliceValue_spec elem field value fieldName Hne)
      as [(elems & -> & Hlen & Hall) | (err & _ & _ & _ & -> & _)]; [|exact Hty].
    simpl. apply Forall_lookup. intros i x Hx.
    destruct (lookup_lt_is_Some_2 (Strings.Split value ",") i) as [part Hpart].
    { rewrite <- Hlen. eapply lookup_lt_Some. exact Hx. }
    destruct (Hall i part Hpart) as (e' & He & Hl).
    rewrite Hl in Hx. injection Hx as <-.
    pose proof (IH (zero elem) (Strings.TrimSpace part) (elemName fieldName i)
                  (zero_hasType elem)) as Hty'.
    rewrite He in Hty'. exact Hty'.
Qed.

Lemma processField_hasType l env T field sf prefix :
  hasType T field → hasType T (processField l env T field sf prefix).1.
Proof.
  intros Hty. unfold processField.
  destruct (resolve l env sf prefix) as [value found].
  destruct (bool_decide _ && negb found); [exact Hty|].
  destruct found; [|exact Hty].
  apply setFieldValue_hasType. exact Hty.
Qed.

Lemma processStruct_wellTyped l v : ∀ w prefix,
  wellTyped v → wellTyped (processStruct l w v prefix).1.1.
Proof.
  induction v as [|sf T field rest IHrest | sf sub IHsub rest IHrest];
    intros w prefix Hty; simpl; [exact I| |].
  - destruct Hty as [Hf Hrest]. destruct (Exported sf); simpl.
    + pose proof (processField_hasType l (environ w) T field sf prefix Hf) as Hf'.
      destruct (processField l (environ w) T field sf prefix) as [field' [err|]].
      * destruct (failOnError l); [simpl; auto|].
        specialize (IHrest (Fprint_stderr w ("config warning: " +:+ err +:+ nl)) prefix Hrest).
        destruct (processStruct l _ rest prefix) as [[rest' w'] e]. simpl in *. auto.
      * specialize (IHrest w prefix Hrest).
        destruct (processStruct l w rest prefix) as [[rest' w'] e]. simpl in *. auto.
    + specialize (IHrest w prefix Hrest).
      destruct (processStruct l w rest prefix) as [[rest' w'] e]. simpl in *. auto.
  - destruct Hty as [Hsub Hrest]. destruct (Exported sf); simpl.
    + specialize (IHsub w (getNestedPrefix sf prefix) Hsub).
      destruct (processStruct l w sub (getNestedPrefix sf prefix)) as [[sub' w1] [err|]];
        [simpl in *; auto|].
      specialize (IHrest w1 prefix Hrest).
      destruct (processStruct l w1 rest prefix) as [[rest' w'] e]. simpl in *. auto.
    + specialize (IHrest w prefix Hrest).
      destruct (processStruct l w rest prefix) as [[rest' w'] e]. simpl in *. auto.
Qed.

(** X1. Coercion never leaves a field outside its type: whatever the text
    and whether or not the conversion fails, a field that held a value of
    its Go type (an integer within the range of its width, a slice of
    values of the element type) holds one afterwards. *)
Theorem X1_setFieldValue_keeps_type T field value fieldName :
  hasType T field →
  hasType T (setFieldValue T field value fieldName).1.
Proof. apply setFieldValue_hasType. Qed.

(** X2. [Load] keeps the struct well typed: when every leaf holds a value
    of its type before the call, the struct [Load] leaves behind is again a
    struct whose every leaf holds a value of its type, on every exit. *)
Theorem X2_Load_keeps_struct_well_typed l w v :
  wellTyped v →
  ∃ v', (Load l w (PtrToStruct v)).1.2 = PtrToStruct v' ∧ wellTyped v'.
Proof.
  intros Hty.
  destruct (Load l w (PtrToStruct v)) as [[[l' w'] c'] o] eqn:HLoad.
  destruct (Load_inv l w v l' w' c' o HLoad)
    as [[_ ->] | (w2 & v' & e & Hwalk & -> & _ & _)].
  - exists v. auto.
  - exists v'. split; [reflexivity|].
    pose proof (processStruct_wellTyped l' v w2 EmptyString Hty) as H.
    rewrite Hwalk in H. exact H.
Qed.

(** ** What the walk does and does not touch *)

Lemma processStruct_no_error l v : ∀ w prefix,
  (walk l (environ w) v prefix).2 = [] →
  processStruct l w v prefix = ((walk l (environ w) v prefix).1, w, None).
Proof.
  induction v as [|sf T field rest IHrest | sf sub IHsub rest IHrest];
    intros w prefix Herrs; simpl in *; [reflexivity| |].
  - specialize (IHrest w prefix).
    destruct (walk l (environ w) rest prefix) as [rest' errs].
    destruct (Exported sf); simpl in *.
    + destruct (processField l (environ w) T field sf prefix) as [field' [err|]];
        simpl in *; [discriminate|].
      rewrite IHrest by exact Herrs. reflexivity.
    + rewrite IHrest by exact Herrs. reflexivity.
  - specialize (IHrest w prefix). specialize (IHsub w (getNestedPrefix sf prefix)).
    destruct (walk l (environ w) rest prefix) as [rest' errs].
    destruct (Exported sf); simpl in *.
    + destruct (walk l (environ w) sub (getNestedPrefix sf prefix)) as [sub' errs1].
      simpl in *. apply app_eq_nil in Herrs as [-> ->].
      rewrite IHsub by reflexivity. rewrite IHrest by reflexivity. reflexivity.
    + rewrite IHrest by exact Herrs. reflexivity.
Qed.

(** Every error of the walk is the error of a leaf the walker reaches. *)
Lemma walk_errors_sound l env v : ∀ prefix err,
  err ∈ (walk l env v prefix).2 →
  ∃ sf T field q, leafAt sf T field q prefix v
                  ∧ (processField l env T field sf q).2 = Some err.
Proof.
  induction v as [|sf T field rest IHrest | sf sub IHsub rest IHrest];
    intros prefix err Hin; simpl in *.
  - inversion Hin.
  - specialize (IHrest prefix err).
    destruct (walk l env rest prefix) as [rest' errs].
    assert (Hrest : err ∈ errs →
                    ∃ sf0 T0 field0 q, leafAt sf0 T0 field0 q prefix (SField sf T field rest)
                      ∧ (processField l env T0 field0 sf0 q).2 = Some err).
    { intros H. destruct (IHrest H) as (sf0 & T0 & f0 & q & Hl & He).
      exists sf0, T0, f0, q. split; [apply leafAt_after_field; exact Hl | exact He]. }
    destruct (Exported sf) eqn:Hexp; simpl in *; [|auto].
    destruct (processField l env T field sf prefix) as [field' [e|]] eqn:Hp;
      simpl in *; [|auto].
    apply elem_of_cons in Hin as [-> | Hin]; [|auto].
    exists sf, T, field, prefix. split; [apply leafAt_here; auto|].
    rewrite Hp. reflexivity.
  - specialize (IHrest prefix err). specialize (IHsub (getNestedPrefix sf prefix) err).
    destruct (walk l env rest prefix) as [rest' errs].
    assert (Hrest : err ∈ errs →
                    ∃ sf0 T0 field0 q, leafAt sf0 T0 field0 q prefix (SNested sf sub rest)
                      ∧ (processField l env T0 field0 sf0 q).2 = Some err).
    { intros H. destruct (IHrest H) as (sf0 & T0 & f0 & q & Hl & He).
      exists sf0, T0, f0, q. split; [apply leafAt_after_nested; exact Hl | exact He]. }
    destruct (Exported sf) eqn:Hexp; simpl in *; [|auto].
    destruct (walk l env sub (getNestedPrefix sf prefix)) as [sub' errs1]. simpl in *.
    apply elem_of_app in Hin as [Hin | Hin]; [|auto].
    destruct (IHsub Hin) as (sf0 & T0 & f0 & q & Hl & He).
    exists sf0, T0, f0, q. split; [apply leafAt_inside; auto | exact He].
Qed.

Lemma processStruct_prints l v : ∀ w prefix,
  ∃ lines, (processStruct l w v prefix).1.2 = Fprint_all w lines
           ∧ (failOnError l = true → lines = []).
Proof.
  intros w prefix. destruct (failOnError l) eqn:Hpol.
  - destruct (processStruct_failfast l v w prefix Hpol) as [v' ->].
    exists []. simpl. rewrite Fprint_all_nil. auto.
  - rewrite (processStruct_continue l v w prefix Hpol). simpl.
    eexists. split; [reflexivity | discriminate].
Qed.

Lemma loadEnvFile_stderr w filename : stderr (loadEnvFile w filename).1 = stderr w.
Proof.
  unfold loadEnvFile. destruct (files w !! filename) as [lines|]; [|reflexivity].
  destruct (scanLines (environ w) lines 0) as [env err]. reflexivity.
Qed.

Lemma loadEach_files_stderr toLoad : ∀ w,
  files (loadEach w toLoad).1 = files w ∧ stderr (loadEach w toLoad).1 = stderr w.
Proof.
  induction toLoad as [|file rest IH]; intros w; simpl; [auto|].
  pose proof (loadEnvFile_files w file) as Hf.
  pose proof (loadEnvFile_stderr w file) as Hs.
  destruct (loadEnvFile w file) as [w' [err|]]; simpl in *; [auto|].
  destruct (IH w') as [Hf' Hs']. split; congruence.
Qed.

(** The world [Load] leaves: the one it was given, or the one the env
    files produced followed by what was written to standard error, which is
    nothing under fail-on-error. *)
Lemma Load_world l w config :
  (Load l w config).1.1.2 = w
  ∨ ∃ lines, (Load l w config).1.1.2 = Fprint_all (loadEnvFiles l w).1 lines
             ∧ (failOnError l = true → lines = []).
Proof.
  destruct config as [v|]; [|left; reflexivity]. right.
  unfold Load.
  destruct (loadEnvFiles l w) as [w1 err]. simpl.
  destruct (registerFlags_loader v l EmptyString) as [f Hf].
  destruct (registerFlags l v EmptyString) as [l1 o1]. simpl in Hf. subst l1.
  assert (Hnone : ∀ w2 lines0,
    w2 = Fprint_all w1 lines0 → (failOnError l = true → lines0 = []) →
    ∃ lines,
      (match o1 with
       | Error e => (with_flagSet l f, w2, PtrToStruct v,
                     Error ("failed to register flags: " +:+ e))
       | Nil =>
           match (if isCommandLine (flagSet (with_flagSet l f))
                     && negb (parsed (flagSet (with_flagSet l f)))
                  then Parse (flagSet (with_flagSet l f))
                  else Some (flagSet (with_flagSet l f))) with
           | None => (with_flagSet l f, w2, PtrToStruct v, Exit)
           | Some f' =>
               let '(v', w3, e) :=
                 processStruct (with_flagSet (with_flagSet l f) f') w2 v EmptyString in
               (with_flagSet (with_flagSet l f) f', w3, PtrToStruct v',
                match e with Some e => Error e | None => Nil end)
           end
       | stop => (with_flagSet l f, w2, PtrToStruct v, stop)
       end).1.1.2 = Fprint_all w1 lines
      ∧ (failOnError l = true → lines = [])).
  { intros w2 lines0 -> Hl0.
    destruct o1 as [|e|msg|]; try (exists lines0; split; [reflexivity | exact Hl0]).
    match goal with
    | |- context [if ?c then Parse ?g else Some ?h] =>
        destruct (if c then Parse g else Some h) as [f'|]
    end; [|exists lines0; split; [reflexivity | exact Hl0]].
    destruct (processStruct_prints (with_flagSet (with_flagSet l f) f') v
                (Fprint_all w1 lines0) EmptyString) as (lines & Hw & Hl).
    destruct (processStruct _ _ v EmptyString) as [[v' w3] e]. simpl in *.
    exists (lines0 ++ lines). rewrite Hw, Fprint_all_app. split; [reflexivity|].
    intros Hpol. rewrite (Hl0 Hpol), (Hl Hpol). reflexivity. }
  destruct err as [e|]; [destruct (failOnError l) eqn:Hpol|].
  - exists []. simpl. rewrite Fprint_all_nil. auto.
  - apply (Hnone _ ["config warning: failed to load .env files: " +:+ e +:+ nl]);
      [reflexivity | discriminate].
  - apply (Hnone _ []); [symmetry; apply Fprint_all_nil | auto].
Qed.

(** X3. When [Load] returns nil, every leaf the walker reaches holds what
    [processField] computes for it from the final flag set and environment;
    under fail-on-error none of them reported an error. *)
Theorem X3_Load_nil_processes_every_leaf l w v l' w' c' :
  Load l w (PtrToStruct v) = (l', w', c', Nil) →
  ∃ v', c' = PtrToStruct v'
    ∧ (∀ sf T field q,
         leafAt sf T field q EmptyString v →
         leafAt sf T (processField l' (environ w') T field sf q).1 q EmptyString v')
    ∧ (failOnError l = true →
       ∀ sf T field q,
         leafAt sf T field q EmptyString v →
         (processField l' (environ w') T field sf q).2 = None).
Proof.
  intros HLoad.
  destruct (Load_inv l w v l' w' c' Nil HLoad)
    as [[Hstop _] | (w2 & v' & e & Hwalk & -> & Ho & Hpol)];
    [destruct (stoppedBeforeWalk_not_Nil Hstop)|].
  destruct e as [e|]; [discriminate|].
  pose proof (processStruct_environ l' v w2 EmptyString) as Henv.
  rewrite Hwalk in Henv. simpl in Henv.
  assert (Hv : v' = (walk l' (environ w') v EmptyString).1
               ∧ (failOnError l = true → (walk l' (environ w') v EmptyString).2 = [])).
  { rewrite Henv. destruct (failOnError l') eqn:Hpol'.
    - destruct (processStruct_failfast l' v w2 EmptyString Hpol') as [v'' Hff].
      rewrite Hwalk in Hff. injection Hff as _ Hhead.
      assert (Hnil : (walk l' (environ w2) v EmptyString).2 = []).
      { destruct (walk l' (environ w2) v EmptyString).2; [reflexivity | discriminate]. }
      rewrite (processStruct_no_error l' v w2 EmptyString Hnil) in Hwalk.
      injection Hwalk as <- _. auto.
    - rewrite (processStruct_continue l' v w2 EmptyString Hpol') in Hwalk.
      injection Hwalk as <- _. split; [reflexivity|]. congruence. }
  destruct Hv as [-> Hnil]. eexists. split; [reflexivity|]. split.
  - intros sf T field q Hleaf.
    apply (walk_leafAt l' (environ w') sf T field q EmptyString v Hleaf).
  - intros Hfast sf T field q Hleaf.
    destruct (walk_leafAt l' (environ w') sf T field q EmptyString v Hleaf) as [_ Herr].
    destruct (processField l' (environ w') T field sf q).2 as [err|] eqn:He; [|reflexivity].
    specialize (Herr err eq_refl). rewrite (Hnil Hfast) in Herr. inversion Herr.
Qed.

(** X4. Under continue-on-error the walker returns nil and writes exactly
    one warning line for each error of a leaf it reaches, and nothing
    else: every line is the warning of such an error, and every such error
    has its line. *)
Theorem X4_walker_warns_exactly_the_failing_leaves l w v prefix :
  failOnError l = false →
  (processStruct l w v prefix).2 = None
  ∧ ∃ errs,
      stderr (processStruct l w v prefix).1.2 = stderr w ++ (warning <$> errs)
      ∧ ∀ err, err ∈ errs ↔
               ∃ sf T field q, leafAt sf T field q prefix v
                 ∧ (processField l (environ w) T field sf q).2 = Some err.
Proof.
  intros Hpol. rewrite (processStruct_continue l v w prefix Hpol). simpl.
  split; [reflexivity|].
  exists (walk l (environ w) v prefix).2. split; [reflexivity|].
  intros err. split.
  - apply walk_errors_sound.
  - intros (sf & T & field & q & Hleaf & Herr).
    apply (walk_leafAt l (environ w) sf T field q prefix v Hleaf). exact Herr.
Qed.

(** X5. Under fail-on-error a [Load] that returns, with nil or with an
    error, has written nothing to standard error. (A run that the flag
    package ends, by a panic or by leaving the process, is not covered:
    the flag package prints before it does so.) *)
Theorem X5_fail_fast_Load_is_silent l w config :
  failOnError l = true →
  (Load l w config).2 = Nil ∨ (∃ e, (Load l w config).2 = Error e) →
  stderr (Load l w config).1.1.2 = stderr w.
Proof.
  intros Hpol _.
  destruct (Load_world l w config) as [-> | (lines & -> & Hl)]; [reflexivity|].
  rewrite (Hl Hpol). simpl. rewrite app_nil_r.
  unfold loadEnvFiles. apply loadEach_files_stderr.
Qed.

(** X6. [Load] never touches the files and never changes or removes a
    variable that is set: the environment only gains keys. *)
Theorem X6_Load_only_adds_to_the_environment l w config :
  files (Load l w config).1.1.2 = files w
  ∧ ∀ key x,
      LookupEnv (environ w) key = Some x →
      LookupEnv (environ (Load l w config).1.1.2) key = Some x.
Proof.
  destruct (Load_world l w config) as [-> | (lines & -> & _)]; [auto|].
  simpl. unfold loadEnvFiles. split.
  - apply loadEach_files_stderr.
  - intros key x Hset. apply loadEach_keeps. exact Hset.
Qed.

(** X7. Fields that are not exported are skipped by both passes, whole
    nested structs included: a struct with no exported field gets no flag
    and comes back from the walk as it was, with no error and no output. *)
Theorem X7_unexported_fields_are_skipped l w v prefix :
  allUnexported v →
  registerFlags l v prefix = (l, Nil)
  ∧ processStruct l w v prefix = (v, w, None).
Proof.
  revert w. induction v as [|sf T field rest IH | sf sub _ rest IH];
    intros w Hall; simpl in *; [auto| |];
    destruct Hall as [-> Hrest]; simpl;
    destruct (IH w Hrest) as [-> ->]; auto.
Qed.

(** ** Resolution *)

Lemma resolve_found_nonempty l env sf prefix :
  (resolve l env sf prefix).2 = true ↔ (resolve l env sf prefix).1 ≠ EmptyString.
Proof.
  pose proof (resolve_flag_tier l env sf prefix) as H1.
  pose proof (resolve_env_tier l env sf prefix) as H2.
  pose proof (resolve_default_tier l env sf prefix) as H3.
  destruct (decide (getFlagName sf = EmptyString)) as [Hn | Hn].
  - assert (Hf : flagTierEmpty l sf) by (left; exact Hn).
    destruct (decide (Getenv env (getEnvKey l env sf prefix) = EmptyString)) as [He | He].
    + rewrite (H3 Hf He). simpl. apply bool_decide_eq_true.
    + rewrite (H2 Hf He). simpl. tauto.
  - destruct (decide (getFlagValue l (getFlagName sf) = EmptyString)) as [Hv | Hv].
    + assert (Hf : flagTierEmpty l sf) by (right; exact Hv).
      destruct (decide (Getenv env (getEnvKey l env sf prefix) = EmptyString)) as [He | He].
      * rewrite (H3 Hf He). simpl. apply bool_decide_eq_true.
      * rewrite (H2 Hf He). simpl. tauto.
    + rewrite (H1 Hn Hv). simpl. tauto.
Qed.

(** X8. The resolved text is the first non-empty one of the text of the
    field's flag, the value of its environment key and its default tag; a
    tier is found exactly when that text is not empty, so [processField]
    never hands [setFieldValue] an empty text. *)
Theorem X8_resolve_first_non_empty_tier l env sf prefix :
  let flagValue := getFlagValue l (getFlagName sf) in
  let envValue := Getenv env (getEnvKey l env sf prefix) in
  let defaultValue := Tag_Get (Tag sf) "default" in
  (getFlagName sf ≠ EmptyString → flagValue ≠ EmptyString →
   resolve l env sf prefix = (flagValue, true))
  ∧ (flagTierEmpty l sf → envValue ≠ EmptyString →
     resolve l env sf prefix = (envValue, true))
  ∧ (flagTierEmpty l sf → envValue = EmptyString → defaultValue ≠ EmptyString →
     resolve l env sf prefix = (defaultValue, true))
  ∧ (flagTierEmpty l sf → envValue = EmptyString → defaultValue = EmptyString →
     resolve l env sf prefix = (EmptyString, false))
  ∧ ((resolve l env sf prefix).2 = true ↔ (resolve l env sf prefix).1 ≠ EmptyString).
Proof.
  intros flagValue envValue defaultValue.
  assert (H1 : getFlagName sf ≠ EmptyString → flagValue ≠ EmptyString →
               resolve l env sf prefix = (flagValue, true))
    by (apply resolve_flag_tier).
  assert (H2 : flagTierEmpty l sf → envValue ≠ EmptyString →
               resolve l env sf prefix = (envValue, true))
    by (apply resolve_env_tier).
  assert (H3 : flagTierEmpty l sf → envValue = EmptyString →
               resolve l env sf prefix
               = (defaultValue, bool_decide (defaultValue ≠ EmptyString)))
    by (apply resolve_default_tier).
  split; [exact H1|]. split; [exact H2|]. split; [|split].
  - intros Hf He Hd. rewrite (H3 Hf He). rewrite (bool_decide_eq_true_2 _ Hd). reflexivity.
  - intros Hf He Hd. rewrite (H3 Hf He). rewrite Hd. reflexivity.
  - apply resolve_found_nonempty.
Qed.

(** ** Registering flags *)

Lemma registerFieldFlag_keeps l T sf prefix name x :
  FlagSet_Lookup (flagSet l) name = Some x →
  FlagSet_Lookup (flagSet (registerFieldFlag l T sf prefix).1) name = Some x.
Proof.
  intros Hset. unfold registerFieldFlag.
  case_decide; [exact Hset|].
  destruct (FlagSet_Lookup (flagSet l) (getFlagName sf)) as [y|] eqn:Hfresh; [exact Hset|].
  assert (Hne : getFlagName sf ≠ name) by (intros Heq; congruence).
  assert (HVar : ∀ v, FlagSet_Lookup (Var (flagSet l) (getFlagName sf) v).1 name = Some x).
  { intros v. unfold Var.
    destruct (Strings.HasPrefix _ _); [exact Hset|].
    destruct (Strings.ContainsChar _ _); [exact Hset|].
    unfold FlagSet_Lookup. simpl. rewrite lookup_insert_ne by exact Hne. exact Hset. }
  destruct T as [k | | elem]; [destruct k| |]; try exact Hset;
    match goal with
    | |- context [Var ?f ?n ?v] =>
        specialize (HVar v); destruct (Var f n v) as [f' o']; exact HVar
    end.
Qed.

Lemma registerFieldFlag_meta l T sf prefix :
  isCommandLine (flagSet (registerFieldFlag l T sf prefix).1) = isCommandLine (flagSet l)
  ∧ parsed (flagSet (registerFieldFlag l T sf prefix).1) = parsed (flagSet l)
  ∧ args (flagSet (registerFieldFlag l T sf prefix).1) = args (flagSet l).
Proof.
  unfold registerFieldFlag.
  case_decide; [auto|].
  destruct (FlagSet_Lookup (flagSet l) (getFlagName sf)); [auto|].
  assert (HVar : ∀ v,
    isCommandLine (Var (flagSet l) (getFlagName sf) v).1 = isCommandLine (flagSet l)
    ∧ parsed (Var (flagSet l) (getFlagName sf) v).1 = parsed (flagSet l)
    ∧ args (Var (flagSet l) (getFlagName sf) v).1 = args (flagSet l)).
  { intros v. unfold Var.
    destruct (Strings.HasPrefix _ _); [auto|].
    destruct (Strings.ContainsChar _ _); auto. }
  destruct T as [k | | elem]; [destruct k| |]; auto;
    match goal with
    | |- context [Var ?f ?n ?v] =>
        specialize (HVar v); destruct (Var f n v) as [f' o']; exact HVar
    end.
Qed.

Lemma registerFlags_keeps l v prefix :
  (∀ name x,
      FlagSet_Lookup (flagSet l) name = Some x →
      FlagSet_Lookup (flagSet (registerFlags l v prefix).1) name = Some x)
  ∧ isCommandLine (flagSet (registerFlags l v prefix).1) = isCommandLine (flagSet l)
  ∧ parsed (flagSet (registerFlags l v prefix).1) = parsed (flagSet l)
  ∧ args (flagSet (registerFlags l v prefix).1) = args (flagSet l)
  ∧ (registerFlags l v prefix).1 = with_flagSet l (flagSet (registerFlags l v prefix).1).
Proof.
  assert (Hmain : ∀ l prefix,
    (∀ name x,
        FlagSet_Lookup (flagSet l) name = Some x →
        FlagSet_Lookup (flagSet (registerFlags l v prefix).1) name = Some x)
    ∧ isCommandLine (flagSet (registerFlags l v prefix).1) = isCommandLine (flagSet l)
    ∧ parsed (flagSet (registerFlags l v prefix).1) = parsed (flagSet l)
    ∧ args (flagSet (registerFlags l v prefix).1) = args (flagSet l)).
  { clear l prefix.
    induction v as [|sf T field rest IHrest | sf sub IHsub rest IHrest];
      intros l prefix; simpl; [auto| |].
    - destruct (Exported sf); simpl; [|apply IHrest].
      pose proof (registerFieldFlag_keeps l T sf prefix) as Hk.
      pose proof (registerFieldFlag_meta l T sf prefix) as (Hc & Hp & Ha).
      destruct (registerFieldFlag l T sf prefix) as [l1 o]. simpl in *.
      destruct o; try (split; [exact Hk | auto]).
      destruct (IHrest l1 prefix) as (Hk' & Hc' & Hp' & Ha').
      split; [intros name x Hx; apply Hk', Hk, Hx|].
      repeat split; congruence.
    - destruct (Exported sf); simpl; [|apply IHrest].
      destruct (IHsub l (getNestedPrefix sf prefix)) as (Hk & Hc & Hp & Ha).
      destruct (registerFlags l sub (getNestedPrefix sf prefix)) as [l1 o]. simpl in *.
      destruct o; try (split; [exact Hk | auto]).
      destruct (IHrest l1 prefix) as (Hk' & Hc' & Hp' & Ha').
      split; [intros name x Hx; apply Hk', Hk, Hx|].
      repeat split; congruence. }
  destruct (Hmain l prefix) as (Hk & Hc & Hp & Ha).
  repeat (split; [assumption|]).
  destruct (registerFlags_loader v l prefix) as [f Hf]. rewrite Hf. reflexivity.
Qed.

(** X9. Registering the flags of a struct never redefines a flag: every
    flag the set holds keeps its value (a flag of the host is never
    overwritten, whatever the defaults of the fields), the set keeps its
    parsed state and arguments, and the other settings of the loader are
    untouched. *)
Theorem X9_registerFlags_keeps_existing_flags l v prefix :
  (∀ name x,
      FlagSet_Lookup (flagSet l) name = Some x →
      FlagSet_Lookup (flagSet (registerFlags l v prefix).1) name = Some x)
  ∧ isCommandLine (flagSet (registerFlags l v prefix).1) = isCommandLine (flagSet l)
  ∧ parsed (flagSet (registerFlags l v prefix).1) = parsed (flagSet l)
  ∧ args (flagSet (registerFlags l v prefix).1) = args (flagSet l)
  ∧ (registerFlags l v prefix).1 = with_flagSet l (flagSet (registerFlags l v prefix).1).
Proof. apply registerFlags_keeps. Qed.

(** ** Names *)

Lemma toLowerChar_not_upper c : Strings.isUpper (Strings.toLowerChar c) = false.
Proof. destruct c as [[] [] [] [] [] [] [] []]; reflexivity. Qed.

Lemma toLowerChar_fixed c : Strings.isUpper c = false → Strings.toLowerChar c = c.
Proof. unfold Strings.toLowerChar. intros ->. reflexivity. Qed.

Lemma toUpperChar_not_lower c : Strings.isLower (Strings.toUpperChar c) = false.
Proof. destruct c as [[] [] [] [] [] [] [] []]; reflexivity. Qed.

Lemma mapChars_fixed f s :
  (∀ c, f (f c) = f c) → Strings.mapChars f (Strings.mapChars f s) = Strings.mapChars f s.
Proof. intros Hf. induction s as [|c s IH]; simpl; [reflexivity|]. rewrite Hf, IH. reflexivity. Qed.

Lemma snakeFrom_lower s : ∀ i,
  Strings.mapChars Strings.toLowerChar s = s → snakeFrom i s = s.
Proof.
  induction s as [|c s IH]; intros i Hlow; simpl in *; [reflexivity|].
  injection Hlow as Hc Hs. rewrite (IH (S i) Hs).
  assert (Hup : Strings.isUpper c = false).
  { rewrite <- Hc. apply toLowerChar_not_upper. }
  rewrite Hup, andb_false_r. reflexivity.
Qed.

Lemma prefix_empty s : String.prefix EmptyString s = true.
Proof. destruct s; reflexivity. Qed.

Lemma ReplaceAll_char s a b :
  Strings.ReplaceAll s (String a EmptyString) (String b EmptyString)
  = Strings.mapChars (λ c, if Ascii.eqb c a then b else c) s.
Proof.
  unfold Strings.ReplaceAll. induction s as [|c s IH]; simpl; [reflexivity|].
  destruct (ascii_dec a c) as [<- | Hne].
  - rewrite Ascii.eqb_refl, prefix_empty. simpl. rewrite IH. reflexivity.
  - rewrite IH. destruct (Ascii.eqb_spec c a) as [-> | _]; [contradiction | reflexivity].
Qed.

Lemma ContainsChar_mapChars_none f s c :
  (∀ d, Ascii.eqb (f d) c = false) → Strings.ContainsChar (Strings.mapChars f s) c = false.
Proof. intros Hf. induction s as [|d s IH]; simpl; [reflexivity|]. rewrite Hf. exact IH. Qed.

Lemma length_mapChars f s : String.length (Strings.mapChars f s) = String.length s.
Proof. induction s as [|c s IH]; simpl; [reflexivity|]. rewrite IH. reflexivity. Qed.

Lemma length_snakeFrom s : ∀ i, (String.length s ≤ String.length (snakeFrom i s))%nat.
Proof.
  induction s as [|c s IH]; intros i; simpl; [lia|].
  specialize (IH (S i)). destruct ((0 <? i)%nat && Strings.isUpper c); simpl; lia.
Qed.

(** X10. Names derived from an identifier are normal forms: the snake-case
    name holds no upper-case letter and converting it again changes
    nothing; the kebab-case name holds no upper-case letter and no
    underscore and is as long as the snake-case name, which is never
    shorter than the identifier. *)
Theorem X10_derived_names_are_normal_forms s :
  Strings.ToLower (toSnakeCase s) = toSnakeCase s
  ∧ toSnakeCase (toSnakeCase s) = toSnakeCase s
  ∧ Strings.ToLower (toKebabCase s) = toKebabCase s
  ∧ Strings.ContainsChar (toKebabCase s) "_" = false
  ∧ String.length (toKebabCase s) = String.length (toSnakeCase s)
  ∧ (String.length s ≤ String.length (toSnakeCase s))%nat.
Proof.
  assert (Hlow : Strings.ToLower (toSnakeCase s) = toSnakeCase s).
  { unfold toSnakeCase, Strings.ToLower. apply mapChars_fixed.
    intros c. apply toLowerChar_fixed, toLowerChar_not_upper. }
  split; [exact Hlow|]. split; [|split; [|split; [|split]]].
  - unfold toSnakeCase at 1. rewrite (snakeFrom_lower _ 0 Hlow). exact Hlow.
  - unfold toKebabCase. rewrite ReplaceAll_char.
    unfold toSnakeCase, Strings.ToLower.
    generalize (snakeFrom 0 s). intros t.
    induction t as [|c t IH]; simpl; [reflexivity|]. rewrite IH. f_equal.
    destruct c as [[] [] [] [] [] [] [] []]; reflexivity.
  - unfold toKebabCase. rewrite ReplaceAll_char.
    apply ContainsChar_mapChars_none.
    intros d. destruct (Ascii.eqb_spec d "_") as [-> | Hne]; [reflexivity|].
    apply Ascii.eqb_neq. exact Hne.
  - unfold toKebabCase. rewrite ReplaceAll_char. apply length_mapChars.
  - unfold toSnakeCase, Strings.ToLower. rewrite length_mapChars. apply length_snakeFrom.
Qed.

Lemma ContainsChar_mapChars f s c :
  (∀ d, Ascii.eqb d c = false → Ascii.eqb (f d) c = false) →
  Strings.ContainsChar s c = false →
  Strings.ContainsChar (Strings.mapChars f s) c = false.
Proof.
  intros Hf. induction s as [|d s IH]; simpl; [reflexivity|].
  destruct (Ascii.eqb d c) eqn:Hd; [discriminate|].
  intros Hs. rewrite (Hf d Hd). apply IH. exact Hs.
Qed.

Lemma ContainsChar_snakeFrom s c : ∀ i,
  Ascii.eqb "_" c = false →
  Strings.ContainsChar s c = false →
  Strings.ContainsChar (snakeFrom i s) c = false.
Proof.
  induction s as [|d s IH]; intros i Hc Hs; [reflexivity|].
  cbn [Strings.ContainsChar] in Hs.
  destruct (Ascii.eqb d c) eqn:Hd; [discriminate|].
  cbn [snakeFrom].
  destruct ((0 <? i)%nat && Strings.isUpper d);
    cbn [Strings.ContainsChar]; rewrite ?Hc, Hd; apply IH; assumption.
Qed.

Lemma toKebabCase_no_equals s :
  Strings.ContainsChar s "=" = false → Strings.ContainsChar (toKebabCase s) "=" = false.
Proof.
  intros Hs. unfold toKebabCase. rewrite ReplaceAll_char.
  apply ContainsChar_mapChars.
  { intros d Hd. destruct (Ascii.eqb d "_"); [reflexivity | exact Hd]. }
  unfold toSnakeCase, Strings.ToLower. apply ContainsChar_mapChars.
  { intros d. destruct d as [[] [] [] [] [] [] [] []]; intros H;
      first [reflexivity | discriminate H]. }
  apply ContainsChar_snakeFrom; [reflexivity | exact Hs].
Qed.

Lemma toKebabCase_head c rest :
  Strings.isUpper c = true →
  ∃ d t, toKebabCase (String c rest) = String d t ∧ Ascii.eqb d "-" = false.
Proof.
  intros Hup. unfold toKebabCase. rewrite ReplaceAll_char.
  unfold toSnakeCase, Strings.ToLower. simpl.
  eexists _, _. split; [reflexivity|].
  destruct c as [[] [] [] [] [] [] [] []]; first [reflexivity | discriminate Hup].
Qed.

Lemma HasPrefix_char d t a :
  Ascii.eqb d a = false → Strings.HasPrefix (String d t) (String a EmptyString) = false.
Proof.
  intros Hd. unfold Strings.HasPrefix. cbn [String.prefix].
  destruct (ascii_dec a d) as [-> | _]; [|reflexivity].
  rewrite Ascii.eqb_refl in Hd. discriminate.
Qed.

(** X11. A field without a flag tag whose identifier starts with an ASCII
    capital and holds no equals sign, as every exported Go identifier
    does, gets a flag name that the flag package accepts: the name is not
    empty, registering the field never panics, and it fails only for a
    type of a kind that has no flag. *)
Theorem X11_untagged_field_never_panics l T sf prefix c rest :
  Tag_Get (Tag sf) "flag" = EmptyString →
  Name sf = String c rest →
  Strings.isUpper c = true →
  Strings.ContainsChar (Name sf) "=" = false →
  getFlagName sf ≠ EmptyString
  ∧ (∀ msg, (registerFieldFlag l T sf prefix).2 ≠ Panic msg)
  ∧ ((registerFieldFlag l T sf prefix).2 = Nil
     ∨ ∃ k, T = Named k
            ∧ (registerFieldFlag l T sf prefix).2
              = Error ("unsupported flag type " +:+ Reflect.Kind_String k
                       +:+ " for field " +:+ Name sf)).
Proof.
  intros Htag Hname Hup Heq.
  assert (Hflag : getFlagName sf = toKebabCase (Name sf)).
  { unfold getFlagName. rewrite Htag. reflexivity. }
  destruct (toKebabCase_head c rest Hup) as (d & t & Hk & Hd).
  rewrite <- Hname in Hk.
  assert (Hne : getFlagName sf ≠ EmptyString) by (rewrite Hflag, Hk; discriminate).
  assert (HVar : ∀ v, (Var (flagSet l) (getFlagName sf) v).2 = Nil).
  { intros v. unfold Var.
    rewrite Hflag, (toKebabCase_no_equals _ Heq), Hk, (HasPrefix_char d t "-" Hd).
    reflexivity. }
  assert (Hcases : (registerFieldFlag l T sf prefix).2 = Nil
     ∨ ∃ k, T = Named k
            ∧ (registerFieldFlag l T sf prefix).2
              = Error ("unsupported flag type " +:+ Reflect.Kind_String k
                       +:+ " for field " +:+ Name sf)).
  { unfold registerFieldFlag. rewrite (decide_False _ _ Hne).
    destruct (FlagSet_Lookup (flagSet l) (getFlagName sf)); [left; reflexivity|].
    destruct T as [k | | elem]; [destruct k| |];
      try (right; eexists; split; reflexivity);
      left;
      match goal with
      | |- context [Var ?f ?n ?v] =>
          specialize (HVar v); destruct (Var f n v) as [f' o']; exact HVar
      end. }
  split; [exact Hne|]. split; [|exact Hcases].
  intros msg Hp. destruct Hcases as [H | (k & _ & H)]; rewrite H in Hp; discriminate.
Qed.

Lemma append_assoc (a b c : string) : (a +:+ b) +:+ c = a +:+ b +:+ c.
Proof.
  induction a as [|x a IH]; [reflexivity|].
  change (String x ((a +:+ b) +:+ c) = String x (a +:+ b +:+ c)).
  f_equal. exact IH.
Qed.

Lemma append_empty_r (s : string) : s +:+ EmptyString = s.
Proof.
  induction s as [|x s IH]; [reflexivity|].
  change (String x (s +:+ EmptyString) = String x s). f_equal. exact IH.
Qed.

Lemma getNestedPrefix_piece sf : ∃ piece, ∀ p, getNestedPrefix sf p = p +:+ piece.
Proof.
  unfold getNestedPrefix. case_decide; eexists; intros p; reflexivity.
Qed.

Lemma withPrefixes_shift l1 l2 p1 p2 name :
  envPrefix l1 +:+ p1 = envPrefix l2 +:+ p2 →
  withPrefixes l1 p1 name = withPrefixes l2 p2 name.
Proof.
  intros Hsame. rewrite !withPrefixes_eq, <- !append_assoc, Hsame. reflexivity.
Qed.

Lemma firstSetName_shift l1 l2 env p1 p2 names :
  envPrefix l1 +:+ p1 = envPrefix l2 +:+ p2 →
  firstSetName l1 env p1 names = firstSetName l2 env p2 names.
Proof.
  intros Hsame. induction names as [|name rest IH]; [reflexivity|].
  cbn [firstSetName]. rewrite (withPrefixes_shift l1 l2 p1 p2 _ Hsame), IH. reflexivity.
Qed.

Lemma getEnvKey_shift l1 l2 env sf p1 p2 :
  envPrefix l1 +:+ p1 = envPrefix l2 +:+ p2 →
  getEnvKey l1 env sf p1 = getEnvKey l2 env sf p2.
Proof.
  intros Hsame. unfold getEnvKey.
  rewrite (firstSetName_shift l1 l2 env p1 p2 _ Hsame).
  rewrite !(withPrefixes_shift l1 l2 p1 p2 _ Hsame). reflexivity.
Qed.

Lemma processField_shift l1 l2 env T field sf p1 p2 :
  flagSet l1 = flagSet l2 →
  envPrefix l1 +:+ p1 = envPrefix l2 +:+ p2 →
  processField l1 env T field sf p1 = processField l2 env T field sf p2.
Proof.
  intros Hflags Hsame. unfold processField, resolve, getFlagValue.
  rewrite Hflags, (getEnvKey_shift l1 l2 env sf p1 p2 Hsame). reflexivity.
Qed.

Lemma processStruct_shift l1 l2 v :
  flagSet l1 = flagSet l2 →
  failOnError l1 = failOnError l2 →
  ∀ w p1 p2,
    envPrefix l1 +:+ p1 = envPrefix l2 +:+ p2 →
    processStruct l1 w v p1 = processStruct l2 w v p2.
Proof.
  intros Hflags Hpol.
  induction v as [|sf T field rest IH | sf sub IHsub rest IH]; intros w p1 p2 Hsame.
  - reflexivity.
  - cbn [processStruct].
    rewrite (processField_shift l1 l2 (environ w) T field sf p1 p2 Hflags Hsame), Hpol.
    rewrite (IH w p1 p2 Hsame).
    destruct (negb (Exported sf)); [reflexivity|].
    destruct (processField l2 (environ w) T field sf p2) as [field' [err|]];
      [|reflexivity].
    destruct (failOnError l2); [reflexivity|].
    rewrite (IH _ p1 p2 Hsame). reflexivity.
  - cbn [processStruct]. rewrite (IH w p1 p2 Hsame).
    destruct (negb (Exported sf)); [reflexivity|].
    destruct (getNestedPrefix_piece sf) as [piece Hpiece].
    assert (Hnested : envPrefix l1 +:+ getNestedPrefix sf p1
                      = envPrefix l2 +:+ getNestedPrefix sf p2).
    { rewrite !Hpiece, <- !append_assoc, Hsame. reflexivity. }
    rewrite (IHsub w _ _ Hnested).
    destruct (processStruct l2 w sub (getNestedPrefix sf p2)) as [[sub' w1] [err|]];
      [reflexivity|].
    rewrite (IH w1 p1 p2 Hsame). reflexivity.
Qed.

(** X12. An accumulated prefix acts exactly like a global prefix: walking
    a struct under a prefix gives the same struct, the same output and the
    same error as walking it under no prefix with a loader whose global
    prefix is extended by that prefix, and every field reads the same
    environment key. A nested struct is therefore filled exactly as the
    same struct walked on its own by a loader whose global prefix is
    followed by the prefix of the nesting. *)
Theorem X12_nested_prefix_acts_as_env_prefix l w v prefix :
  processStruct l w v prefix
  = processStruct (WithEnvPrefix (envPrefix l +:+ prefix) l) w v EmptyString
  ∧ (∀ env sf,
       getEnvKey l env sf prefix
       = getEnvKey (WithEnvPrefix (envPrefix l +:+ prefix) l) env sf EmptyString).
Proof.
  assert (Hshift : ∀ p, envPrefix l +:+ p
                       = envPrefix (WithEnvPrefix (envPrefix l +:+ p) l) +:+ EmptyString).
  { intros p. simpl. rewrite append_empty_r. reflexivity. }
  split; [apply processStruct_shift; [reflexivity | reflexivity | apply Hshift]|].
  intros env sf. apply getEnvKey_shift, Hshift.
Qed.

Lemma toUpperChar_fixed c : Strings.isLower c = false → Strings.toUpperChar c = c.
Proof. unfold Strings.toUpperChar. intros ->. reflexivity. Qed.

(** X13. The key [getEnvKey] returns for a field with an env tag is always
    one of the candidates of the tag, composed with the prefixes; for a
    field without an env tag it is the upper-cased composition of the
    prefixes and the snake-case identifier and holds no lower-case
    letter, prefixes included. *)
Theorem X13_env_key_shape l env sf prefix :
  (Tag_Get (Tag sf) "env" ≠ EmptyString →
   getEnvKey l env sf prefix ∈ envCandidates l sf prefix)
  ∧ (Tag_Get (Tag sf) "env" = EmptyString →
     getEnvKey l env sf prefix
     = Strings.ToUpper (envPrefix l +:+ prefix +:+ toSnakeCase (Name sf))
     ∧ Strings.ToUpper (getEnvKey l env sf prefix) = getEnvKey l env sf prefix).
Proof.
  split.
  - intros Htag. unfold getEnvKey. rewrite (decide_True _ _ Htag).
    pose proof (firstSetName_spec l env prefix (Strings.Split (Tag_Get (Tag sf) "env") ","))
      as Hspec.
    simpl in Hspec. fold (envCandidates l sf prefix) in Hspec.
    destruct (firstSetName l env prefix _) as [name|].
    + destruct Hspec as (i & Hi & _). apply list_elem_of_lookup. eauto.
    + rewrite withPrefixes_eq. unfold envCandidates.
      destruct (Split_cons (Tag_Get (Tag sf) "env") ",") as (x & xs & ->).
      simpl. apply list_elem_of_here.
  - intros Htag. unfold getEnvKey. rewrite Htag. simpl.
    rewrite withPrefixes_eq. split; [reflexivity|].
    unfold Strings.ToUpper. apply mapChars_fixed.
    intros c. apply toUpperChar_fixed, toUpperChar_not_lower.
Qed.

(** ** Env files *)

Lemma SplitN2_cut s sep k v :
  Strings.SplitN2 s sep = [k; v] →
  s = k +:+ String sep v ∧ Strings.ContainsChar k sep = false.
Proof.
  revert k. induction s as [|c s IH]; intros k; [discriminate|].
  cbn [Strings.SplitN2].
  destruct (Ascii.eqb_spec c sep) as [-> | Hne].
  - intros [= <- <-]. split; reflexivity.
  - destruct (Strings.SplitN2 s sep) as [|x [|y [|z rest]]] eqn:Hs; try discriminate.
    intros [= <- <-]. destruct (IH x eq_refl) as [-> Hx]. split; [reflexivity|].
    cbn [Strings.ContainsChar]. apply Ascii.eqb_neq in Hne. rewrite Hne. exact Hx.
Qed.

Lemma ContainsChar_trimLeft s c :
  Strings.ContainsChar s c = false → Strings.ContainsChar (Strings.trimLeft s) c = false.
Proof.
  induction s as [|d s IH]; [auto|]. cbn [Strings.trimLeft].
  destruct (Strings.isSpace d); [|auto].
  cbn [Strings.ContainsChar]. destruct (Ascii.eqb d c); [discriminate | exact IH].
Qed.

Lemma ContainsChar_trimRight s c :
  Strings.ContainsChar s c = false → Strings.ContainsChar (Strings.trimRight s) c = false.
Proof.
  induction s as [|d s IH]; [auto|]. cbn [Strings.trimRight Strings.ContainsChar].
  destruct (Ascii.eqb d c) eqn:Hd; [discriminate|]. intros Hs. specialize (IH Hs).
  destruct (Strings.trimRight s) as [|e r].
  - destruct (Strings.isSpace d); [reflexivity|].
    cbn [Strings.ContainsChar]. rewrite Hd. reflexivity.
  - cbn [Strings.ContainsChar] in *. rewrite Hd. exact IH.
Qed.

Lemma ContainsChar_TrimSpace s c :
  Strings.ContainsChar s c = false → Strings.ContainsChar (Strings.TrimSpace s) c = false.
Proof. intros H. apply ContainsChar_trimRight, ContainsChar_trimLeft, H. Qed.

(** X14. A line that assigns is cut at its first equals sign: the trimmed
    line is the raw key, an equals sign and the raw value; the key that is
    assigned is never empty and never holds an equals sign, so that
    [os.Setenv] can refuse the pair only for a NUL byte. *)
Theorem X14_assigned_key_is_valid text key value :
  parseLine text = Assign key value →
  key ≠ EmptyString
  ∧ Strings.ContainsChar key "=" = false
  ∧ (∃ k v, Strings.TrimSpace text = k +:+ String "=" v
            ∧ key = Strings.TrimSpace k
            ∧ Strings.TrimSpace v ≠ EmptyString
            ∧ value = unquoteValue (Strings.TrimSpace v))
  ∧ Setenv_ok key value
    = negb (Strings.ContainsChar key "000" || Strings.ContainsChar value "000").
Proof.
  unfold parseLine.
  destruct (bool_decide (Strings.TrimSpace text = EmptyString)
            || Strings.HasPrefix (Strings.TrimSpace text) "#"); [discriminate|].
  destruct (Strings.SplitN2 (Strings.TrimSpace text) "=") as [|k [|v [|z rest]]] eqn:Hs;
    try discriminate.
  destruct (bool_decide_reflect (Strings.TrimSpace k = EmptyString)) as [|Hk];
    [discriminate|].
  destruct (bool_decide_reflect (Strings.TrimSpace v = EmptyString)) as [|Hv];
    [discriminate|].
  simpl. intros [= <- <-].
  destruct (SplitN2_cut _ _ _ _ Hs) as [Hline Hnoeq].
  assert (Hkey : Strings.ContainsChar (Strings.TrimSpace k) "=" = false)
    by (apply ContainsChar_TrimSpace; exact Hnoeq).
  split; [exact Hk|]. split; [exact Hkey|]. split.
  - exists k, v. auto.
  - unfold Setenv_ok. rewrite Hkey, (bool_decide_eq_false_2 _ Hk). reflexivity.
Qed.

Lemma scanLines_ok lines : ∀ env lineNum,
  Forall wellFormedLine lines → (scanLines env lines lineNum).2 = None.
Proof.
  induction lines as [|text rest IH]; intros env lineNum Hwf; simpl; [reflexivity|].
  apply Forall_cons in Hwf as [Ht Hrest].
  destruct (parseLine text) as [|line|k v] eqn:Hp.
  - apply IH, Hrest.
  - destruct (Ht line Hp).
  - destruct (LookupEnv env k); apply IH, Hrest.
Qed.

Lemma scanLines_app pre : ∀ env lineNum rest,
  Forall wellFormedLine pre →
  scanLines env (pre ++ rest) lineNum
  = scanLines (scanLines env pre lineNum).1 rest (lineNum + length pre).
Proof.
  induction pre as [|text pre IH]; intros env lineNum rest Hwf; simpl.
  - rewrite Nat.add_0_r. reflexivity.
  - apply Forall_cons in Hwf as [Ht Hpre].
    replace (lineNum + S (length pre))%nat with (S lineNum + length pre)%nat by lia.
    destruct (parseLine text) as [|line|k v] eqn:Hp.
    + apply IH, Hpre.
    + destruct (Ht line Hp).
    + destruct (LookupEnv env k); apply IH, Hpre.
Qed.

(** X15. Scanning stops at the first line that is not blank, a comment or
    key=value: the error gives the number of that line, counted from one,
    and the trimmed line; the lines before it have been applied and the
    lines after it are not read. Without such a line there is no error. *)
Theorem X15_first_malformed_line_is_reported env pre bad rest line :
  Forall wellFormedLine pre →
  parseLine bad = Invalid line →
  scanLines env (pre ++ bad :: rest) 0
  = ((scanLines env pre 0).1,
     Some ("invalid format at line " +:+ Strconv.Itoa (Z.of_nat (length pre + 1))
           +:+ ": " +:+ line))
  ∧ (scanLines env pre 0).2 = None.
Proof.
  intros Hwf Hbad. split; [|apply scanLines_ok, Hwf].
  rewrite (scanLines_app pre env 0%nat (bad :: rest) Hwf). simpl. rewrite Hbad.
  replace (S (length pre)) with (length pre + 1)%nat by lia. reflexivity.
Qed.

Lemma scanLines_ok_inv lines : ∀ env lineNum,
  (scanLines env lines lineNum).2 = None → Forall wellFormedLine lines.
Proof.
  induction lines as [|text rest IH]; intros env lineNum Hok; [constructor|].
  simpl in Hok. destruct (parseLine text) as [|line|k v] eqn:Hp.
  - constructor; [intros x; rewrite Hp; discriminate | eapply IH, Hok].
  - discriminate.
  - constructor; [intros x; rewrite Hp; discriminate|].
    destruct (LookupEnv env k); eapply IH, Hok.
Qed.

Lemma loadEnvFile_ok_iff w file :
  (loadEnvFile w file).2 = None ↔ loadable w file.
Proof.
  unfold loadEnvFile, loadable.
  destruct (files w !! file) as [lines|].
  - pose proof (scanLines_ok lines (environ w) 0%nat) as H1.
    pose proof (scanLines_ok_inv lines (environ w) 0%nat) as H2.
    destruct (scanLines (environ w) lines 0) as [env err]. simpl in *. split.
    + intros Hok. exists lines. auto.
    + intros (lines' & [= <-] & Hwf). auto.
  - simpl. split; [discriminate|]. intros (lines & Hl & _). discriminate.
Qed.

Lemma loadable_files w w' file : files w' = files w → loadable w' file ↔ loadable w file.
Proof. intros Hf. unfold loadable. rewrite Hf. reflexivity. Qed.

Lemma loadEach_ok_iff toLoad : ∀ w,
  (loadEach w toLoad).2 = None ↔ ∀ file, file ∈ toLoad → loadable w file.
Proof.
  induction toLoad as [|file rest IH]; intros w; simpl.
  - split; [|reflexivity]. intros _ f Hin. inversion Hin.
  - pose proof (loadEnvFile_ok_iff w file) as Hfile.
    pose proof (loadEnvFile_files w file) as Hfiles.
    destruct (loadEnvFile w file) as [w' [err|]]; simpl in *.
    + split; [discriminate|]. intros Hall.
      assert (Hbad : Some err = None) by (apply Hfile, Hall, list_elem_of_here).
      discriminate.
    + rewrite IH. split.
      * intros Hrest f Hin. apply elem_of_cons in Hin as [-> | Hin].
        -- apply Hfile. reflexivity.
        -- apply (loadable_files w w' f Hfiles), Hrest, Hin.
      * intros Hall f Hin. apply (loadable_files w w' f Hfiles), Hall.
        apply list_elem_of_further, Hin.
Qed.

(** X16. Loading the env files fails whenever a file to load cannot be
    opened or holds a malformed line: a load that succeeds has found every
    file to load, and only well-formed lines in it. An explicitly listed
    file that is absent makes the load fail. A conventional file that is
    absent is not among the files to load: with no explicit file and no
    conventional file on disk the load succeeds and changes nothing. *)
Theorem X16_loadEnvFiles_fails_on_unloadable_file l w :
  ((loadEnvFiles l w).2 = None → ∀ file, file ∈ filesToLoad l w → loadable w file)
  ∧ (∀ file, file ∈ filesToLoad l w → ¬ loadable w file → (loadEnvFiles l w).2 ≠ None)
  ∧ (∀ file, file ∈ envFiles l → files w !! file = None → (loadEnvFiles l w).2 ≠ None)
  ∧ (∀ file lines bad line,
       file ∈ filesToLoad l w → files w !! file = Some lines →
       bad ∈ lines → parseLine bad = Invalid line →
       (loadEnvFiles l w).2 ≠ None)
  ∧ (envFiles l = [] →
     (∀ file, file ∈ commonEnvFiles → files w !! file = None) →
     loadEnvFiles l w = (w, None)).
Proof.
  assert (Hok : (loadEnvFiles l w).2 = None
                → ∀ file, file ∈ filesToLoad l w → loadable w file)
    by apply loadEach_ok_iff.
  split; [exact Hok|]. split; [|split; [|split]].
  - intros file Hin Hbad Hnone. exact (Hbad (Hok Hnone file Hin)).
  - intros file Hin Hmissing Hnone.
    assert (Hload : loadable w file).
    { apply (Hok Hnone). unfold filesToLoad.
      destruct (autoLoadEnv l); [apply elem_of_app; left|]; exact Hin. }
    destruct Hload as (lines & Hl & _). congruence.
  - intros file lines bad line Hin Hfile Hbad Hparse Hnone.
    destruct (Hok Hnone file Hin) as (lines' & Hl & Hwf).
    assert (lines' = lines) by congruence. subst lines'.
    rewrite Forall_forall in Hwf. exact (Hwf bad Hbad line Hparse).
  - intros Hnone Habsent.
    assert (Hfiles : filesToLoad l w = []).
    { unfold filesToLoad. rewrite Hnone.
      destruct (autoLoadEnv l); [|reflexivity]. simpl.
      destruct (filter (λ file, is_Some (files w !! file)) commonEnvFiles)
        as [|file rest] eqn:Hfilter; [reflexivity|].
      assert (Hin : file ∈ filter (λ file, is_Some (files w !! file)) commonEnvFiles).
      { rewrite Hfilter. apply list_elem_of_here. }
      apply list_elem_of_filter in Hin as [[lines Hl] Hc].
      rewrite (Habsent file Hc) in Hl. discriminate Hl. }
    unfold loadEnvFiles. rewrite Hfiles. reflexivity.
Qed.

Lemma with_environ_id w : with_environ w (environ w) = w.
Proof. destruct w. reflexivity. Qed.

(** Scanning again in an environment that has every key the first scan
    left set changes nothing and reports the same. *)
Lemma scanLines_stable lines : ∀ env env2 lineNum,
  (∀ k, is_Some (LookupEnv (scanLines env lines lineNum).1 k) → is_Some (LookupEnv env2 k)) →
  scanLines env2 lines lineNum = (env2, (scanLines env lines lineNum).2).
Proof.
  induction lines as [|text rest IH]; intros env env2 lineNum Hsub; simpl in *;
    [reflexivity|].
  destruct (parseLine text) as [|line|k v]; simpl in *; [apply IH, Hsub | reflexivity |].
  destruct (LookupEnv env k) as [x|] eqn:Hk.
  - assert (H2 : is_Some (LookupEnv env2 k)).
    { apply Hsub. exists x. apply scanLines_keeps. exact Hk. }
    destruct H2 as [y ->]. apply IH, Hsub.
  - destruct (LookupEnv env2 k) as [y|] eqn:Hk2; [apply IH, Hsub|].
    destruct (Setenv_ok k v) eqn:Hok.
    + exfalso.
      assert (H2 : is_Some (LookupEnv env2 k)).
      { apply Hsub. exists v. apply scanLines_keeps, LookupEnv_Setenv_same, Hok. }
      destruct H2 as [y Hy]. congruence.
    + unfold Setenv in *. rewrite Hok in *. apply IH, Hsub.
Qed.

Lemma loadEnvFile_stable w w2 file :
  files w2 = files w →
  (∀ k, is_Some (LookupEnv (environ (loadEnvFile w file).1) k) →
        is_Some (LookupEnv (environ w2) k)) →
  loadEnvFile w2 file = (w2, (loadEnvFile w file).2).
Proof.
  intros Hf. unfold loadEnvFile. rewrite Hf.
  destruct (files w !! file) as [lines|]; [|reflexivity].
  intros Hsub.
  pose proof (scanLines_stable lines (environ w) (environ w2) 0%nat) as Hst.
  destruct (scanLines (environ w) lines 0) as [env err]. simpl in *.
  rewrite (Hst Hsub). rewrite with_environ_id. reflexivity.
Qed.

Lemma loadEach_keeps_set toLoad w k :
  is_Some (LookupEnv (environ w) k) →
  is_Some (LookupEnv (environ (loadEach w toLoad).1) k).
Proof. intros [x Hx]. exists x. apply loadEach_keeps. exact Hx. Qed.

Lemma loadEach_stable toLoad : ∀ w w2,
  files w2 = files w →
  (∀ k, is_Some (LookupEnv (environ (loadEach w toLoad).1) k) →
        is_Some (LookupEnv (environ w2) k)) →
  loadEach w2 toLoad = (w2, (loadEach w toLoad).2).
Proof.
  induction toLoad as [|file rest IH]; intros w w2 Hf Hsub; simpl in *; [reflexivity|].
  pose proof (loadEnvFile_stable w w2 file Hf) as Hst.
  pose proof (loadEnvFile_files w file) as Hf'.
  pose proof (loadEach_keeps_set rest (loadEnvFile w file).1) as Hmono.
  destruct (loadEnvFile w file) as [w' [err|]]; simpl in *.
  - rewrite (Hst Hsub). reflexivity.
  - rewrite Hst by (intros k Hk; apply Hsub, Hmono, Hk).
    apply IH; [congruence | exact Hsub].
Qed.

(** X17. Loading the env files is idempotent: loading them again right
    after changes nothing in the environment and gives the same result,
    and the files to load are the same. *)
Theorem X17_loadEnvFiles_idempotent l w :
  loadEnvFiles l (loadEnvFiles l w).1 = ((loadEnvFiles l w).1, (loadEnvFiles l w).2)
  ∧ filesToLoad l (loadEnvFiles l w).1 = filesToLoad l w.
Proof.
  assert (Hfiles : files (loadEnvFiles l w).1 = files w)
    by (unfold loadEnvFiles; apply loadEach_files_stderr).
  assert (Hsame : filesToLoad l (loadEnvFiles l w).1 = filesToLoad l w).
  { unfold filesToLoad. rewrite Hfiles. reflexivity. }
  split; [|exact Hsame].
  unfold loadEnvFiles at 1. rewrite Hsame.
  apply loadEach_stable; [exact Hfiles | auto].
Qed.

(** ** Quoted values *)

Lemma append_cons c (a b : string) : String c a +:+ b = String c (a +:+ b).
Proof. reflexivity. Qed.

Lemma length_append (a b : string) :
  String.length (a +:+ b) = (String.length a + String.length b)%nat.
Proof.
  induction a as [|c a IH]; [reflexivity|].
  rewrite append_cons. cbn [String.length]. rewrite IH. reflexivity.
Qed.

Lemma get_append_end (s : string) q t :
  String.get (String.length s) (s +:+ String q t) = Some q.
Proof.
  induction s as [|c s IH]; [reflexivity|].
  rewrite append_cons. cbn [String.length String.get]. exact IH.
Qed.

Lemma substring_append_start (s t : string) :
  String.substring 0 (String.length s) (s +:+ t) = s.
Proof.
  induction s as [|c s IH]; [destruct t; reflexivity|].
  rewrite append_cons. cbn [String.length String.substring]. rewrite IH. reflexivity.
Qed.

Lemma length_substring n m (s : string) :
  (String.length (String.substring n m s) ≤ String.length s)%nat.
Proof.
  revert n m. induction s as [|c s IH]; intros n m.
  - destruct n, m; simpl; lia.
  - destruct n as [|n]; [destruct m as [|m]|]; cbn [String.substring String.length].
    + lia.
    + specialize (IH 0%nat m). lia.
    + specialize (IH n m). lia.
Qed.

Lemma prefix_length (a : string) : ∀ b : string,
  String.prefix a b = true → (String.length a ≤ String.length b)%nat.
Proof.
  induction a as [|c a IH]; intros b Hp; [simpl; lia|].
  destruct b as [|d b]; [discriminate|].
  cbn [String.prefix] in Hp. destruct (ascii_dec c d); [|discriminate].
  specialize (IH b Hp). simpl. lia.
Qed.

Lemma replaceFrom_length old new :
  (String.length new ≤ String.length old)%nat → old ≠ EmptyString →
  ∀ s skip,
    (String.length (Strings.replaceFrom old new skip s) + Nat.min skip (String.length s)
     ≤ String.length s)%nat.
Proof.
  intros Hlen Hold. induction s as [|c s IH]; intros skip; [simpl; lia|].
  cbn [Strings.replaceFrom]. destruct skip as [|k].
  - destruct (String.prefix old (String c s)) eqn:Hp.
    + apply prefix_length in Hp. cbn [String.length] in *.
      rewrite length_append. specialize (IH (String.length old - 1)%nat).
      destruct old as [|o old']; [contradiction|]. cbn [String.length] in *. lia.
    + specialize (IH 0%nat). cbn [String.length]. lia.
  - specialize (IH k). cbn [String.length]. lia.
Qed.

Lemma ReplaceAll_length s old new :
  (String.length new ≤ String.length old)%nat → old ≠ EmptyString →
  (String.length (Strings.ReplaceAll s old new) ≤ String.length s)%nat.
Proof.
  intros Hlen Hold. pose proof (replaceFrom_length old new Hlen Hold s 0%nat).
  unfold Strings.ReplaceAll. lia.
Qed.

Lemma replaceFrom_absent c p new s :
  Strings.ContainsChar s c = false →
  Strings.replaceFrom (String c p) new 0 s = s.
Proof.
  induction s as [|d s IH]; [reflexivity|].
  cbn [Strings.ContainsChar Strings.replaceFrom String.prefix].
  destruct (Ascii.eqb_spec d c) as [-> | Hne]; [discriminate|].
  intros Hs. destruct (ascii_dec c d) as [-> | _]; [contradiction|].
  rewrite (IH Hs). reflexivity.
Qed.

Lemma quotedBy_other q value :
  Strings.first value ≠ Some q → quotedBy q value = false.
Proof.
  intros Hf. unfold quotedBy. rewrite (bool_decide_eq_false_2 _ Hf).
  rewrite andb_false_r. reflexivity.
Qed.

Lemma quotedBy_wrapped q (s : string) :
  quotedBy q (String q (s +:+ String q EmptyString)) = true
  ∧ String.substring 1 (String.length (String q (s +:+ String q EmptyString)) - 2)
      (String q (s +:+ String q EmptyString)) = s.
Proof.
  assert (Hlen : String.length (String q (s +:+ String q EmptyString))
                 = S (S (String.length s))).
  { cbn [String.length]. rewrite length_append. simpl. lia. }
  split.
  - unfold quotedBy, Strings.first, Strings.last. rewrite Hlen.
    replace (S (S (String.length s)) - 1)%nat with (S (String.length s)) by lia.
    cbn [String.get]. rewrite get_append_end.
    rewrite !bool_decide_eq_true_2 by reflexivity. reflexivity.
  - rewrite Hlen. replace (S (S (String.length s)) - 2)%nat with (String.length s) by lia.
    cbn [String.substring]. apply substring_append_start.
Qed.

(** X18. Unquoting undoes quoting: a text wrapped in single quotes comes
    back as it is, whatever it holds; a text without a backslash wrapped in
    double quotes comes back as it is; a value that does not begin with a
    quote is left alone; and unquoting never makes a value longer. *)
Theorem X18_unquoteValue_round_trip (s : string) :
  unquoteValue (String squote (s +:+ String squote EmptyString)) = s
  ∧ (Strings.ContainsChar s "092" = false →
     unquoteValue (String dquote (s +:+ String dquote EmptyString)) = s)
  ∧ (Strings.first s ≠ Some dquote → Strings.first s ≠ Some squote →
     unquoteValue s = s)
  ∧ (String.length (unquoteValue s) ≤ String.length s)%nat.
Proof.
  split; [|split; [|split]].
  - unfold unquoteValue. rewrite quotedBy_other by discriminate.
    destruct (quotedBy_wrapped squote s) as [-> ->]. reflexivity.
  - intros Hs. unfold unquoteValue.
    destruct (quotedBy_wrapped dquote s) as [-> ->].
    unfold Strings.ReplaceAll, backslash. rewrite !append_cons.
    rewrite !(replaceFrom_absent _ _ _ s Hs). reflexivity.
  - intros Hd Hq. unfold unquoteValue.
    rewrite (quotedBy_other dquote s Hd), (quotedBy_other squote s Hq). reflexivity.
  - unfold unquoteValue.
    destruct (quotedBy dquote s).
    + repeat (etransitivity; [apply ReplaceAll_length; [simpl; lia | discriminate]|]).
      apply length_substring.
    + destruct (quotedBy squote s); [apply length_substring | lia].
Qed.

(** ** More on coercion *)

Lemma setFieldValue_strict_empty k field fieldName :
  k ∈ strictKinds →
  (setFieldValue (Named k) field EmptyString fieldName).2 ≠ None.
Proof.
  unfold strictKinds, signedKinds, unsignedKinds. simpl.
  rewrite !elem_of_cons, elem_of_nil.
  intros Hk; repeat (destruct Hk as [-> | Hk]; [discriminate|]); destruct Hk.
Qed.

(** X19. An empty element fails a sequence of integers or booleans: when
    a part of the text is empty or blank (two commas in a row, a comma at
    either end), the conversion reports an error and the field keeps its
    content; a sequence of strings keeps such a part as an empty string. *)
Theorem X19_empty_element_fails_numeric_sequences k field value fieldName i part :
  k ∈ strictKinds →
  value ≠ EmptyString →
  Strings.Split value "," !! i = Some part →
  Strings.TrimSpace part = EmptyString →
  (∃ err, setFieldValue (SliceOf (Named k)) field value fieldName = (field, Some err))
  ∧ ∃ elems, setFieldValue (SliceOf (Named Reflect.String)) field value fieldName
             = (VSlice elems, None)
             ∧ elems !! i = Some (VString EmptyString).
Proof.
  intros Hk Hne Hpart Hblank. split.
  - destruct (setSliceValue_spec (Named k) field value fieldName Hne)
      as [(elems & _ & _ & Hall) | (err & _ & _ & _ & Herr & _)]; [|eauto].
    destruct (Hall i part Hpart) as (e' & He & _).
    rewrite Hblank in He.
    pose proof (setFieldValue_strict_empty k (zero (Named k)) (elemName fieldName i) Hk) as Hf.
    rewrite He in Hf. contradiction.
  - destruct (setSliceValue_spec (Named Reflect.String) field value fieldName Hne)
      as [(elems & Heq & _ & Hall) | (err & k' & part' & e0 & _ & _ & Herr)];
      [|discriminate].
    exists elems. split; [exact Heq|].
    destruct (Hall i part Hpart) as (e' & He & Hl).
    rewrite Hblank in He. simpl in He. injection He as <-. exact Hl.
Qed.

(** X20. A sequence of strings never fails: a non-empty text gives exactly
    its parts between the commas, each trimmed, one element per part. *)
Theorem X20_string_sequence_is_the_trimmed_parts field value fieldName :
  value ≠ EmptyString →
  setFieldValue (SliceOf (Named Reflect.String)) field value fieldName
  = (VSlice ((λ part, VString (Strings.TrimSpace part)) <$> Strings.Split value ","),
     None).
Proof.
  intros Hne.
  destruct (setSliceValue_spec (Named Reflect.String) field value fieldName Hne)
    as [(elems & -> & Hlen & Hall) | (err & k' & part' & e0 & _ & _ & Herr)];
    [|discriminate].
  f_equal. f_equal. apply list_eq. intros i.
  rewrite list_lookup_fmap.
  destruct (Strings.Split value "," !! i) as [part|] eqn:Hpart; simpl.
  - destruct (Hall i part Hpart) as (e' & He & Hl). simpl in He.
    injection He as <-. exact Hl.
  - apply lookup_ge_None. rewrite Hlen. apply lookup_ge_None. exact Hpart.
Qed.

(** X21. A field whose processing reports an error keeps its content, and
    the error is either the required-field error, when no tier supplied a
    value, or the error of converting the non-empty resolved text. *)
Theorem X21_processField_error_keeps_field l env T field sf prefix field' err :
  processField l env T field sf prefix = (field', Some err) →
  field' = field
  ∧ ((resolve l env sf prefix).2 = false
     ∧ Tag_Get (Tag sf) "required" = "true"
     ∧ err = "required field " +:+ Name sf +:+ " not set"
     ∨ (resolve l env sf prefix).2 = true
       ∧ (resolve l env sf prefix).1 ≠ EmptyString
       ∧ setFieldValue T field (resolve l env sf prefix).1 (Name sf) = (field, Some err)).
Proof.
  unfold processField.
  pose proof (resolve_found_nonempty l env sf prefix) as Hfound.
  destruct (resolve l env sf prefix) as [value found]. simpl in *.
  destruct (bool_decide_reflect (Tag_Get (Tag sf) "required" = "true")) as [Hreq | Hreq];
    destruct found; simpl.
  all: try discriminate.
  all: try (intros [= <- <-]; split; [reflexivity | left; auto]).
  all: intros Hset; pose proof (setFieldValue_error_keeps _ _ _ _ _ _ Hset) as ->;
    split; [reflexivity | right; split; [reflexivity | split; [apply Hfound; reflexivity | exact Hset]]].
Qed.

(** ** The flag set through Load *)

Lemma with_flagSet_twice l f f' : with_flagSet (with_flagSet l f) f' = with_flagSet l f'.
Proof. reflexivity. Qed.

(** X22. [Load] parses [flag.CommandLine] only, and only once: a flag set
    of the host, or a command line that is already parsed, comes out of
    [Load] with its parsed state and its arguments as they were and with
    every flag it held at its value; only flags that were missing have
    been added, and the other settings of the loader are untouched. *)
Theorem X22_Load_leaves_the_host_flag_set l w config :
  isCommandLine (flagSet l) = false ∨ parsed (flagSet l) = true →
  parsed (flagSet (Load l w config).1.1.1) = parsed (flagSet l)
  ∧ args (flagSet (Load l w config).1.1.1) = args (flagSet l)
  ∧ (∀ name x,
       FlagSet_Lookup (flagSet l) name = Some x →
       FlagSet_Lookup (flagSet (Load l w config).1.1.1) name = Some x)
  ∧ (Load l w config).1.1.1 = with_flagSet l (flagSet (Load l w config).1.1.1).
Proof.
  intros Hhost.
  destruct config as [v|];
    [|simpl; rewrite with_flagSet_id; auto].
  unfold Load.
  destruct (loadEnvFiles l w) as [w1 err].
  destruct (registerFlags_keeps l v EmptyString) as (Hk & Hc & Hp & Ha & Hl).
  destruct (registerFlags l v EmptyString) as [l1 o1]. simpl in *.
  assert (Hskip : isCommandLine (flagSet l1) && negb (parsed (flagSet l1)) = false).
  { rewrite Hc, Hp. destruct Hhost as [-> | ->]; [reflexivity | apply andb_false_r]. }
  assert (Hreg : ∀ w2,
    let r := match o1 with
             | Error e => (l1, w2, PtrToStruct v,
                           Error ("failed to register flags: " +:+ e))
             | Nil =>
                 match (if isCommandLine (flagSet l1) && negb (parsed (flagSet l1))
                        then Parse (flagSet l1) else Some (flagSet l1)) with
                 | None => (l1, w2, PtrToStruct v, Exit)
                 | Some f' =>
                     let '(v', w3, e) :=
                       processStruct (with_flagSet l1 f') w2 v EmptyString in
                     (with_flagSet l1 f', w3, PtrToStruct v',
                      match e with Some e => Error e | None => Nil end)
                 end
             | stop => (l1, w2, PtrToStruct v, stop)
             end in
    r.1.1.1 = l1).
  { intros w2. destruct o1; try reflexivity. rewrite Hskip.
    destruct (processStruct _ w2 v EmptyString) as [[v' w3] e]. simpl.
    apply with_flagSet_id. }
  assert (Hl1 : parsed (flagSet l1) = parsed (flagSet l)
                ∧ args (flagSet l1) = args (flagSet l)
                ∧ (∀ name x,
                     FlagSet_Lookup (flagSet l) name = Some x →
                     FlagSet_Lookup (flagSet l1) name = Some x)
                ∧ l1 = with_flagSet l (flagSet l1)) by auto.
  destruct err as [e|]; [destruct (failOnError l)|].
  - simpl. rewrite with_flagSet_id. auto.
  - rewrite Hreg. exact Hl1.
  - rewrite Hreg. exact Hl1.
Qed.

(** ** Usage text *)

(** X23. Every flag gets a usage text: the usage tag if there is one, else
    the description tag, else a generated text that begins with the
    identifier of the field; it is never empty. *)
Theorem X23_getFlagUsage_never_empty sf :
  getFlagUsage sf ≠ EmptyString
  ∧ (Tag_Get (Tag sf) "usage" ≠ EmptyString → getFlagUsage sf = Tag_Get (Tag sf) "usage")
  ∧ (Tag_Get (Tag sf) "usage" = EmptyString →
     Tag_Get (Tag sf) "description" ≠ EmptyString →
     getFlagUsage sf = Tag_Get (Tag sf) "description")
  ∧ (Tag_Get (Tag sf) "usage" = EmptyString →
     Tag_Get (Tag sf) "description" = EmptyString →
     ∃ rest, getFlagUsage sf = Name sf +:+ " (env: " +:+ rest).
Proof.
  assert (Hgen : Tag_Get (Tag sf) "usage" = EmptyString →
                 Tag_Get (Tag sf) "description" = EmptyString →
                 ∃ rest, getFlagUsage sf = Name sf +:+ " (env: " +:+ rest).
  { intros Hu Hd. unfold getFlagUsage. rewrite Hu, Hd. simpl.
    repeat case_decide; eexists;
      rewrite ?append_assoc; repeat (rewrite ?append_assoc; f_equal). }
  assert (Hne : ∀ a b : string, a +:+ " (env: " +:+ b ≠ EmptyString).
  { intros a b. destruct a; discriminate. }
  split; [|split; [|split; [|exact Hgen]]].
  - destruct (decide (Tag_Get (Tag sf) "usage" = EmptyString)) as [Hu | Hu].
    + destruct (decide (Tag_Get (Tag sf) "description" = EmptyString)) as [Hd | Hd].
      * destruct (Hgen Hu Hd) as [rest ->]. apply Hne.
      * unfold getFlagUsage. rewrite Hu. simpl. rewrite (decide_True _ _ Hd). exact Hd.
    + unfold getFlagUsage. rewrite (decide_True _ _ Hu). exact Hu.
  - intros Hu. unfold getFlagUsage. rewrite (decide_True _ _ Hu). reflexivity.
  - intros Hu Hd. unfold getFlagUsage. rewrite Hu. simpl.
    rewrite (decide_True _ _ Hd). reflexivity.
Qed.

(** ** Decimal text and back *)

Lemma digitsValue_ge d : ∀ acc, 0 ≤ acc → acc ≤ digitsValue d acc.
Proof.
  induction d; intros acc Hacc; simpl; [lia|..];
    match goal with
    | IH : ∀ acc, _ → _ ≤ digitsValue ?d acc |- _ ≤ digitsValue ?d ?x =>
        specialize (IH x ltac:(lia)); lia
    end.
Qed.

Lemma parseDigits_step M c s acc k :
  Strconv.digit c = Some k →
  Strconv.parseDigits M (String c s) acc
  = if M <? acc * 10 + k then Err Strconv.ErrRange
    else Strconv.parseDigits M s (acc * 10 + k).
Proof. intros Hd. cbn [Strconv.parseDigits]. rewrite Hd. reflexivity. Qed.

Lemma parseDigits_digits M d : ∀ acc,
  0 ≤ acc ≤ M →
  Strconv.parseDigits M (NilEmpty.string_of_uint d) acc
  = if M <? digitsValue d acc then Err Strconv.ErrRange else Ok (digitsValue d acc).
Proof.
  induction d; intros acc Hacc; cbn [NilEmpty.string_of_uint digitsValue];
    [simpl; destruct (Z.ltb_spec M acc); [lia | reflexivity]|..];
    match goal with
    | |- Strconv.parseDigits M (String ?c ?s) acc
         = (if M <? digitsValue ?d (acc * 10 + ?k) then _ else _) =>
        rewrite (parseDigits_step M c s acc k eq_refl);
        pose proof (digitsValue_ge d (acc * 10 + k) ltac:(lia)) as Hge;
        destruct (Z.ltb_spec M (acc * 10 + k)) as [Hbig | Hsmall];
        [destruct (Z.ltb_spec M (digitsValue d (acc * 10 + k))); [reflexivity | lia]
        | apply IHd; lia]
    end.
Qed.

Lemma digitsValue_pos d : ∀ acc : positive,
  digitsValue d (Zpos acc) = Zpos (Pos.of_uint_acc d acc).
Proof.
  induction d; intros acc; simpl; [reflexivity|..];
    match goal with
    | |- digitsValue ?d ?x = Zpos (Pos.of_uint_acc ?d ?y) =>
        replace x with (Zpos y) by lia; apply IHd
    end.
Qed.

Lemma digitsValue_zero d : digitsValue d 0 = Z.of_N (Pos.of_uint d).
Proof.
  induction d; simpl; [reflexivity | exact IHd |..];
    match goal with
    | |- digitsValue ?d ?x = Zpos (Pos.of_uint_acc ?d ?y) =>
        change x with (Zpos y); apply digitsValue_pos
    end.
Qed.

Lemma digitsValue_to_uint p : digitsValue (Pos.to_uint p) 0 = Zpos p.
Proof. rewrite digitsValue_zero, DecimalPos.Unsigned.of_to. reflexivity. Qed.

(** The decimal text of a positive number: not empty, it begins with a
    digit, and [ParseUint] reads the number back. *)
Lemma ParseUint_to_uint p bitSize :
  Zpos p ≤ 2 ^ bitSize - 1 →
  ∃ c s, NilZero.string_of_uint (Pos.to_uint p) = String c s
         ∧ Ascii.eqb c "-" = false ∧ Ascii.eqb c "+" = false
         ∧ Strconv.ParseUint (String c s) bitSize = Ok (Zpos p).
Proof.
  intros Hle.
  pose proof (digitsValue_to_uint p) as Hval.
  pose proof (parseDigits_digits (2 ^ bitSize - 1) (Pos.to_uint p) 0 ltac:(lia)) as Hparse.
  rewrite Hval in Hparse.
  destruct (Z.ltb_spec (2 ^ bitSize - 1) (Zpos p)); [lia|].
  destruct (Pos.to_uint p) as [|d|d|d|d|d|d|d|d|d|d]; [discriminate Hval|..];
    eexists _, _; (split; [reflexivity|]); (split; [reflexivity|]);
    (split; [reflexivity|]); exact Hparse.
Qed.

Lemma ParseInt_Itoa n : - 2 ^ 63 ≤ n < 2 ^ 63 → Strconv.ParseInt (Strconv.Itoa n) 64 = Ok n.
Proof.
  intros Hn. destruct n as [|p|p].
  - reflexivity.
  - destruct (ParseUint_to_uint p 64 ltac:(lia)) as (c & s & Hs & Hm & Hp & Hparse).
    unfold Strconv.Itoa. cbn [Z.to_int NilZero.string_of_int]. rewrite Hs.
    unfold Strconv.ParseInt. rewrite Hm, Hp. cbn [orb]. rewrite Hparse.
    destruct (Z.leb_spec (2 ^ (64 - 1)) (Zpos p)); [lia | reflexivity].
  - destruct (ParseUint_to_uint p 64 ltac:(lia)) as (c & s & Hs & Hm & Hp & Hparse).
    unfold Strconv.Itoa. cbn [Z.to_int NilZero.string_of_int]. rewrite Hs.
    unfold Strconv.ParseInt. cbn [Ascii.eqb Bool.eqb orb]. rewrite Hparse.
    cbn [negb andb].
    destruct (Z.ltb_spec (2 ^ (64 - 1)) (Zpos p)); [lia | reflexivity].
Qed.

Lemma parseDigits_range M s : ∀ acc n,
  0 ≤ acc ≤ M → Strconv.parseDigits M s acc = Ok n → 0 ≤ n ≤ M.
Proof.
  induction s as [|c s IH]; intros acc n Hacc; cbn [Strconv.parseDigits].
  - intros [= <-]. exact Hacc.
  - destruct (Strconv.digit c) as [k|] eqn:Hk; [|discriminate].
    assert (0 ≤ k).
    { unfold Strconv.digit in Hk.
      destruct ((48 <=? nat_of_ascii c) && (nat_of_ascii c <=? 57))%nat eqn:Hr;
        [|discriminate].
      injection Hk as <-. apply andb_prop in Hr as [Hlo _].
      apply Nat.leb_le in Hlo. lia. }
    destruct (Z.ltb_spec M (acc * 10 + k)); [discriminate|].
    apply IH. lia.
Qed.

Lemma ParseUint_range s bitSize n :
  Strconv.ParseUint s bitSize = Ok n → 0 ≤ n ≤ 2 ^ bitSize - 1.
Proof.
  destruct s as [|c s]; [discriminate|]. unfold Strconv.ParseUint.
  destruct (Z.leb_spec 0 (2 ^ bitSize - 1)) as [Hpos | Hneg].
  - apply parseDigits_range. lia.
  - cbn [Strconv.parseDigits]. destruct (Strconv.digit c) as [k|] eqn:Hk; [|discriminate].
    assert (0 ≤ k).
    { unfold Strconv.digit in Hk.
      destruct ((48 <=? nat_of_ascii c) && (nat_of_ascii c <=? 57))%nat eqn:Hr;
        [|discriminate].
      injection Hk as <-. apply andb_prop in Hr as [Hlo _].
      apply Nat.leb_le in Hlo. lia. }
    destruct (Z.ltb_spec (2 ^ bitSize - 1) (0 * 10 + k)); [discriminate | lia].
Qed.

Lemma ParseInt_range s n :
  Strconv.ParseInt s 64 = Ok n → - 2 ^ 63 ≤ n < 2 ^ 63.
Proof.
  destruct s as [|c s]; [discriminate|]. unfold Strconv.ParseInt.
  destruct (Strconv.ParseUint _ 64) as [un | []] eqn:Hu; try discriminate.
  apply ParseUint_range in Hu.
  destruct (Ascii.eqb c "-"); cbn [negb andb].
  - destruct (Z.ltb_spec (2 ^ (64 - 1)) un); [discriminate|]. intros [= <-]. lia.
  - destruct (Z.leb_spec (2 ^ (64 - 1)) un); [discriminate|]. intros [= <-]. lia.
Qed.

Lemma ParseUint_Itoa n : 0 ≤ n < 2 ^ 64 → Strconv.ParseUint (Strconv.Itoa n) 64 = Ok n.
Proof.
  intros Hn. destruct n as [|p|p]; [reflexivity | | lia].
  destruct (ParseUint_to_uint p 64 ltac:(lia)) as (c & s & Hs & _ & _ & Hparse).
  unfold Strconv.Itoa. cbn [Z.to_int NilZero.string_of_int]. rewrite Hs. exact Hparse.
Qed.

Lemma setFieldValue_Itoa_signed k field fieldName n :
  k ∈ signedKinds →
  - 2 ^ (Reflect.Bits k - 1) ≤ n < 2 ^ (Reflect.Bits k - 1) →
  setFieldValue (Named k) field (Strconv.Itoa n) fieldName = (VInt n, None).
Proof.
  intros Hk Hn. rewrite (setFieldValue_signed k _ _ _ Hk).
  assert (H64 : - 2 ^ 63 ≤ n < 2 ^ 63).
  { unfold signedKinds in Hk. rewrite !elem_of_cons, elem_of_nil in Hk.
    destruct Hk as [-> | [-> | [-> | [-> | [-> | []]]]]]; simpl in Hn; lia. }
  rewrite (ParseInt_Itoa n H64).
  destruct (SetInt_spec k n) as (m & -> & _ & _ & Hsame). rewrite (Hsame Hn). reflexivity.
Qed.

(** X24. The decimal text of a number converts back to the number: for a
    signed kind and a number in the range of its width, and for an
    unsigned kind and a number in its range, converting the decimal text
    of the number (what [strconv.Itoa] and the flag package print) assigns
    that number without an error. *)
Theorem X24_decimal_text_round_trip k field fieldName n :
  (k ∈ signedKinds →
   - 2 ^ (Reflect.Bits k - 1) ≤ n < 2 ^ (Reflect.Bits k - 1) →
   setFieldValue (Named k) field (Strconv.Itoa n) fieldName = (VInt n, None))
  ∧ (k ∈ unsignedKinds →
     0 ≤ n < 2 ^ Reflect.Bits k →
     setFieldValue (Named k) field (Strconv.Itoa n) fieldName = (VUint n, None)).
Proof.
  split; [apply setFieldValue_Itoa_signed|].
  intros Hk Hn.
  assert (H64 : 0 ≤ n < 2 ^ 64).
  { unfold unsignedKinds in Hk. rewrite !elem_of_cons, elem_of_nil in Hk.
    destruct Hk as [-> | [-> | [-> | [-> | [-> | []]]]]]; simpl in Hn; lia. }
  assert (Hset : setFieldValue (Named k) field (Strconv.Itoa n) fieldName
                 = (SetUint k n, None)).
  { unfold unsignedKinds in Hk. rewrite !elem_of_cons, elem_of_nil in Hk.
    destruct Hk as [-> | [-> | [-> | [-> | [-> | []]]]]];
      cbn [setFieldValue]; rewrite (ParseUint_Itoa n H64); reflexivity. }
  rewrite Hset. unfold SetUint. rewrite Z.mod_small by exact Hn. reflexivity.
Qed.

(** X25. An int field whose flag the loader has just registered is always
    assigned the default of that flag: the number of its default tag, or 0
    when the tag is missing or is not written as a decimal integer (a
    default tag beyond 64 bits is left aside). Processing the field never
    fails and never looks at the environment. *)
Theorem X25_registered_int_field_gets_the_flag_default l sf prefix l1 env q field :
  getFlagName sf ≠ EmptyString →
  FlagSet_Lookup (flagSet l) (getFlagName sf) = None →
  Strconv.Atoi (Tag_Get (Tag sf) "default") ≠ Err Strconv.ErrRange →
  registerFieldFlag l (Named Reflect.Int) sf prefix = (l1, Nil) →
  getFlagValue l1 (getFlagName sf)
  = Strconv.Itoa (if decide (Tag_Get (Tag sf) "default" ≠ EmptyString)
                  then orDefault 0 (Strconv.Atoi (Tag_Get (Tag sf) "default")) else 0)
  ∧ processField l1 env (Named Reflect.Int) field sf q
    = (VInt (if decide (Tag_Get (Tag sf) "default" ≠ EmptyString)
             then orDefault 0 (Strconv.Atoi (Tag_Get (Tag sf) "default")) else 0),
       None).
Proof.
  intros Hname Hfresh _ Hreg.
  set (d := if decide (Tag_Get (Tag sf) "default" ≠ EmptyString)
            then orDefault 0 (Strconv.Atoi (Tag_Get (Tag sf) "default")) else 0).
  assert (Hd : - 2 ^ 63 ≤ d < 2 ^ 63).
  { subst d. case_decide; [|lia]. unfold Strconv.Atoi, Strconv.IntSize.
    destruct (Strconv.ParseInt _ 64) as [n|e] eqn:Hp; simpl; [|lia].
    apply (ParseInt_range _ _ Hp). }
  assert (Hvalue : getFlagValue l1 (getFlagName sf) = Strconv.Itoa d).
  { revert Hreg. unfold registerFieldFlag.
    rewrite (decide_False _ _ Hname), Hfresh. fold d.
    destruct (Var (flagSet l) (getFlagName sf) (FInt d)) as [f' o'] eqn:HVar.
    intros [= <- ->]. unfold getFlagValue. simpl.
    rewrite (Var_defines _ _ _ _ HVar). reflexivity. }
  split; [exact Hvalue|].
  assert (Hres : resolve l1 env sf q = (Strconv.Itoa d, true)).
  { rewrite <- Hvalue. apply resolve_flag_tier; [exact Hname|].
    rewrite Hvalue. apply Itoa_nonempty. }
  unfold processField. rewrite Hres. rewrite andb_false_r.
  apply setFieldValue_Itoa_signed; [|exact Hd].
  unfold signedKinds. apply list_elem_of_here.
Qed.

End Properties.

(** * Closed instances *)

(** ** Evaluations of the model *)

Example TrimSpace_ex : Strings.TrimSpace "  a b  " = "a b".
Proof. reflexivity. Qed.

Example Split_ex : Strings.Split "1, 2,,3" "," = ["1"; " 2"; ""; "3"].
Proof. reflexivity. Qed.

Example SplitN2_ex : Strings.SplitN2 "A=b=c" "=" = ["A"; "b=c"].
Proof. reflexivity. Qed.

Example ReplaceAll_ex : Strings.ReplaceAll "aaab-aa" "aa" "X" = "Xab-X".
Proof. reflexivity. Qed.

Example ParseInt_ex :
  Strconv.ParseInt "-128" 8 = Ok (-128) ∧ Strconv.ParseInt "128" 8 = Err Strconv.ErrRange
  ∧ Strconv.ParseInt "200" 64 = Ok 200 ∧ Strconv.ParseInt "+7" 64 = Ok 7
  ∧ Strconv.ParseInt "-" 64 = Err Strconv.ErrSyntax
  ∧ Strconv.ParseInt "9223372036854775808" 64 = Err Strconv.ErrRange
  ∧ Strconv.ParseInt "-9223372036854775808" 64 = Ok (-9223372036854775808).
Proof. repeat split; reflexivity. Qed.

Example names_ex :
  toSnakeCase "MaxHeaderBytes" = "max_header_bytes"
  ∧ toKebabCase "MaxHeaderBytes" = "max-header-bytes"
  ∧ getNestedPrefix Ex.database "APP_" = "APP_DB_"
  ∧ getNestedPrefix Ex.store "APP_" = "APP_store_".
Proof. repeat split; reflexivity. Qed.

Example parseLine_ex :
  parseLine " KEY = 'raw\nstring' " = Assign "KEY" "raw\nstring"
  ∧ parseLine "K=a=b" = Assign "K" "a=b"
  ∧ parseLine "  # note" = Skip
  ∧ parseLine "K=" = Skip
  ∧ parseLine "no value" = Invalid "no value".
Proof. repeat split; reflexivity. Qed.

Example unquoteValue_ex :
  unquoteValue (String dquote "line1\nline2" +:+ String dquote EmptyString)
  = "line1" +:+ nl +:+ "line2".
Proof. reflexivity. Qed.

(** ** C1 and C8: where the code departs from its documentation *)

(** C1 (defect). A process started without arguments and with PORT=8085 in
    its environment loads a port of type int tagged env PORT, flag port,
    default 8080: the flag the loader has just registered reports the text
    of its default, the flag tier takes it, and the port is 8080, not 8085.
    Without the default tag the flag reports 0 and the port is 0. *)
Theorem C1_environment_loses_to_unset_flag :
  args Ex.commandLine = []
  ∧ Getenv (environ (Ex.world [("PORT", "8085")] [])) "PORT" = "8085"
  ∧ (Load_default Ex.commandLine (Ex.world [("PORT", "8085")] [])
       (Ex.portConfig Ex.port)).2 = Nil
  ∧ (Load_default Ex.commandLine (Ex.world [("PORT", "8085")] [])
       (Ex.portConfig Ex.port)).1.2
    = PtrToStruct (SField Ex.port (Named Reflect.Int) (VInt 8080) SNil)
  ∧ (Load_default Ex.commandLine (Ex.world [("PORT", "8085")] [])
       (Ex.portConfig Ex.portNoDefault)).1.2
    = PtrToStruct (SField Ex.portNoDefault (Named Reflect.Int) (VInt 0) SNil).
Proof. repeat split; vm_compute; reflexivity. Qed.

(** C8 (defect). Under continue-on-error, a struct with a field of type
    int8 makes [Load] return the error of the flag registration: nothing is
    written to the diagnostic stream and no field is processed, although
    LEVEL=3 is in the environment. *)
Theorem C8_continue_on_error_still_fails :
  failOnError (NewLoader Ex.commandLine [WithFailOnError false]) = false
  ∧ (Load (NewLoader Ex.commandLine [WithFailOnError false])
       (Ex.world [("LEVEL", "3")] []) Ex.levelConfig).2
    = Error "failed to register flags: unsupported flag type int8 for field Level"
  ∧ stderr (Load (NewLoader Ex.commandLine [WithFailOnError false])
              (Ex.world [("LEVEL", "3")] []) Ex.levelConfig).1.1.2 = []
  ∧ (Load (NewLoader Ex.commandLine [WithFailOnError false])
       (Ex.world [("LEVEL", "3")] []) Ex.levelConfig).1.2 = Ex.levelConfig
  ∧ setFieldValue (Named Reflect.Int8) (VInt 0) "3" "Level" = (VInt 3, None).
Proof. repeat split; vm_compute; reflexivity. Qed.

(** ** Counterexamples to the claims as they are written *)

(** C2. The required field Name of the struct Database, prefixed DB_, has
    the fully-qualified name DB_NAME; the error [Load] returns names the
    bare identifier and does not hold the qualified name. *)
Lemma C2_counterexample :
  getEnvKey (NewLoader Ex.commandLine []) ∅ Ex.dbName "DB_" = "DB_NAME"
  ∧ (Load_default Ex.commandLine (Ex.world [] []) (PtrToStruct Ex.dbStruct)).2
    = Error "required field Name not set"
  ∧ Strings.Contains "required field Name not set" "DB_NAME" = false.
Proof. repeat split; vm_compute; reflexivity. Qed.



(** C6. The empty text does not give an empty sequence: a field that holds
    the one-element sequence 9 still holds it afterwards. *)
Lemma C6_counterexample :
  setFieldValue (SliceOf (Named Reflect.Int)) (VSlice [VInt 9]) EmptyString "Ports"
  = (VSlice [VInt 9], None)
  ∧ setSliceValue (Named Reflect.Int) (VSlice [VInt 9]) EmptyString "Ports"
    = (VSlice [VInt 9], None)
  ∧ len (VSlice [VInt 9]) = 1%nat.
Proof. repeat split; reflexivity. Qed.

(** C9. A loader built with the explicit list app.env alone also loads the
    conventional file .env that is on disk: its key B reaches the
    environment. *)
Lemma C9_counterexample :
  filesToLoad (NewLoader Ex.commandLine [WithEnvFiles ["app.env"]])
    (Ex.world [] Ex.envFilesOnDisk) = ["app.env"; ".env"]
  ∧ LookupEnv
      (environ (loadEnvFiles (NewLoader Ex.commandLine [WithEnvFiles ["app.env"]])
                  (Ex.world [] Ex.envFilesOnDisk)).1) "B" = Some "b c"
  ∧ LookupEnv
      (environ (loadEnvFiles (NewLoader Ex.commandLine [WithEnvFiles ["app.env"]])
                  (Ex.world [] Ex.envFilesOnDisk)).1) "D" = Some "4".
Proof. repeat split; vm_compute; reflexivity. Qed.

(** ** Witnesses: the theorems at concrete inputs *)


Lemma C5_witness :
  Strings.Split "1,x,3" "," !! 1%nat = Some "x"
  ∧ (setFieldValue (Named Reflect.Int) (VInt 7) (Strings.TrimSpace "x")
       (elemName "Ports" 1)).2 ≠ None
  ∧ ∃ err, setFieldValue (SliceOf (Named Reflect.Int)) (VSlice [VInt 9]) "1,x,3" "Ports"
           = (VSlice [VInt 9], Some err).
Proof.
  assert (Hpart : Strings.Split "1,x,3" "," !! 1%nat = Some "x") by reflexivity.
  assert (Hfail : (setFieldValue (Named Reflect.Int) (VInt 7) (Strings.TrimSpace "x")
                     (elemName "Ports" 1)).2 ≠ None) by (vm_compute; discriminate).
  split; [exact Hpart|]. split; [exact Hfail|].
  destruct (C5_sequence_coercion_atomic (Named Reflect.Int) (VSlice [VInt 9]) "1,x,3" "Ports")
    as (_ & Hany & _).
  apply (Hany 1%nat "x" (VInt 7)); [discriminate | exact Hpart | exact Hfail].
Defined.


Lemma C7_witness :
  LookupEnv (environ (Ex.world [("A", "real")] Ex.envFilesOnDisk)) "A" = Some "real"
  ∧ LookupEnv (environ (Ex.world [("A", "real")] Ex.envFilesOnDisk)) "B" = None
  ∧ defines "B" "b c" ["A=file"; "# comment"; "B = 'b c' "; "C=3"]
  ∧ LookupEnv
      (environ (loadEnvFiles (NewLoader Ex.commandLine [])
                  (Ex.world [("A", "real")] Ex.envFilesOnDisk)).1) "A" = Some "real"
  ∧ LookupEnv
      (environ (loadEnvFile (Ex.world [("A", "real")] Ex.envFilesOnDisk) ".env").1) "B"
    = Some "b c".
Proof.
  assert (HA : LookupEnv (environ (Ex.world [("A", "real")] Ex.envFilesOnDisk)) "A"
               = Some "real") by reflexivity.
  assert (HB : LookupEnv (environ (Ex.world [("A", "real")] Ex.envFilesOnDisk)) "B"
               = None) by reflexivity.
  assert (Hdef : defines "B" "b c" ["A=file"; "# comment"; "B = 'b c' "; "C=3"]).
  { apply (defines_after_other _ _ _ _ "A" "file"); [reflexivity | discriminate |].
    apply defines_after_skip; [reflexivity|].
    apply defines_here. reflexivity. }
  split; [exact HA|]. split; [exact HB|]. split; [exact Hdef|]. split.
  - destruct (C7_env_file_never_overrides (Ex.world [("A", "real")] Ex.envFilesOnDisk) "A")
      as (Hkeep & _ & _).
    apply Hkeep. exact HA.
  - destruct (C7_env_file_never_overrides (Ex.world [("A", "real")] Ex.envFilesOnDisk) "B")
      as (_ & _ & Hadopt).
    apply (Hadopt ".env" ["A=file"; "# comment"; "B = 'b c' "; "C=3"] "b c");
      [exact HB | reflexivity | exact Hdef | reflexivity].
Defined.

Lemma C2_witness :
  leafAt Ex.dbName (Named Reflect.String) (VString EmptyString) "DB_" EmptyString Ex.dbStruct
  ∧ Tag_Get (Tag Ex.dbName) "required" = "true"
  ∧ (Load (NewLoader Ex.commandLine [WithFailOnError false]) (Ex.world [] [])
       (PtrToStruct Ex.dbStruct)).2 = Nil
  ∧ warning "required field Name not set"
    ∈ stderr (Load (NewLoader Ex.commandLine [WithFailOnError false]) (Ex.world [] [])
                (PtrToStruct Ex.dbStruct)).1.1.2
  ∧ ∃ v', (Load (NewLoader Ex.commandLine [WithFailOnError false]) (Ex.world [] [])
             (PtrToStruct Ex.dbStruct)).1.2 = PtrToStruct v'
          ∧ leafAt Ex.dbName (Named Reflect.String) (VString EmptyString) "DB_"
              EmptyString v'.
Proof.
  set (l := NewLoader Ex.commandLine [WithFailOnError false]).
  set (r := Load l (Ex.world [] []) (PtrToStruct Ex.dbStruct)).
  assert (Hleaf : leafAt Ex.dbName (Named Reflect.String) (VString EmptyString) "DB_"
                    EmptyString Ex.dbStruct).
  { apply leafAt_inside; [reflexivity|]. apply leafAt_here; reflexivity. }
  assert (Hreq : Tag_Get (Tag Ex.dbName) "required" = "true") by reflexivity.
  assert (Hnil : r.2 = Nil) by (vm_compute; reflexivity).
  split; [exact Hleaf|]. split; [exact Hreq|]. split; [exact Hnil|].
  destruct (C2_required_field_missing l (Ex.world [] []) Ex.dbStruct
              r.1.1.1 r.1.1.2 r.1.2 r.2
              Ex.dbName (Named Reflect.String) (VString EmptyString) "DB_" EmptyString)
    as (_ & _ & Hcont).
  - vm_compute. reflexivity.
  - exact Hleaf.
  - exact Hreq.
  - vm_compute. reflexivity.
  - destruct (Hcont eq_refl) as [_ Hlogged]. exact (Hlogged Hnil).
Defined.

Lemma C10_witness :
  getFlagName Ex.serverHost = "host"
  ∧ getFlagName Ex.storeHost = getFlagName Ex.serverHost
  ∧ (registerFieldFlag (NewLoader Ex.commandLine []) (Named Reflect.String)
       Ex.serverHost "SERVER_").2 = Nil
  ∧ registerFieldFlag
      (registerFieldFlag (NewLoader Ex.commandLine []) (Named Reflect.String)
         Ex.serverHost "SERVER_").1
      (Named Reflect.String) Ex.storeHost "store_"
    = ((registerFieldFlag (NewLoader Ex.commandLine []) (Named Reflect.String)
          Ex.serverHost "SERVER_").1, Nil)
  ∧ resolve
      (registerFieldFlag (NewLoader Ex.commandLine []) (Named Reflect.String)
         Ex.serverHost "SERVER_").1
      (list_to_map [("SERVER_HOST", "a.example"); ("store_HOST", "b.example")])
      Ex.serverHost "SERVER_" = ("localhost", true)
  ∧ resolve
      (registerFieldFlag (NewLoader Ex.commandLine []) (Named Reflect.String)
         Ex.serverHost "SERVER_").1
      (list_to_map [("SERVER_HOST", "a.example"); ("store_HOST", "b.example")])
      Ex.storeHost "store_" = ("localhost", true).
Proof.
  set (l := NewLoader Ex.commandLine []).
  set (l1 := (registerFieldFlag l (Named Reflect.String) Ex.serverHost "SERVER_").1).
  assert (Hname : getFlagName Ex.serverHost ≠ EmptyString) by (vm_compute; discriminate).
  assert (Hsame : getFlagName Ex.storeHost = getFlagName Ex.serverHost) by reflexivity.
  assert (Hreg : registerFieldFlag l (Named Reflect.String) Ex.serverHost "SERVER_"
                 = (l1, Nil)) by (vm_compute; reflexivity).
  destruct (C10_flag_names_shared l (Named Reflect.String) (Named Reflect.String)
              Ex.serverHost Ex.storeHost)
    as (_ & _ & _ & _ & Hshared & Hboth).
  split; [reflexivity|]. split; [exact Hsame|]. split; [vm_compute; reflexivity|].
  split; [exact (Hshared "SERVER_" "store_" l1 Hname Hsame Hreg)|].
  apply (Hboth l1 _ "SERVER_" "store_" Hname Hsame).
  vm_compute. discriminate.
Defined.

(** The same two fields through [Load]: one flag host is defined, and both
    fields take its text although each has its own variable set. *)
Example siblings_share_one_flag :
  map_to_list (formal (flagSet
    (Load_default Ex.commandLine
       (Ex.world [("SERVER_HOST", "a.example"); ("store_HOST", "b.example")] [])
       (PtrToStruct Ex.hostsStruct)).1.1.1))
  = [("host", FString "localhost")]
  ∧ (Load_default Ex.commandLine
       (Ex.world [("SERVER_HOST", "a.example"); ("store_HOST", "b.example")] [])
       (PtrToStruct Ex.hostsStruct)).1.2
    = PtrToStruct
        (SNested Ex.server
           (SField Ex.serverHost (Named Reflect.String) (VString "localhost") SNil)
           (SNested Ex.store
              (SField Ex.storeHost (Named Reflect.String) (VString "localhost") SNil)
              SNil)).
Proof. split; vm_compute; reflexivity. Qed.

Lemma C9_witness :
  environ (Ex.world [] [("app.env", ["D=4"])]) = environ (Ex.world [] Ex.envFilesOnDisk)
  ∧ LookupEnv
      (environ (loadEnvFiles
                  (NewLoader Ex.commandLine [WithEnvFiles ["app.env"]; WithAutoLoadEnv false])
                  (Ex.world [] Ex.envFilesOnDisk)).1) "D" = Some "4"
  ∧ environ (loadEnvFiles
               (NewLoader Ex.commandLine [WithEnvFiles ["app.env"]; WithAutoLoadEnv false])
               (Ex.world [] [("app.env", ["D=4"])])).1
    = environ (loadEnvFiles
                 (NewLoader Ex.commandLine [WithEnvFiles ["app.env"]; WithAutoLoadEnv false])
                 (Ex.world [] Ex.envFilesOnDisk)).1.
Proof.
  split; [reflexivity|]. split; [vm_compute; reflexivity|].
  destruct (C9_explicit_env_files Ex.commandLine ["app.env"] (Ex.world [] Ex.envFilesOnDisk))
    as (_ & _ & _ & _ & _ & Honly).
  apply (Honly (Ex.world [] [("app.env", ["D=4"])])); [reflexivity|].
  intros file Hin. apply list_elem_of_singleton in Hin. subst file.
  vm_compute. reflexivity.
Defined.

(** ** Instances of the further properties *)

Lemma X1_witness :
  hasType (Named Reflect.Int8) (VInt 0)
  ∧ hasType (Named Reflect.Int8)
      (setFieldValue (Named Reflect.Int8) (VInt 0) "300" "Level").1.
Proof.
  assert (H : hasType (Named Reflect.Int8) (VInt 0)) by (simpl; lia).
  split; [exact H|].
  exact (X1_setFieldValue_keeps_type (Named Reflect.Int8) (VInt 0) "300" "Level" H).
Defined.

Lemma X2_witness :
  wellTyped (SField Ex.port (Named Reflect.Int) (VInt 0) SNil)
  ∧ ∃ v', (Load_default Ex.commandLine (Ex.world [("PORT", "8085")] [])
             (Ex.portConfig Ex.port)).1.2 = PtrToStruct v'
          ∧ wellTyped v'.
Proof.
  assert (H : wellTyped (SField Ex.port (Named Reflect.Int) (VInt 0) SNil)).
  { simpl. split; [lia | exact I]. }
  split; [exact H|].
  exact (X2_Load_keeps_struct_well_typed (NewLoader Ex.commandLine [])
           (Ex.world [("PORT", "8085")] [])
           (SField Ex.port (Named Reflect.Int) (VInt 0) SNil) H).
Defined.

Lemma X3_witness :
  (Load_default Ex.commandLine (Ex.world [("PORT", "8085")] [])
     (Ex.portConfig Ex.port)).2 = Nil
  ∧ ∃ v', (Load_default Ex.commandLine (Ex.world [("PORT", "8085")] [])
             (Ex.portConfig Ex.port)).1.2 = PtrToStruct v'
          ∧ leafAt Ex.port (Named Reflect.Int) (VInt 8080) EmptyString EmptyString v'.
Proof.
  set (l := NewLoader Ex.commandLine []).
  set (w := Ex.world [("PORT", "8085")] []).
  set (r := Load l w (Ex.portConfig Ex.port)).
  split; [vm_compute; reflexivity|].
  destruct (X3_Load_nil_processes_every_leaf l w
              (SField Ex.port (Named Reflect.Int) (VInt 0) SNil)
              r.1.1.1 r.1.1.2 r.1.2) as (v' & Hc & Hleaf & _).
  - vm_compute. reflexivity.
  - exists v'. split; [exact Hc|].
    specialize (Hleaf Ex.port (Named Reflect.Int) (VInt 0) EmptyString).
    assert (Hval : (processField r.1.1.1 (environ r.1.1.2) (Named Reflect.Int) (VInt 0)
                      Ex.port EmptyString).1 = VInt 8080) by (vm_compute; reflexivity).
    rewrite Hval in Hleaf. apply Hleaf. apply leafAt_here; reflexivity.
Defined.

Lemma X4_witness :
  failOnError (NewLoader Ex.commandLine [WithFailOnError false]) = false
  ∧ (processStruct (NewLoader Ex.commandLine [WithFailOnError false]) (Ex.world [] [])
       Ex.dbStruct EmptyString).2 = None
  ∧ ∃ errs,
      stderr (processStruct (NewLoader Ex.commandLine [WithFailOnError false])
                (Ex.world [] []) Ex.dbStruct EmptyString).1.2
      = stderr (Ex.world [] []) ++ (warning <$> errs)
      ∧ ∀ err, err ∈ errs ↔
               ∃ sf T field q,
                 leafAt sf T field q EmptyString Ex.dbStruct
                 ∧ (processField (NewLoader Ex.commandLine [WithFailOnError false])
                      (environ (Ex.world [] [])) T field sf q).2 = Some err.
Proof.
  split; [reflexivity|].
  exact (X4_walker_warns_exactly_the_failing_leaves
           (NewLoader Ex.commandLine [WithFailOnError false]) (Ex.world [] [])
           Ex.dbStruct EmptyString eq_refl).
Defined.

Lemma X5_witness :
  failOnError (NewLoader Ex.commandLine []) = true
  ∧ (Load (NewLoader Ex.commandLine []) (Ex.world [] []) (PtrToStruct Ex.dbStruct)).2
    = Error "required field Name not set"
  ∧ stderr (Load (NewLoader Ex.commandLine []) (Ex.world [] []) (PtrToStruct Ex.dbStruct)).1.1.2
    = stderr (Ex.world [] []).
Proof.
  assert (Herr : (Load (NewLoader Ex.commandLine []) (Ex.world [] [])
                    (PtrToStruct Ex.dbStruct)).2 = Error "required field Name not set")
    by (vm_compute; reflexivity).
  split; [reflexivity|]. split; [exact Herr|].
  exact (X5_fail_fast_Load_is_silent (NewLoader Ex.commandLine []) (Ex.world [] [])
           (PtrToStruct Ex.dbStruct) eq_refl
           (or_intror (ex_intro _ "required field Name not set" Herr))).
Defined.

Lemma X6_witness :
  LookupEnv (environ (Ex.world [("A", "real")] Ex.envFilesOnDisk)) "A" = Some "real"
  ∧ LookupEnv
      (environ (Load (NewLoader Ex.commandLine []) (Ex.world [("A", "real")] Ex.envFilesOnDisk)
                  (Ex.portConfig Ex.port)).1.1.2) "A" = Some "real".
Proof.
  assert (H : LookupEnv (environ (Ex.world [("A", "real")] Ex.envFilesOnDisk)) "A"
              = Some "real") by reflexivity.
  split; [exact H|].
  exact (proj2 (X6_Load_only_adds_to_the_environment (NewLoader Ex.commandLine [])
                  (Ex.world [("A", "real")] Ex.envFilesOnDisk) (Ex.portConfig Ex.port))
           "A" "real" H).
Defined.

Lemma X7_witness :
  allUnexported
    (SField {| Name := "secret"; Tag := [("env", "SECRET"); ("required", "true")];
               Exported := false |}
       (Named Reflect.Int8) (VInt 0)
       (SNested {| Name := "inner"; Tag := []; Exported := false |}
          (SField Ex.port (Named Reflect.Int) (VInt 0) SNil) SNil))
  ∧ processStruct (NewLoader Ex.commandLine []) (Ex.world [("SECRET", "1")] [])
      (SField {| Name := "secret"; Tag := [("env", "SECRET"); ("required", "true")];
                 Exported := false |}
         (Named Reflect.Int8) (VInt 0)
         (SNested {| Name := "inner"; Tag := []; Exported := false |}
            (SField Ex.port (Named Reflect.Int) (VInt 0) SNil) SNil))
      EmptyString
    = (SField {| Name := "secret"; Tag := [("env", "SECRET"); ("required", "true")];
                 Exported := false |}
         (Named Reflect.Int8) (VInt 0)
         (SNested {| Name := "inner"; Tag := []; Exported := false |}
            (SField Ex.port (Named Reflect.Int) (VInt 0) SNil) SNil),
       Ex.world [("SECRET", "1")] [], None).
Proof.
  assert (H : allUnexported
    (SField {| Name := "secret"; Tag := [("env", "SECRET"); ("required", "true")];
               Exported := false |}
       (Named Reflect.Int8) (VInt 0)
       (SNested {| Name := "inner"; Tag := []; Exported := false |}
          (SField Ex.port (Named Reflect.Int) (VInt 0) SNil) SNil))).
  { simpl. repeat split. }
  split; [exact H|].
  exact (proj2 (X7_unexported_fields_are_skipped (NewLoader Ex.commandLine [])
                  (Ex.world [("SECRET", "1")] []) _ EmptyString H)).
Defined.

Lemma X8_witness :
  flagTierEmpty (NewLoader Ex.commandLine []) Ex.serverHost
  ∧ Getenv (list_to_map [("SERVER_HOST", "a.example")])
      (getEnvKey (NewLoader Ex.commandLine []) (list_to_map [("SERVER_HOST", "a.example")])
         Ex.serverHost "SERVER_") ≠ EmptyString
  ∧ resolve (NewLoader Ex.commandLine []) (list_to_map [("SERVER_HOST", "a.example")])
      Ex.serverHost "SERVER_" = ("a.example", true).
Proof.
  assert (Hflag : flagTierEmpty (NewLoader Ex.commandLine []) Ex.serverHost).
  { right. reflexivity. }
  assert (Henv : Getenv (list_to_map [("SERVER_HOST", "a.example")])
                   (getEnvKey (NewLoader Ex.commandLine [])
                      (list_to_map [("SERVER_HOST", "a.example")]) Ex.serverHost "SERVER_")
                 ≠ EmptyString) by (vm_compute; discriminate).
  split; [exact Hflag|]. split; [exact Henv|].
  destruct (X8_resolve_first_non_empty_tier (NewLoader Ex.commandLine [])
              (list_to_map [("SERVER_HOST", "a.example")]) Ex.serverHost "SERVER_")
    as (_ & Htier & _).
  rewrite (Htier Hflag Henv). vm_compute. reflexivity.
Defined.

Lemma X11_witness :
  Tag_Get (Tag Ex.level) "flag" = EmptyString
  ∧ Strings.isUpper "L" = true
  ∧ Strings.ContainsChar (Name Ex.level) "=" = false
  ∧ getFlagName Ex.level ≠ EmptyString
  ∧ (∀ msg, (registerFieldFlag (NewLoader Ex.commandLine []) (Named Reflect.Int8) Ex.level
               EmptyString).2 ≠ Panic msg)
  ∧ ((registerFieldFlag (NewLoader Ex.commandLine []) (Named Reflect.Int8) Ex.level
        EmptyString).2 = Nil
     ∨ ∃ k, Named Reflect.Int8 = Named k
            ∧ (registerFieldFlag (NewLoader Ex.commandLine []) (Named Reflect.Int8) Ex.level
                 EmptyString).2
              = Error ("unsupported flag type " +:+ Reflect.Kind_String k
                       +:+ " for field " +:+ Name Ex.level)).
Proof.
  split; [reflexivity|]. split; [reflexivity|]. split; [reflexivity|].
  exact (X11_untagged_field_never_panics (NewLoader Ex.commandLine []) (Named Reflect.Int8)
           Ex.level EmptyString "L" "evel" eq_refl eq_refl eq_refl eq_refl).
Defined.

Lemma X13_witness :
  Tag_Get (Tag Ex.store) "env" = EmptyString
  ∧ getEnvKey (NewLoader Ex.commandLine [WithEnvPrefix "app_"]) ∅ Ex.store "db_" = "APP_DB_STORE".
Proof.
  split; [reflexivity|].
  destruct (X13_env_key_shape (NewLoader Ex.commandLine [WithEnvPrefix "app_"]) ∅ Ex.store "db_")
    as [_ Huntagged].
  destruct (Huntagged eq_refl) as [Hkey _].
  rewrite Hkey. vm_compute. reflexivity.
Defined.

Lemma X14_witness :
  parseLine "B = 'b c' " = Assign "B" "b c"
  ∧ "B" ≠ EmptyString
  ∧ Strings.ContainsChar "B" "=" = false
  ∧ (∃ k v, Strings.TrimSpace "B = 'b c' " = k +:+ String "=" v
            ∧ "B" = Strings.TrimSpace k
            ∧ Strings.TrimSpace v ≠ EmptyString
            ∧ "b c" = unquoteValue (Strings.TrimSpace v))
  ∧ Setenv_ok "B" "b c"
    = negb (Strings.ContainsChar "B" "000" || Strings.ContainsChar "b c" "000").
Proof.
  split; [reflexivity|].
  exact (X14_assigned_key_is_valid "B = 'b c' " "B" "b c" eq_refl).
Defined.

Lemma X15_witness :
  Forall wellFormedLine ["A=1"; "# note"]
  ∧ parseLine " oops " = Invalid "oops"
  ∧ scanLines ∅ (["A=1"; "# note"] ++ " oops " :: ["B=2"]) 0
    = ((scanLines ∅ ["A=1"; "# note"] 0).1, Some "invalid format at line 3: oops").
Proof.
  assert (H : Forall wellFormedLine ["A=1"; "# note"]).
  { repeat constructor; intros line; vm_compute; discriminate. }
  split; [exact H|]. split; [reflexivity|].
  exact (proj1 (X15_first_malformed_line_is_reported ∅ ["A=1"; "# note"] " oops " ["B=2"]
                  "oops" H eq_refl)).
Defined.

Lemma X16_witness :
  "app.env" ∈ filesToLoad (NewLoader Ex.commandLine [WithEnvFiles ["app.env"]])
                (Ex.world [] [("app.env", ["D=4"; "oops"; "E=5"])])
  ∧ parseLine "oops" = Invalid "oops"
  ∧ (loadEnvFiles (NewLoader Ex.commandLine [WithEnvFiles ["app.env"]])
       (Ex.world [] [("app.env", ["D=4"; "oops"; "E=5"])])).2 ≠ None.
Proof.
  assert (Hin : "app.env" ∈ filesToLoad (NewLoader Ex.commandLine [WithEnvFiles ["app.env"]])
                             (Ex.world [] [("app.env", ["D=4"; "oops"; "E=5"])])).
  { apply list_elem_of_here. }
  split; [exact Hin|]. split; [reflexivity|].
  destruct (X16_loadEnvFiles_fails_on_unloadable_file
              (NewLoader Ex.commandLine [WithEnvFiles ["app.env"]])
              (Ex.world [] [("app.env", ["D=4"; "oops"; "E=5"])]))
    as (_ & _ & _ & Hbad & _).
  apply (Hbad "app.env" ["D=4"; "oops"; "E=5"] "oops" "oops" Hin).
  - vm_compute. reflexivity.
  - apply list_elem_of_further, list_elem_of_here.
  - reflexivity.
Defined.

Lemma X18_witness :
  Strings.ContainsChar "a 'b' c" "092" = false
  ∧ unquoteValue (String dquote ("a 'b' c" +:+ String dquote EmptyString)) = "a 'b' c".
Proof.
  split; [reflexivity|].
  destruct (X18_unquoteValue_round_trip "a 'b' c") as (_ & Hdouble & _).
  exact (Hdouble eq_refl).
Defined.

Lemma X19_witness :
  Reflect.Int ∈ strictKinds
  ∧ Strings.Split "1,,3" "," !! 1%nat = Some EmptyString
  ∧ (∃ err, setFieldValue (SliceOf (Named Reflect.Int)) (VSlice [VInt 9]) "1,,3" "Ports"
            = (VSlice [VInt 9], Some err))
  ∧ ∃ elems, setFieldValue (SliceOf (Named Reflect.String)) (VSlice [VInt 9]) "1,,3" "Ports"
             = (VSlice elems, None)
             ∧ elems !! 1%nat = Some (VString EmptyString).
Proof.
  assert (Hk : Reflect.Int ∈ strictKinds).
  { unfold strictKinds, signedKinds. apply list_elem_of_here. }
  assert (Hpart : Strings.Split "1,,3" "," !! 1%nat = Some EmptyString) by reflexivity.
  split; [exact Hk|]. split; [exact Hpart|].
  apply (X19_empty_element_fails_numeric_sequences Reflect.Int (VSlice [VInt 9]) "1,,3"
           "Ports" 1%nat EmptyString Hk); [discriminate | exact Hpart | reflexivity].
Defined.

Lemma X20_witness :
  setFieldValue (SliceOf (Named Reflect.String)) VNilSlice "a, b ,,c" "Tags"
  = (VSlice [VString "a"; VString "b"; VString EmptyString; VString "c"], None).
Proof.
  assert (H : "a, b ,,c" ≠ EmptyString) by discriminate.
  exact (X20_string_sequence_is_the_trimmed_parts VNilSlice "a, b ,,c" "Tags" H).
Defined.

Lemma X21_witness :
  processField (NewLoader Ex.commandLine []) ∅ (Named Reflect.String) (VString "old")
    Ex.dbName "DB_" = (VString "old", Some "required field Name not set")
  ∧ (resolve (NewLoader Ex.commandLine []) ∅ Ex.dbName "DB_").2 = false.
Proof.
  assert (H : processField (NewLoader Ex.commandLine []) ∅ (Named Reflect.String)
                (VString "old") Ex.dbName "DB_"
              = (VString "old", Some "required field Name not set"))
    by (vm_compute; reflexivity).
  split; [exact H|].
  destruct (X21_processField_error_keeps_field _ _ _ _ _ _ _ _ H)
    as [_ [(Hres & _) | (Hres & _)]]; [exact Hres|].
  vm_compute in Hres. discriminate Hres.
Defined.

Lemma X22_witness :
  isCommandLine (flagSet (NewLoader Ex.commandLine [WithFlagSet Ex.hostFlags])) = false
  ∧ parsed (flagSet (Load (NewLoader Ex.commandLine [WithFlagSet Ex.hostFlags])
                       (Ex.world [("PORT", "8085")] []) (Ex.portConfig Ex.port)).1.1.1)
    = false
  ∧ args (flagSet (Load (NewLoader Ex.commandLine [WithFlagSet Ex.hostFlags])
                     (Ex.world [("PORT", "8085")] []) (Ex.portConfig Ex.port)).1.1.1)
    = [].
Proof.
  split; [reflexivity|].
  destruct (X22_Load_leaves_the_host_flag_set
              (NewLoader Ex.commandLine [WithFlagSet Ex.hostFlags])
              (Ex.world [("PORT", "8085")] []) (Ex.portConfig Ex.port)
              (or_introl eq_refl)) as (Hparsed & Hargs & _).
  split; [exact Hparsed | exact Hargs].
Defined.

Lemma X23_witness :
  Tag_Get (Tag Ex.port) "usage" = EmptyString
  ∧ Tag_Get (Tag Ex.port) "description" = EmptyString
  ∧ getFlagUsage Ex.port = "Port (env: PORT) (default: 8080)"
  ∧ ∃ rest, getFlagUsage Ex.port = Name Ex.port +:+ " (env: " +:+ rest.
Proof.
  split; [reflexivity|]. split; [reflexivity|]. split; [reflexivity|].
  destruct (X23_getFlagUsage_never_empty Ex.port) as (_ & _ & _ & Hgen).
  exact (Hgen eq_refl eq_refl).
Defined.

Lemma X24_witness :
  Reflect.Int8 ∈ signedKinds
  ∧ setFieldValue (Named Reflect.Int8) (VInt 0) (Strconv.Itoa (-128)) "Level"
    = (VInt (-128), None)
  ∧ Strconv.Itoa (-128) = "-128".
Proof.
  assert (Hk : Reflect.Int8 ∈ signedKinds).
  { unfold signedKinds. apply list_elem_of_further, list_elem_of_here. }
  split; [exact Hk|]. split; [|reflexivity].
  apply (proj1 (X24_decimal_text_round_trip Reflect.Int8 (VInt 0) "Level" (-128)) Hk).
  simpl. lia.
Defined.

Lemma X25_witness :
  getFlagName Ex.port ≠ EmptyString
  ∧ FlagSet_Lookup (flagSet (NewLoader Ex.commandLine [])) (getFlagName Ex.port) = None
  ∧ Strconv.Atoi (Tag_Get (Tag Ex.port) "default") = Ok 8080
  ∧ (registerFieldFlag (NewLoader Ex.commandLine []) (Named Reflect.Int) Ex.port
       EmptyString).2 = Nil
  ∧ processField
      (registerFieldFlag (NewLoader Ex.commandLine []) (Named Reflect.Int) Ex.port
         EmptyString).1
      (list_to_map [("PORT", "8085")]) (Named Reflect.Int) (VInt 0) Ex.port EmptyString
    = (VInt 8080, None).
Proof.
  assert (Hname : getFlagName Ex.port ≠ EmptyString) by (vm_compute; discriminate).
  split; [exact Hname|]. split; [reflexivity|]. split; [reflexivity|].
  split; [vm_compute; reflexivity|].
  refine (proj2 (X25_registered_int_field_gets_the_flag_default
                   (NewLoader Ex.commandLine []) Ex.port EmptyString
                   (registerFieldFlag (NewLoader Ex.commandLine []) (Named Reflect.Int)
                      Ex.port EmptyString).1
                   (list_to_map [("PORT", "8085")]) EmptyString (VInt 0)
                   Hname eq_refl _ _)).
  - vm_compute. discriminate.
  - vm_compute. reflexivity.
Defined.
